(** * Stream extractor: a shallow embedding of [extractor.js] and [hls-utils.js]

    The development follows the two source modules of the extraction
    pipeline:

    - [Extractor]: [fetchWithTimeout], [getObject], [getUrl], [serversLoad],
      [PRORCPhandler], [rcpGrabber], [mapWithConcurrencyLimit] and
      [getStreamContent];
    - [HlsUtils]: a second [fetchWithTimeout], [parseHLSMaster] and
      [fetchAndParseHLS].

    JavaScript exceptions and promise rejections are explicit ([completion]),
    the network is an oracle over the history of observable events
    ([trace]), and the libraries the code treats as black boxes (cheerio,
    m3u8-parser, [URL], the two regular expressions, [String.prototype.trim],
    the printing of numbers) are fields of a [Platform] every definition is
    parameterised by. *)

From Stdlib Require Import ZArith String Ascii Lia Sorted Permutation.
From stdpp Require Import base list strings pretty.

Local Open Scope string_scope.
Local Open Scope Z_scope.
Local Open Scope list_scope.

(** ** JavaScript values used by the code *)

(** What a [throw] carries: the code throws [Error] objects, and
    [throw lastErr] would throw [null] if no attempt had been made. *)
Inductive exn : Type :=
| ExnNull
| ExnError (message : string).

(** The outcome of evaluating a piece of code: it returns (an awaited promise
    fulfils) or it throws (the promise rejects). *)
Inductive completion (X : Type) : Type :=
| Normal (x : X)
| Throw (e : exn).
Arguments Normal {X} x.
Arguments Throw {X} e.

(** Integers as [parseInt] produces them: [NaN], or a number whose (integer)
    value is [z]. *)
Inductive jsnum : Type :=
| Num (z : Z)
| NaN.

(** A number the code only passes through (FRAME-RATE). *)
Inductive opaque_number : Type :=
| OpaqueNumber (literal : string).

(** [x || ''] and friends on strings: the empty string is the only falsy
    string. *)
Definition str_truthy (s : string) : bool :=
  match s with
  | EmptyString => false
  | String _ _ => true
  end.

Definition str_or (s d : string) : string :=
  if str_truthy s then s else d.

(** [o || d] where [o] is a string or [undefined]/[null]. *)
Definition opt_str_or (o : option string) (d : string) : string :=
  match o with
  | Some s => str_or s d
  | None => d
  end.

(** [Number(x)] for [x] a [parseInt] result or [undefined]. *)
Definition js_Number (x : option jsnum) : jsnum :=
  match x with
  | Some n => n
  | None => NaN
  end.

(** [n || 0] for a number [n]: [NaN] and [0] are falsy. *)
Definition or_zero (n : jsnum) : Z :=
  match n with
  | Num z => z
  | NaN => 0
  end.

(** [Number(x || 0)] for [x] a [parseInt] result or [undefined]: [NaN], [0]
    and [undefined] are falsy. *)
Definition number_or_zero (x : option jsnum) : Z :=
  match x with
  | Some (Num z) => z
  | Some NaN => 0
  | None => 0
  end.

(** How a template literal renders a string that may be [undefined]. *)
Definition render_str (x : option string) : string :=
  match x with
  | Some s => s
  | None => "undefined"
  end.

(** [s.startsWith(p)]. *)
Fixpoint startsWith (p s : string) : bool :=
  match p, s with
  | EmptyString, _ => true
  | String a p', String b s' => if Ascii.eqb a b then startsWith p' s' else false
  | String _ _, EmptyString => false
  end.

(** [s.slice(n)] for [0 <= n]. *)
Fixpoint str_drop (n : nat) (s : string) : string :=
  match n, s with
  | O, _ => s
  | S n', String _ s' => str_drop n' s'
  | S _, EmptyString => EmptyString
  end.

(** [s.replace(pat, rep)] with a string pattern: the first occurrence only.
    [rep] is used literally (the code passes [''], which has no [$]). *)
Fixpoint str_replace (pat rep s : string) : string :=
  if startsWith pat s then rep +:+ str_drop (String.length pat) s
  else match s with
       | EmptyString => EmptyString
       | String c s' => String c (str_replace pat rep s')
       end.

(** [s.includes(p)]. *)
Fixpoint includes (p s : string) : bool :=
  if startsWith p s then true
  else match s with
       | EmptyString => false
       | String _ s' => includes p s'
       end.

(** [s.split(sep)] for a one-character separator: never empty, [''] splits
    into [['']]. [cur] is the piece read so far. *)
Fixpoint split_go (sep : ascii) (cur : string) (s : string) : list string :=
  match s with
  | EmptyString => [cur]
  | String c s' =>
      if Ascii.eqb c sep then cur :: split_go sep EmptyString s'
      else split_go sep (cur +:+ String c EmptyString) s'
  end.

Definition str_split (sep : ascii) (s : string) : list string :=
  split_go sep EmptyString s.

(** [s] holds the character [c]. *)
Fixpoint has_char (c : ascii) (s : string) : bool :=
  match s with
  | EmptyString => false
  | String a s' => if Ascii.eqb a c then true else has_char c s'
  end.

(** ** Observable events and the async monad *)

(** What the outside world sees of a run: requests and back-off sleeps, in
    order. [console.error] output is not recorded. *)
Inductive event : Type :=
| EvFetch (url : string)
| EvSleep (ms : Z).

Definition trace : Type := list event.

(** An [async] computation: it reads and extends the history of events and
    completes normally or by throwing. *)
Definition M (X : Type) : Type := trace -> completion X * trace.

Definition ret {X} (x : X) : M X := fun t => (Normal x, t).

Definition throw {X} (e : exn) : M X := fun t => (Throw e, t).

Definition bind {X Y} (m : M X) (k : X -> M Y) : M Y :=
  fun t =>
    match m t with
    | (Normal x, t') => k x t'
    | (Throw e, t') => (Throw e, t')
    end.

(** [try { m } catch (e) { h e }]. *)
Definition try_catch {X} (m : M X) (h : exn -> M X) : M X :=
  fun t =>
    match m t with
    | (Normal x, t') => (Normal x, t')
    | (Throw e, t') => h e t'
    end.

(** Lifting a synchronous result that may have thrown. *)
Definition lift {X} (c : completion X) : M X := fun t => (c, t).

Notation "'let*' x ':=' m 'in' k" := (bind m (fun x => k))
  (at level 10, x binder, m at level 200, k at level 200).

(** [await new Promise(r => setTimeout(r, ms))]. *)
Definition sleep (ms : Z) : M unit := fun t => (Normal tt, t ++ [EvSleep ms]).

(** ** Data model *)

(** A [fetch] response: [ok], [status] and the outcome of [text()]. *)
Record Response : Type := {
  ok : bool;
  status : Z;
  text : completion string
}.

(** How one [fetch] call settles: it fulfils with a response (possibly a
    falsy one, which the code guards against) or rejects (transport error,
    or the abort the timeout timer triggers). *)
Inductive fetch_result : Type :=
| Fulfilled (resp : option Response)
| Rejected (err : exn).

(** A server element of the embed page, as the cheerio calls of the
    [each] callback see it: [$(el).text()] and [$(el).attr('data-hash')],
    either of which may throw. *)
Record server_element : Type := {
  el_text : completion string;
  el_data_hash : completion (option string)
}.

(** The embed page as the cheerio queries of [serversLoad] see it. *)
Record document : Type := {
  title_text : completion string;            (* $('title').text() *)
  iframe_src : completion (option string);   (* $('iframe').attr('src') *)
  server_elements : completion (list server_element)
                                             (* $('.serversList .server') *)
}.

Record ServerEntry : Type := {
  name : string;
  dataHash : option string
}.

Record ServersLoad : Type := {
  servers : list ServerEntry;
  title : string;
  baseDomain : string
}.

Record Metadata : Type := { image : string }.

Record RcpResult : Type := {
  metadata : Metadata;
  data : string
}.

(** m3u8-parser's manifest, as far as [parseHLSMaster] reads it. *)
Record Resolution : Type := {
  width : option jsnum;
  height : option jsnum
}.

Record Attributes : Type := {
  BANDWIDTH : option jsnum;
  RESOLUTION : option Resolution;
  CODECS : option string;
  FRAME_RATE : option opaque_number
}.

Record Playlist : Type := {
  uri : option string;
  attributes : option Attributes
}.

Record Manifest : Type := {
  playlists : option (list Playlist)   (* [None]: absent or not an array *)
}.

Record QualityVariant : Type := {
  q_resolution : option string;
  q_bandwidth : Z;
  q_codecs : option string;
  q_frameRate : option opaque_number;
  q_url : string;
  q_title : string
}.

Record HLSManifest : Type := {
  masterUrl : string;
  qualities : list QualityVariant
}.

Record StreamResult : Type := {
  sr_name : string;
  sr_image : string;
  sr_mediaId : string;
  sr_stream : string;
  sr_referer : string;
  sr_hlsData : option HLSManifest
}.

(** ** The platform: everything the code calls but does not define *)

Record Platform : Type := {
  (** The network: how the next [fetch] of a URL settles, given everything
      that happened before. Request headers (a random user agent) are part
      of what the oracle abstracts. *)
  net : trace -> string -> fetch_result;
  (** [cheerio.load(html)]. *)
  cheerio_load : string -> completion document;
  (** [new URL(s).origin]. *)
  url_origin : string -> completion string;
  (** [new URL(uri, base).toString()], [uri] possibly [undefined]. *)
  url_resolve : option string -> string -> completion string;
  (** [new Parser(); push; end; parser.manifest]: a falsy manifest is
      [Normal None]. *)
  m3u8_parse : string -> completion (option Manifest);
  (** Capture group 1 of the [src:] pattern of [rcpGrabber] (the key, any
      white space, a value in single quotes), [None] without a match. *)
  match_src : string -> option string;
  (** Capture group 1 of the [file:] pattern of [PRORCPhandler], [None]
      without a match. *)
  match_file : string -> option string;
  (** [String.prototype.trim]. *)
  trim : string -> string;
  (** [String(n)] for a number whose value is the integer [n], which is how
      a template literal prints it: the decimal digits of a safe integer,
      the rounded digits of a larger one, exponent form from [1e21] on. *)
  number_to_string : Z -> string
}.

(** How a template literal renders the result of a [parseInt] that may be
    [undefined]. *)
Definition render_num (P : Platform) (x : option jsnum) : string :=
  match x with
  | Some (Num z) => number_to_string P z
  | Some NaN => "NaN"
  | None => "undefined"
  end.

(** ** The resilient fetcher, shared shape of both [fetchWithTimeout]s *)

Section Fetcher.
Context (P : Platform).

(** [await fetch(url, {signal, ...options})]; [clearTimeout] has no
    observable effect. *)
Definition fetch (url : string) : M (option Response) :=
  fun t =>
    match net P t url with
    | Fulfilled resp => (Normal resp, t ++ [EvFetch url])
    | Rejected err => (Throw err, t ++ [EvFetch url])
    end.

(** ['HTTP ' + (resp ? resp.status : 'NO_RESPONSE') + ' for ' + url]. *)
Definition http_error (resp : option Response) (url : string) : exn :=
  ExnError ("HTTP " +:+
            match resp with
            | Some r => pretty (status r)
            | None => "NO_RESPONSE"
            end +:+ " for " +:+ url).

(** What one pass through the [while] body decides. *)
Inductive pass : Type :=
| Return (resp : Response)      (* [return resp] *)
| Again (lastErr : exn).        (* fall out of the [try], loop again *)

(** The [while (attempt <= retries)] loop. [left] is the loop variant
    [retries + 1 - attempt], so the guard holds exactly when [left] is a
    successor; [attempt] and [lastErr] are the loop's two variables.
    [delay] is the back-off base (200 or 150). *)
Fixpoint fetch_attempts (delay : Z) (url : string) (retries : nat)
    (left : nat) (attempt : nat) (lastErr : exn) : M Response :=
  match left with
  | O => throw lastErr
  | S left' =>
      let attempt := S attempt in
      let* r :=
        try_catch
             (let* resp := fetch url in
              match resp with
              | Some r =>
                  if ok r then ret (Return r)
                  else
                    let lastErr := http_error resp url in
                    if (400 <=? status r) && (status r <? 500)
                    then throw lastErr
                    else ret (Again lastErr)
              | None => ret (Again (http_error resp url))
              end)
             (fun err =>
                if (retries <? attempt)%nat then throw err
                else let* _ := sleep (delay * Z.of_nat attempt) in
                     ret (Again err)) in
      match r with
      | Return resp => ret resp
      | Again lastErr => fetch_attempts delay url retries left' attempt lastErr
      end
  end.

Definition fetchWithTimeout_with (delay : Z) (url : string) (retries : nat)
    : M Response :=
  fetch_attempts delay url retries (S retries) 0%nat ExnNull.
End Fetcher.

(** The URLs requested in a trace, in order, and how many there are. *)
Fixpoint requests (t : trace) : list string :=
  match t with
  | [] => []
  | EvFetch url :: t' => url :: requests t'
  | EvSleep _ :: t' => requests t'
  end.

Definition fetch_count (t : trace) : nat := length (requests t).
Arguments fetch_count : simpl never.

(** ** JavaScript arrays and [Array.prototype.sort] *)

(** An array under construction may have holes: [None] is a hole. *)
Abbreviation js_array V := (list (option V)) (only parsing).

(** [arr[i] = v]: in range it overwrites, out of range the array grows and
    the slots in between are holes. *)
Definition js_array_set {V} (arr : js_array V) (i : nat) (v : V) : js_array V :=
  if decide (i < length arr)%nat then <[i := Some v]> arr
  else arr ++ replicate (i - length arr) None ++ [Some v].

(** [arr.sort(cmp)]: the sort is stable, so for a consistent comparator the
    result does not depend on the engine's algorithm; insertion from the
    right computes it. [x] goes before the first [y] with [cmp x y <= 0]. *)
Fixpoint sort_insert {A} (cmp : A -> A -> Z) (x : A) (l : list A) : list A :=
  match l with
  | [] => [x]
  | y :: l' => if cmp x y <=? 0 then x :: y :: l' else y :: sort_insert cmp x l'
  end.

Fixpoint js_sort {A} (cmp : A -> A -> Z) (l : list A) : list A :=
  match l with
  | [] => []
  | x :: l' => sort_insert cmp x (js_sort cmp l')
  end.

(** Sequencing of synchronous code that may throw. *)
Definition and_then {X Y} (c : completion X) (k : X -> completion Y)
    : completion Y :=
  match c with
  | Normal x => k x
  | Throw e => Throw e
  end.

Notation "'let!' x ':=' c 'in' k" := (and_then c (fun x => k))
  (at level 10, x binder, c at level 200, k at level 200).

(** ** hls-utils.js *)

Module HlsUtils.
Section WithPlatform.
Context (P : Platform).

(** [fetchWithTimeout(url, options, timeoutMs, retries)], back-off base
    150 ms. The timeout only decides when the platform's [fetch] rejects. *)
Definition fetchWithTimeout (url : string) (retries : nat) : M Response :=
  fetchWithTimeout_with P 150 url retries.

(** [(a.attributes && Number(a.attributes.BANDWIDTH)) || 0]. *)
Definition sort_key (a : Playlist) : Z :=
  match attributes a with
  | Some attrs => or_zero (js_Number (BANDWIDTH attrs))
  | None => 0
  end.

(** The comparator [(a, b) => B - A]. *)
Definition by_bandwidth_desc (a b : Playlist) : Z :=
  sort_key b - sort_key a.

(** [playlist.attributes || {}]. *)
Definition no_attributes : Attributes :=
  {| BANDWIDTH := None; RESOLUTION := None; CODECS := None;
     FRAME_RATE := None |}.

(** The [resolution] constant of the loop body. *)
Definition resolution_of (attrs : Attributes) : option string :=
  match RESOLUTION attrs with
  | Some r => Some (render_num P (width r) +:+ "x" +:+ render_num P (height r))
  | None => None
  end.

(** The [title] the loop body computes. *)
Definition quality_title (attrs : Attributes) : string :=
  match resolution_of attrs, RESOLUTION attrs with
  | Some resolution, Some r =>
      if str_truthy resolution then
        let h := number_or_zero (height r) in
        if 1080 <=? h then resolution +:+ " (1080p)"
        else if 720 <=? h then resolution +:+ " (720p)"
        else if 480 <=? h then resolution +:+ " (480p)"
        else resolution
      else
        let bandwidth := number_or_zero (BANDWIDTH attrs) in
        if 5000000 <? bandwidth then "High Quality"
        else if 2000000 <? bandwidth then "Medium Quality"
        else "Low Quality"
  | _, _ =>
      let bandwidth := number_or_zero (BANDWIDTH attrs) in
      if 5000000 <? bandwidth then "High Quality"
      else if 2000000 <? bandwidth then "Medium Quality"
      else "Low Quality"
  end.

(** One iteration of [for (const playlist of sorted)]: the variant pushed,
    or the exception [new URL] raised. *)
Definition quality_of (baseUrl : string) (playlist : Playlist)
    : completion QualityVariant :=
  let attrs := default no_attributes (attributes playlist) in
  let! playlistUrl :=
    match uri playlist with
    | Some u =>
        if str_truthy u && startsWith "http" u then Normal u
        else url_resolve P (uri playlist) baseUrl
    | None => url_resolve P (uri playlist) baseUrl
    end in
  Normal {| q_resolution := resolution_of attrs;
            q_bandwidth := number_or_zero (BANDWIDTH attrs);
            q_codecs := CODECS attrs;
            q_frameRate := FRAME_RATE attrs;
            q_url := playlistUrl;
            q_title := quality_title attrs |}.

(** The whole [for] loop: the first exception ends it. *)
Fixpoint qualities_of (baseUrl : string) (sorted : list Playlist)
    : completion (list QualityVariant) :=
  match sorted with
  | [] => Normal []
  | playlist :: rest =>
      let! q := quality_of baseUrl playlist in
      let! qs := qualities_of baseUrl rest in
      Normal (q :: qs)
  end.

(** [parseHLSMaster(masterPlaylistContent, baseUrl)]: [None] is the [null]
    of the [catch]. *)
Definition parseHLSMaster (masterPlaylistContent baseUrl : string)
    : option HLSManifest :=
  let body :=
    let! manifest := m3u8_parse P masterPlaylistContent in
    let! qualities :=
      match manifest with
      | Some {| playlists := Some (p :: ps) |} =>
          qualities_of baseUrl (js_sort by_bandwidth_desc (p :: ps))
      | _ => Normal []
      end in
    Normal {| masterUrl := baseUrl; qualities := qualities |} in
  match body with
  | Normal r => Some r
  | Throw _ => None
  end.

(** [fetchAndParseHLS(url)]. *)
Definition fetchAndParseHLS (url : string) : M (option HLSManifest) :=
  try_catch
    (let* resp := fetchWithTimeout url 1 in
     if negb (ok resp) then ret None
     else
       let* content := lift (text resp) in
       if negb (str_truthy content) then ret None
       else if negb (includes "#EXT-X-STREAM-INF" content) then ret None
       else ret (parseHLSMaster content url))
    (fun _ => ret None).
End WithPlatform.
End HlsUtils.

(** ** extractor.js *)

Module Extractor.

Definition SOURCE_URL : string := "https://vidsrc.xyz/embed".

Definition DEFAULT_DOMAIN : string := "https://cloudnestra.com".

(** What [getObject] returns; [arr[k]] is [undefined] past the end. *)
Record MediaObject : Type := {
  obj_id : option string;
  season : option string;
  episode : option string
}.

(** [getObject(id)], [id] a string. *)
Definition getObject (id : string) : MediaObject :=
  let arr := str_split ":" (str_or id "") in
  {| obj_id := arr !! 0%nat; season := arr !! 1%nat; episode := arr !! 2%nat |}.

(** [getUrl(id, type)]. *)
Definition getUrl (id type : string) : string :=
  if String.eqb type "movie" then SOURCE_URL +:+ "/movie/" +:+ id
  else
    let obj := getObject id in
    SOURCE_URL +:+ "/tv/" +:+ render_str (obj_id obj) +:+ "/" +:+
    render_str (season obj) +:+ "-" +:+ render_str (episode obj).

(** The state of [mapWithConcurrencyLimit]: the shared counter [i], the
    shared [results] array, and per worker the index whose [fn] call it
    awaits ([None] once its [while] loop has ended). *)
Record pool (V : Type) : Type := {
  next_index : nat;
  results : js_array V;
  workers : list (option nat)
}.
Arguments next_index {V} _.
Arguments results {V} _.
Arguments workers {V} _.

(** The head of a worker's loop: [while (i < items.length) { idx = i++ ... ]. *)
Definition claim (n i : nat) : option nat * nat :=
  if (i <? n)%nat then (Some i, S i) else (None, i).

(** [new Array(limit).fill(0).map(async () => ...)]: each worker in turn
    runs up to its first [await]. *)
Fixpoint start_workers (n limit i : nat) : list (option nat) * nat :=
  match limit with
  | O => ([], i)
  | S limit' =>
      let '(w, i') := claim n i in
      let '(ws, i'') := start_workers n limit' i' in
      (w :: ws, i'')
  end.

(** The workers that await a call, as (worker, index) pairs. *)
Fixpoint awaiting_from (w : nat) (ws : list (option nat)) : list (nat * nat) :=
  match ws with
  | [] => []
  | Some idx :: ws' => (w, idx) :: awaiting_from (S w) ws'
  | None :: ws' => awaiting_from (S w) ws'
  end.

Definition awaiting (ws : list (option nat)) : list (nat * nat) :=
  awaiting_from 0 ws.

(** The scheduler's choice among the pending calls. *)
Definition pick (choice : nat) (ws : list (option nat)) : option (nat * nat) :=
  let pending := awaiting ws in
  pending !! (choice mod length pending)%nat.

(** [results[idx] = await fn(items[idx], idx)] or, in the [catch],
    [results[idx] = null]. *)
Definition settled_value {V} (null : V) (c : completion V) : V :=
  match c with
  | Normal v => v
  | Throw _ => null
  end.

Section Limiter.
Context {A V : Type}.
Context (items : list A) (fn : option A -> nat -> M V) (null : V).

(** One turn of the event loop: the chosen pending call settles, its
    worker stores the outcome and goes round its loop. [None] when no call
    is pending. The effects of a call are placed where it settles, all
    together: the history records which calls are made, on which item and
    index, and what each of them does, but not how the events of calls
    that are pending at the same time interleave. *)
Definition settle (choice : nat) (p : pool V) (t : trace)
    : option (pool V * trace) :=
  match pick choice (workers p) with
  | None => None
  | Some (w, idx) =>
      let '(c, t') := fn (items !! idx) idx t in
      let '(w', i') := claim (length items) (next_index p) in
      Some ({| next_index := i';
               results := js_array_set (results p) idx (settled_value null c);
               workers := <[w := w']> (workers p) |}, t')
  end.

(** [await Promise.all(workers)]: turns of the event loop until no call is
    pending. [sched] is the completion order, [fuel] bounds the turns. *)
Fixpoint run_pool (fuel : nat) (sched : nat -> nat) (p : pool V) (t : trace)
    : pool V * trace :=
  match fuel with
  | O => (p, t)
  | S fuel' =>
      match settle (sched 0%nat) p t with
      | None => (p, t)
      | Some (p', t') => run_pool fuel' (fun k => sched (S k)) p' t'
      end
  end.

(** [mapWithConcurrencyLimit(items, fn, limit)]. Every turn settles one of
    the [length items] calls, so that many turns are allowed. *)
Definition mapWithConcurrencyLimit (sched : nat -> nat) (limit : nat)
    : M (js_array V) :=
  fun t =>
    let '(ws, i) := start_workers (length items) limit 0 in
    let '(p, t') :=
      run_pool (length items) sched
               {| next_index := i; results := []; workers := ws |} t in
    (Normal (results p), t').
End Limiter.

Section WithPlatform.
Context (P : Platform).

(** [fetchWithTimeout(url, options, timeoutMs, retries)], back-off base
    200 ms. *)
Definition fetchWithTimeout (url : string) (retries : nat) : M Response :=
  fetchWithTimeout_with P 200 url retries.

(** The [try] around [new URL(full).origin] in [serversLoad]. *)
Definition infer_base_domain (iframeSrc : string) : string :=
  if str_truthy iframeSrc then
    let full :=
      if startsWith "//" iframeSrc then "https:" +:+ iframeSrc
      else iframeSrc in
    match url_origin P full with
    | Normal origin => origin
    | Throw _ => DEFAULT_DOMAIN
    end
  else DEFAULT_DOMAIN.

(** The body of the [each] callback: the entry pushed, or nothing when
    the element's extraction threw. *)
Definition server_of (el : server_element) : option ServerEntry :=
  match (let! txt := el_text el in
         let! hash := el_data_hash el in
         Normal {| name := trim P txt;
                   dataHash := match hash with
                               | Some h => if str_truthy h then Some h else None
                               | None => None
                               end |}) with
  | Normal entry => Some entry
  | Throw _ => None
  end.

Definition default_load : ServersLoad :=
  {| servers := []; title := ""; baseDomain := DEFAULT_DOMAIN |}.

(** [serversLoad(html)]. *)
Definition serversLoad (html : string) : M ServersLoad :=
  try_catch
    (lift
       (let! doc := cheerio_load P (str_or html "") in
        let! raw_title := title_text doc in
        let title := trim P (str_or raw_title "") in
        let! src := iframe_src doc in
        let iframeSrc := opt_str_or src "" in
        let baseDomain := infer_base_domain iframeSrc in
        let! elements := server_elements doc in
        Normal {| servers := omap server_of elements;
                  title := title;
                  baseDomain := baseDomain |}))
    (fun _ => ret default_load).

(** [PRORCPhandler(baseDomain, prorcp)]. *)
Definition PRORCPhandler (baseDomain prorcp : string) : M (option string) :=
  if negb (str_truthy prorcp) then ret None
  else
    try_catch
      (let url := baseDomain +:+ "/prorcp/" +:+ prorcp in
       let* resp := fetchWithTimeout url 1 in
       if negb (ok resp) then ret None
       else
         let* text := lift (text resp) in
         match match_file P text with
         | Some m1 => if str_truthy m1 then ret (Some m1) else ret None
         | None => ret None
         end)
      (fun _ => ret None).

(** [rcpGrabber(html)]. *)
Definition rcpGrabber (html : string) : M (option RcpResult) :=
  match match_src P (str_or html "") with
  | None => ret None
  | Some m1 => ret (Some {| metadata := {| image := "" |}; data := m1 |})
  end.

(** The callback [getStreamContent] maps over the servers. *)
Definition rcp_task (baseDomain : string) (srv : option ServerEntry)
    (idx : nat) : M (option RcpResult) :=
  match srv with
  | Some {| dataHash := Some hash |} =>
      if negb (str_truthy hash) then ret None
      else
        try_catch
          (let* rcpResp :=
             fetchWithTimeout (baseDomain +:+ "/rcp/" +:+ hash) 2 in
           if negb (ok rcpResp) then ret None
           else
             let* txt := lift (text rcpResp) in
             rcpGrabber txt)
          (fun _ => ret None)
  | _ => ret None
  end.

(** One iteration of [for (const item of rcpResponses)]: the
    [apiResponse] it leaves. A hole reads as [undefined]. *)
Definition process_item (id title baseDomain : string)
    (apiResponse : list StreamResult) (slot : option (option RcpResult))
    : M (list StreamResult) :=
  match slot with
  | Some (Some item) =>
      try_catch
        (if startsWith "/prorcp/" (str_or (data item) "") then
           let* streamUrl :=
             PRORCPhandler baseDomain
                           (str_replace "/prorcp/" "" (data item)) in
           match streamUrl with
           | Some stream =>
               if negb (str_truthy stream) then ret apiResponse
               else
                 let* hlsData := HlsUtils.fetchAndParseHLS P stream in
                 ret (apiResponse ++
                      [{| sr_name := title;
                          sr_image := image (metadata item);
                          sr_mediaId := id;
                          sr_stream := stream;
                          sr_referer := baseDomain;
                          sr_hlsData := hlsData |}])
           | None => ret apiResponse
           end
         else ret apiResponse)
        (fun _ => ret apiResponse)
  | _ => ret apiResponse
  end.

Fixpoint process_items (id title baseDomain : string)
    (apiResponse : list StreamResult)
    (rcpResponses : js_array (option RcpResult)) : M (list StreamResult) :=
  match rcpResponses with
  | [] => ret apiResponse
  | slot :: rest =>
      let* apiResponse' := process_item id title baseDomain apiResponse slot in
      process_items id title baseDomain apiResponse' rest
  end.

(** What the first [try] of [getStreamContent] leaves. *)
Inductive embed_fetch : Type :=
| EmbedReturn (result : list StreamResult)   (* [return []] *)
| EmbedText (embedText : string).

(** [getStreamContent(id, type)]; [sched] is the order in which the rcp
    calls complete. *)
Definition getStreamContent (sched : nat -> nat) (id type : string)
    : M (list StreamResult) :=
  let url := getUrl id type in
  let* embed :=
    try_catch
      (let* embedResp := fetchWithTimeout url 2 in
       if negb (ok embedResp) then ret (EmbedReturn [])
       else
         let* embedText := lift (text embedResp) in
         ret (EmbedText embedText))
      (fun _ => ret (EmbedReturn [])) in
  match embed with
  | EmbedReturn result => ret result
  | EmbedText embedText =>
      let* loaded := serversLoad embedText in
      match servers loaded with
      | [] => ret []
      | _ :: _ =>
          let* rcpResponses :=
            mapWithConcurrencyLimit (servers loaded)
                                    (rcp_task (baseDomain loaded))
                                    None sched 4 in
          process_items id (title loaded) (baseDomain loaded) []
                        rcpResponses
      end
  end.
End WithPlatform.
End Extractor.

(** ** extractor.js: request headers *)

Module Headers.

Definition USER_AGENTS : list string :=
  [ "Mozilla/5.0 (Windows NT 10.0; Win64; x64) AppleWebKit/537.36 (KHTML, like Gecko) Chrome/128.0.0.0 Safari/537.36";
    "Mozilla/5.0 (Macintosh; Intel Mac OS X 10_15_7) AppleWebKit/605.1.15 (KHTML, like Gecko) Version/17.6 Safari/605.1.15";
    "Mozilla/5.0 (X11; Linux x86_64) AppleWebKit/537.36 (KHTML, like Gecko) Chrome/128.0.0.0 Safari/537.36";
    "Mozilla/5.0 (Windows NT 10.0; Win64; x64; rv:129.0) Gecko/20100101 Firefox/129.0" ].

(** A value of [Math.random()]: the number [numerator / 2 ^ exponent], as
    every double is. *)
Record random_draw : Type := {
  numerator : Z;
  exponent : nat
}.

(** [Math.floor(r * USER_AGENTS.length)]. The length is 4, so the product
    is exact in double arithmetic and the floor is the integer quotient. *)
Definition random_index (r : random_draw) : Z :=
  (numerator r * Z.of_nat (length USER_AGENTS)) / 2 ^ Z.of_nat (exponent r).

(** [arr[i]] for a number [i] that is an integer. *)
Definition js_index {X} (arr : list X) (i : Z) : option X :=
  if i <? 0 then None else arr !! Z.to_nat i.

(** [getRandomUserAgent()], given what [Math.random()] returns. *)
Definition getRandomUserAgent (r : random_draw) : option string :=
  js_index USER_AGENTS (random_index r).

Record RequestHeaders : Type := {
  Accept : string;
  Accept_Language : string;
  User_Agent : option string;
  Referer : string;
  Referrer_Policy : string
}.

(** [getRandomizedHeaders(baseDomain)], [baseDomain] possibly omitted. *)
Definition getRandomizedHeaders (r : random_draw) (baseDomain : option string)
    : RequestHeaders :=
  let ua := getRandomUserAgent r in
  {| Accept := "*/*";
     Accept_Language := "en-US,en;q=0.9";
     User_Agent := ua;
     Referer := opt_str_or baseDomain "https://cloudnestra.com" +:+ "/";
     Referrer_Policy := "origin" |}.

End Headers.

(** ** addon.js: the stream handler *)

Module Addon.

(** An entry of the [streams] array; [behaviorHints] holds the one flag. *)
Record Stream : Type := {
  st_title : string;
  st_url : string;
  notWebReady : bool
}.

(** The inner loop over [st.hlsData.qualities]: a variant without URL is
    passed over. *)
Fixpoint quality_streams (name : string) (qs : list QualityVariant)
    : list Stream :=
  match qs with
  | [] => []
  | q :: qs' =>
      if negb (str_truthy (q_url q)) then quality_streams name qs'
      else
        {| st_title := str_or name "Unknown" +:+ " - " +:+
                       str_or (q_title q) "Quality";
           st_url := q_url q;
           notWebReady := true |} :: quality_streams name qs'
  end.

(** What one iteration of [for (const st of results)] pushes. *)
Definition streams_of (st : StreamResult) : list Stream :=
  if negb (str_truthy (sr_stream st)) then []
  else
    match sr_hlsData st with
    | Some {| qualities := q :: qs |} =>
        {| st_title := str_or (sr_name st) "Unknown" +:+ " - Auto Quality";
           st_url := sr_stream st;
           notWebReady := true |} :: quality_streams (sr_name st) (q :: qs)
    | _ =>
        [ {| st_title := str_or (sr_name st) "Unknown";
             st_url := sr_stream st;
             notWebReady := true |} ]
    end.

Fixpoint build_streams (results : list StreamResult) : list Stream :=
  match results with
  | [] => []
  | st :: rest => streams_of st ++ build_streams rest
  end.

(** The handler given to [defineStreamHandler]: the [streams] of the object
    it resolves to. *)
Definition streamHandler (P : Platform) (sched : nat -> nat) (id type : string)
    : M (list Stream) :=
  try_catch
    (let* results := Extractor.getStreamContent P sched id type in
     match results with
     | [] => ret []
     | _ :: _ => ret (build_streams results)
     end)
    (fun _ => ret []).

End Addon.

(** ** The serverless entry point (the module that wraps [serveHTTP]) *)

Module Server.

Definition HARD_TIMEOUT_MS : Z := 24000.

(** What the wrapper does to the response object [res]. *)
Inductive res_call : Type :=
| SetStatus (code : Z)              (* [res.statusCode = code] *)
| End (data : option string).       (* [res.end(data)], [res.end()] *)

(** How [res] behaves: whether it has an [on] method, and whether a call of
    [end] throws, given the calls made before it. *)
Record ServerResponse : Type := {
  has_on : bool;
  end_throws : list res_call -> bool
}.

(** The variables the closures of one request share: the [finished] flag,
    whether the hard-timeout timer is still to fire, whether the two
    listeners are installed, and the calls made on [res] so far. *)
Record state : Type := {
  finished : bool;
  timer_armed : bool;
  listening : bool;
  calls : list res_call
}.

(** [safeEnd(statusCode, data)] with a string [data]. *)
Definition safeEnd (res : ServerResponse) (statusCode : Z) (data : string)
    (s : state) : state :=
  if finished s then s
  else
    let attempted := calls s ++ [SetStatus statusCode; End (Some data)] in
    {| finished := true;
       timer_armed := timer_armed s;
       listening := listening s;
       calls := if end_throws res (calls s ++ [SetStatus statusCode])
                then attempted ++ [End None]
                else attempted |}.

(** [clearTimeout(timer)]. *)
Definition clear_timer (s : state) : state :=
  {| finished := finished s; timer_armed := false;
     listening := listening s; calls := calls s |}.

(** The exported function, up to its return: the timer is set, the handler
    is called (it throws or it does not), and the listeners are installed
    when [res.on] exists. *)
Definition start (res : ServerResponse) (handler_throws : bool) : state :=
  let s0 := {| finished := false; timer_armed := true;
               listening := false; calls := [] |} in
  if handler_throws
  then safeEnd res 500 "Internal Server Error" (clear_timer s0)
  else {| finished := false; timer_armed := true;
          listening := has_on res; calls := [] |}.

(** What can happen afterwards. The timer fires at most once and not after
    [clearTimeout]; [finish] and [close] reach the wrapper only through its
    listeners. An event that cannot happen leaves the state as it is. *)
Inductive event : Type :=
| TimerFires
| Finish
| Close.

Definition step (res : ServerResponse) (s : state) (e : event) : state :=
  match e with
  | TimerFires =>
      if timer_armed s
      then safeEnd res 504 "Gateway Timeout" (clear_timer s)
      else s
  | Finish | Close =>
      if listening s
      then {| finished := true; timer_armed := false;
              listening := listening s; calls := calls s |}
      else s
  end.

Definition run (res : ServerResponse) (handler_throws : bool)
    (events : list event) : state :=
  fold_left (step res) events (start res handler_throws).

(** The responses the wrapper has sent: its calls of [end] with a body. *)
Fixpoint bodies (cs : list res_call) : list string :=
  match cs with
  | [] => []
  | End (Some data) :: cs' => data :: bodies cs'
  | _ :: cs' => bodies cs'
  end.

End Server.

(** ** A concrete platform

    One embed page with two servers; the first resolves through
    [/prorcp/abc123] to a master playlist with two variants, the second
    points away from the player pages. It is the scenario the examples below
    run the pipeline on. *)

Module Demo.

Definition respond (body : string) : fetch_result :=
  Fulfilled (Some {| ok := true; status := 200; text := Normal body |}).

Definition status_only (code : Z) : fetch_result :=
  Fulfilled (Some {| ok := false; status := code; text := Normal "" |}).

Definition demo_net (t : trace) (url : string) : fetch_result :=
  if String.eqb url "https://vidsrc.xyz/embed/movie/tt1" then respond "EMBED"
  else if String.eqb url "https://cloudnestra.com/rcp/h1" then respond "RCP1"
  else if String.eqb url "https://cloudnestra.com/rcp/h2" then respond "RCP2"
  else if String.eqb url "https://cloudnestra.com/prorcp/abc123" then respond "PLAYER"
  else if String.eqb url "https://x/master.m3u8" then respond "#EXT-X-STREAM-INF"
  else Rejected (ExnError "fetch failed").

Definition broken_element : server_element :=
  {| el_text := Throw (ExnError "malformed element");
     el_data_hash := Normal (Some "h0") |}.

Definition demo_document : document :=
  {| title_text := Normal "Demo";
     iframe_src := Normal None;
     server_elements :=
       Normal [ {| el_text := Normal "One"; el_data_hash := Normal (Some "h1") |};
                broken_element;
                {| el_text := Normal "Two"; el_data_hash := Normal (Some "h2") |} ] |}.

Definition variant (bandwidth : option jsnum) (res : option Resolution)
    (u : string) : Playlist :=
  {| uri := Some u;
     attributes := Some {| BANDWIDTH := bandwidth; RESOLUTION := res;
                           CODECS := None; FRAME_RATE := None |} |}.

Definition demo_manifest : Manifest :=
  {| playlists :=
       Some [ variant (Some (Num 1500000)) None "https://x/low.m3u8";
              variant (Some (Num 6000000)) None "https://x/high.m3u8" ] |}.

Definition demo : Platform :=
  {| net := demo_net;
     cheerio_load := fun _ => Normal demo_document;
     url_origin := fun s => Normal s;
     url_resolve := fun u base => Normal (base +:+ "/" +:+ render_str u);
     m3u8_parse := fun _ => Normal (Some demo_manifest);
     match_src := fun s => if String.eqb s "RCP1" then Some "/prorcp/abc123"
                           else if String.eqb s "RCP2" then Some "/other/xyz"
                           else None;
     match_file := fun s => if String.eqb s "PLAYER" then Some "https://x/master.m3u8"
                            else None;
     trim := fun s => s;
     number_to_string := fun n => pretty n |}.

(** The same platform behind a network that answers every request with
    the same status, without a body. *)
Definition always_status (code : Z) : Platform :=
  {| net := fun _ _ => status_only code;
     cheerio_load := cheerio_load demo;
     url_origin := url_origin demo;
     url_resolve := url_resolve demo;
     m3u8_parse := m3u8_parse demo;
     match_src := match_src demo;
     match_file := match_file demo;
     trim := trim demo;
     number_to_string := number_to_string demo |}.

Definition always_404 : Platform := always_status 404.

(** A network without connectivity: every request is rejected. *)
Definition offline : Platform :=
  {| net := fun _ _ => Rejected (ExnError "fetch failed");
     cheerio_load := cheerio_load demo;
     url_origin := url_origin demo;
     url_resolve := url_resolve demo;
     m3u8_parse := m3u8_parse demo;
     match_src := match_src demo;
     match_file := match_file demo;
     trim := trim demo;
     number_to_string := number_to_string demo |}.

(** A platform whose HTML parser rejects every page. *)
Definition no_parser : Platform :=
  {| net := demo_net;
     cheerio_load := fun _ => Throw (ExnError "parse error");
     url_origin := url_origin demo;
     url_resolve := url_resolve demo;
     m3u8_parse := m3u8_parse demo;
     match_src := match_src demo;
     match_file := match_file demo;
     trim := trim demo;
     number_to_string := number_to_string demo |}.

(** A page without servers, and a platform that serves it for [tt2] next
    to the page of [tt1]: what the parser finds depends on the page. *)
Definition empty_document : document :=
  {| title_text := Normal "Nothing here";
     iframe_src := Normal None;
     server_elements := Normal [] |}.

Definition two_pages : Platform :=
  {| net := fun t url =>
              if String.eqb url "https://vidsrc.xyz/embed/movie/tt2"
              then respond "EMPTY" else demo_net t url;
     cheerio_load := fun html => if String.eqb html "EMBED" then Normal demo_document
                                 else Normal empty_document;
     url_origin := url_origin demo;
     url_resolve := url_resolve demo;
     m3u8_parse := m3u8_parse demo;
     match_src := match_src demo;
     match_file := match_file demo;
     trim := trim demo;
     number_to_string := number_to_string demo |}.

(** First come, first served. *)
Definition fifo : nat -> nat := fun _ => 0%nat.

(** A completion order that is not first come, first served: among two or
    four pending calls the last one completes first. *)
Definition out_of_order : nat -> nat := fun _ => 3%nat.

(** A task that rejects on the item 2 and multiplies the others by ten. *)
Definition tenfold (item : option nat) (idx : nat) : M nat :=
  match item with
  | Some 2%nat => throw (ExnError "two")
  | Some k => ret (10 * k)%nat
  | None => throw (ExnError "no item")
  end.

Definition full_hd : Attributes :=
  {| BANDWIDTH := Some (Num 8000000);
     RESOLUTION := Some {| width := Some (Num 1920); height := Some (Num 1080) |};
     CODECS := None; FRAME_RATE := None |}.

(** A manifest whose only playlist has a relative URI, behind a [URL]
    constructor that rejects everything. *)
Definition relative_manifest : Manifest :=
  {| playlists := Some [ variant (Some (Num 800000)) None "low/index.m3u8" ] |}.

Definition no_resolver : Platform :=
  {| net := demo_net;
     cheerio_load := cheerio_load demo;
     url_origin := url_origin demo;
     url_resolve := fun _ _ => Throw (ExnError "Invalid URL");
     m3u8_parse := fun _ => Normal (Some relative_manifest);
     match_src := match_src demo;
     match_file := match_file demo;
     trim := trim demo;
     number_to_string := number_to_string demo |}.

(** A manifest with two playlists of the same bandwidth around a better
    one. *)
Definition tied_manifest : Manifest :=
  {| playlists :=
       Some [ variant (Some (Num 3000000)) None "https://x/a.m3u8";
              variant (Some (Num 5000000)) None "https://x/b.m3u8";
              variant (Some (Num 3000000)) None "https://x/c.m3u8" ] |}.

Definition tied : Platform :=
  {| net := demo_net;
     cheerio_load := cheerio_load demo;
     url_origin := url_origin demo;
     url_resolve := url_resolve demo;
     m3u8_parse := fun _ => Normal (Some tied_manifest);
     match_src := match_src demo;
     match_file := match_file demo;
     trim := trim demo;
     number_to_string := number_to_string demo |}.

End Demo.

(** ** Vocabulary of the statements *)

(** Descending order of a key: [a] may stand before [b]. *)
Definition desc {A} (key : A -> Z) (a b : A) : Prop := key b <= key a.

(** The bandwidth a playlist declares: 0 when the attributes or the
    BANDWIDTH attribute are missing, or when it is not a number. *)
Definition declared_bandwidth (p : Playlist) : Z :=
  match attributes p with
  | Some {| BANDWIDTH := Some (Num z) |} => z
  | _ => 0
  end.

(** The label as the specification words it: the tier alone when a
    resolution is present and its height reaches a threshold. Kept for
    comparison with [HlsUtils.quality_title]. *)
Definition tier_only_title (P : Platform) (attrs : Attributes) : string :=
  match RESOLUTION attrs with
  | Some r =>
      let h := number_or_zero (height r) in
      if 1080 <=? h then "1080p"
      else if 720 <=? h then "720p"
      else if 480 <=? h then "480p"
      else render_num P (width r) +:+ "x" +:+ render_num P (height r)
  | None =>
      let bandwidth := number_or_zero (BANDWIDTH attrs) in
      if 5000000 <? bandwidth then "High Quality"
      else if 2000000 <? bandwidth then "Medium Quality"
      else "Low Quality"
  end.

(** The page does not parse: [cheerio.load] or one of the three top-level
    queries throws. *)
Definition parse_failure (P : Platform) (html : string) : Prop :=
  match cheerio_load P (str_or html "") with
  | Throw _ => True
  | Normal doc =>
      (exists e, title_text doc = Throw e) \/
      (exists e, iframe_src doc = Throw e) \/
      (exists e, server_elements doc = Throw e)
  end.

(** The extraction of a server element throws. *)
Definition extraction_failure (el : server_element) : Prop :=
  (exists e, el_text el = Throw e) \/ (exists e, el_data_hash el = Throw e).

(** A network that answers every request with a client error. *)
Definition always_4xx (P : Platform) : Prop :=
  forall t u, exists r,
    net P t u = Fulfilled (Some r) /\ ok r = false /\ 400 <= status r < 500.

Section LimiterInvariant.
Import Extractor.
Context {A V : Type}.
Context (items : list A) (fn : option A -> nat -> M V) (null : V).

(** Slot [i] holds what the call for item [i] settled to: its value, or
    [null] if it rejected. [t_i] is the history the call ran in. *)
Definition stored (res : js_array V) (i : nat) : Prop :=
  exists t_i : trace,
    res !! i = Some (Some (settled_value null (fst (fn (items !! i) i t_i)))).

(** What holds between two turns of the event loop. *)
Record pool_inv (p : pool V) : Prop := {
  inv_next : (next_index p <= length items)%nat;
  inv_workers : (0 < length (workers p))%nat;
  inv_claimed : forall w idx,
    workers p !! w = Some (Some idx) -> (idx < next_index p)%nat;
  inv_settled : forall i, (i < next_index p)%nat ->
    (exists w, workers p !! w = Some (Some i)) \/ stored (results p) i;
  inv_length : (length (results p) <= next_index p)%nat;
  inv_done : (exists w, workers p !! w = Some None) ->
             next_index p = length items
}.

(** Calls still to settle: the unclaimed items and the pending calls. *)
Definition pending_work (p : pool V) : nat :=
  (length items - next_index p) + length (awaiting (workers p)).

End LimiterInvariant.

(** The back-off sleeps of a trace, in order, and their sum. *)
Fixpoint sleeps (t : trace) : list Z :=
  match t with
  | [] => []
  | EvFetch _ :: t' => sleeps t'
  | EvSleep ms :: t' => ms :: sleeps t'
  end.

Fixpoint total_sleep (t : trace) : Z :=
  match t with
  | [] => 0
  | EvFetch _ :: t' => total_sleep t'
  | EvSleep ms :: t' => ms + total_sleep t'
  end.

(** The events of [left] attempts that all end in the [catch], the first of
    them being attempt number [attempt + 1]: a request, then before every
    further request a sleep of [delay] times the number of the attempt that
    just failed. *)
Fixpoint retry_trace (delay : Z) (url : string) (attempt left : nat) : trace :=
  match left with
  | O => []
  | S O => [EvFetch url]
  | S left' =>
      EvFetch url :: EvSleep (delay * Z.of_nat (S attempt))
        :: retry_trace delay url (S attempt) left'
  end.

(** A network on which every request fails in transport (or times out). *)
Definition always_rejects (P : Platform) : Prop :=
  forall t u, exists e, net P t u = Rejected e.

(** A network that always answers, but never with an ok response and never
    with a client error: 5xx, or a redirect the platform did not follow. *)
Definition always_server_error (P : Platform) : Prop :=
  forall t u, exists r,
    net P t u = Fulfilled (Some r) /\ ok r = false /\
    (status r < 400 \/ 500 <= status r).

(** The playlist's URI is used as it is: it starts with [http]. *)
Definition absolute_uri (p : Playlist) : bool :=
  match uri p with
  | Some u => startsWith "http" u
  | None => false
  end.

(** The playlists of a manifest, none when the field is missing. *)
Definition playlists_of (m : option Manifest) : list Playlist :=
  match m with
  | Some {| playlists := Some ps |} => ps
  | _ => []
  end.

(** The URL the rcp callback requests for a server: none for a missing
    server or a missing (or empty) hash. *)
Definition rcp_url (baseDomain : string) (srv : option ServerEntry)
    : option string :=
  match srv with
  | Some {| dataHash := Some hash |} =>
      if str_truthy hash then Some (baseDomain +:+ "/rcp/" +:+ hash) else None
  | _ => None
  end.

Section LimiterRuns.
Import Extractor.
Context {A V : Type}.
Context (items : list A) (fn : option A -> nat -> M V) (null : V).

(** The pool [k] turns of the event loop after [mapWithConcurrencyLimit]
    has started its workers. *)
Definition pool_after (sched : nat -> nat) (limit k : nat) (t : trace)
    : pool V * trace :=
  let '(ws, i) := start_workers (length items) limit 0 in
  run_pool items fn null k sched
           {| next_index := i; results := []; workers := ws |} t.

(** The history left by the calls for the indices of [order], made one
    after another. *)
Fixpoint run_calls (order : list nat) (t : trace) : trace :=
  match order with
  | [] => t
  | i :: rest => run_calls rest (snd (fn (items !! i) i t))
  end.

(** The indices whose call has not settled yet: the pending ones and the
    unclaimed ones. *)
Definition remaining (p : pool V) : list nat :=
  omap id (workers p) ++ seq (next_index p) (length items - next_index p).

(** A plain loop over [xs], whose first element has index [i]: each call is
    awaited before the next one is made. *)
Fixpoint map_in_order (xs : list A) (i : nat) (t : trace)
    : js_array V * trace :=
  match xs with
  | [] => ([], t)
  | x :: xs' =>
      let '(c, t1) := fn (Some x) i t in
      let '(rs, t2) := map_in_order xs' (S i) t1 in
      (Some (settled_value null c) :: rs, t2)
  end.
End LimiterRuns.

(** A computation that only adds to the history it is given. *)
Definition appends {X} (m : M X) : Prop :=
  forall t, exists added, snd (m t) = t ++ added.

(** What every entry of the list [getStreamContent] returns looks like. *)
Definition entry_of (id name referer : string) (r : StreamResult) : Prop :=
  sr_mediaId r = id /\ sr_name r = name /\ sr_referer r = referer /\
  sr_image r = "" /\ str_truthy (sr_stream r) = true.

(** The servers [serversLoad] finds on a page, none if it were to throw. *)
Definition servers_found (P : Platform) (html : string) (t : trace)
    : list ServerEntry :=
  match fst (Extractor.serversLoad P html t) with
  | Normal loaded => servers loaded
  | Throw _ => []
  end.

(** A computation that makes at most [b] requests. *)
Definition costs {X} (b : nat) (m : M X) : Prop :=
  forall t, (fetch_count (snd (m t)) <= fetch_count t + b)%nat.

(** The number of servers a run of [getStreamContent] finds on the embed
    page it fetches: 0 when it gets no page. *)
Definition servers_on_page (P : Platform) (id type : string) (t : trace) : nat :=
  match Extractor.fetchWithTimeout P (Extractor.getUrl id type) 2 t with
  | (Normal embedResp, t1) =>
      if ok embedResp then
        match text embedResp with
        | Normal embedText => length (servers_found P embedText t1)
        | Throw _ => 0%nat
        end
      else 0%nat
  | (Throw _, _) => 0%nat
  end.

(** * Properties *)

(** ** The pipeline on the concrete platform *)

Example demo_pipeline :
  fst (Extractor.getStreamContent Demo.demo Demo.fifo "tt1" "movie" []) =
  Normal
    [ {| sr_name := "Demo"; sr_image := ""; sr_mediaId := "tt1";
         sr_stream := "https://x/master.m3u8";
         sr_referer := "https://cloudnestra.com";
         sr_hlsData :=
           Some {| masterUrl := "https://x/master.m3u8";
                   qualities :=
                     [ {| q_resolution := None; q_bandwidth := 6000000;
                          q_codecs := None; q_frameRate := None;
                          q_url := "https://x/high.m3u8";
                          q_title := "High Quality" |};
                       {| q_resolution := None; q_bandwidth := 1500000;
                          q_codecs := None; q_frameRate := None;
                          q_url := "https://x/low.m3u8";
                          q_title := "Low Quality" |} ] |} |} ].
Proof. vm_compute. reflexivity. Qed.

Example demo_pipeline_requests :
  requests (snd (Extractor.getStreamContent Demo.demo Demo.fifo "tt1" "movie" [])) =
  [ "https://vidsrc.xyz/embed/movie/tt1";
    "https://cloudnestra.com/rcp/h1";
    "https://cloudnestra.com/rcp/h2";
    "https://cloudnestra.com/prorcp/abc123";
    "https://x/master.m3u8" ].
Proof. vm_compute. reflexivity. Qed.

(** ** Strings *)

Lemma append_cons (a : ascii) (s t : string) :
  String a s +:+ t = String a (s +:+ t).
Proof. reflexivity. Qed.

Lemma append_nil_l (s : string) : "" +:+ s = s.
Proof. reflexivity. Qed.

Lemma append_nil_r (s : string) : s +:+ "" = s.
Proof.
  induction s as [|a s IH]; [reflexivity|].
  now rewrite append_cons, IH.
Qed.

Lemma append_assoc (a b c : string) : (a +:+ b) +:+ c = a +:+ (b +:+ c).
Proof.
  induction a as [|x a IH]; [reflexivity|].
  now rewrite !append_cons, IH.
Qed.

Lemma str_or_empty (s : string) : str_or s "" = s.
Proof. now destruct s. Qed.

Lemma startsWith_append (p s : string) : startsWith p (p +:+ s) = true.
Proof.
  induction p as [|a p IH]; [reflexivity|].
  rewrite append_cons. cbn [startsWith]. now rewrite Ascii.eqb_refl.
Qed.

Lemma str_drop_append (p s : string) : str_drop (String.length p) (p +:+ s) = s.
Proof.
  induction p as [|a p IH]; [reflexivity|].
  rewrite append_cons. cbn [String.length str_drop]. exact IH.
Qed.

(** Removing a prefix with [replace]: the first occurrence is the prefix. *)
Lemma str_replace_prefix (p s : string) : str_replace p "" (p +:+ s) = s.
Proof.
  destruct (p +:+ s) as [|c r] eqn:E.
  - cbn [str_replace]. rewrite <- E at 1. rewrite startsWith_append.
    rewrite append_nil_l. rewrite <- E at 1. apply str_drop_append.
  - cbn [str_replace]. rewrite <- E at 1. rewrite startsWith_append.
    rewrite append_nil_l. rewrite <- E at 1. apply str_drop_append.
Qed.

(** A piece without separator is read up to the next separator. *)
Lemma split_go_piece (sep : ascii) (piece rest cur : string) :
  has_char sep piece = false ->
  split_go sep cur (piece +:+ String sep rest) =
  (cur +:+ piece) :: split_go sep "" rest.
Proof.
  revert cur; induction piece as [|a piece IH]; intros cur Hp.
  - rewrite append_nil_l, append_nil_r. cbn [split_go].
    now rewrite Ascii.eqb_refl.
  - rewrite append_cons. cbn [split_go has_char] in *.
    destruct (Ascii.eqb a sep); [discriminate|].
    rewrite IH by exact Hp. now rewrite append_assoc.
Qed.

Lemma split_go_last (sep : ascii) (piece cur : string) :
  has_char sep piece = false ->
  split_go sep cur piece = [cur +:+ piece].
Proof.
  revert cur; induction piece as [|a piece IH]; intros cur Hp.
  - cbn [split_go]. now rewrite append_nil_r.
  - cbn [split_go has_char] in *.
    destruct (Ascii.eqb a sep); [discriminate|].
    rewrite IH by exact Hp. now rewrite append_assoc.
Qed.

Lemma str_split_one (sep : ascii) (a : string) :
  has_char sep a = false -> str_split sep a = [a].
Proof. intros Ha. unfold str_split. now rewrite split_go_last. Qed.

Lemma str_split_two (sep : ascii) (a b : string) :
  has_char sep a = false -> has_char sep b = false ->
  str_split sep (a +:+ String sep b) = [a; b].
Proof.
  intros Ha Hb. unfold str_split.
  rewrite split_go_piece by exact Ha. now rewrite split_go_last.
Qed.

Lemma str_split_three (sep : ascii) (a b c : string) :
  has_char sep a = false -> has_char sep b = false -> has_char sep c = false ->
  str_split sep (a +:+ String sep (b +:+ String sep c)) = [a; b; c].
Proof.
  intros Ha Hb Hc. unfold str_split.
  rewrite split_go_piece by exact Ha.
  rewrite split_go_piece by exact Hb. now rewrite split_go_last.
Qed.

(** ** [getUrl] *)

Section GetUrl.
Import Extractor.

Lemma getUrl_not_movie (id type : string) :
  type <> "movie" ->
  getUrl id type =
  SOURCE_URL +:+ "/tv/" +:+ render_str (str_split ":" id !! 0%nat) +:+ "/" +:+
  render_str (str_split ":" id !! 1%nat) +:+ "-" +:+
  render_str (str_split ":" id !! 2%nat).
Proof.
  intros Ht. unfold getUrl, getObject.
  apply String.eqb_neq in Ht. rewrite Ht. cbn [obj_id season episode].
  now rewrite str_or_empty.
Qed.

(** C7. A movie id is put after [/movie/] as it is; a series id
    [titleId:season:episode], its three parts free of colons, gives
    [/tv/titleId/season-episode] under the fixed prefix [SOURCE_URL]. *)
Theorem getUrl_movie_and_series (id titleId season episode : string)
    (Htitle : has_char ":" titleId = false)
    (Hseason : has_char ":" season = false)
    (Hepisode : has_char ":" episode = false) :
  getUrl id "movie" = SOURCE_URL +:+ "/movie/" +:+ id /\
  getUrl (titleId +:+ ":" +:+ season +:+ ":" +:+ episode) "series" =
  SOURCE_URL +:+ "/tv/" +:+ titleId +:+ "/" +:+ season +:+ "-" +:+ episode.
Proof.
  split; [reflexivity|].
  rewrite getUrl_not_movie by discriminate.
  change (":" +:+ season +:+ ":" +:+ episode)
    with (String ":" (season +:+ String ":" episode)).
  now rewrite str_split_three.
Qed.

Lemma getUrl_movie_and_series_witness :
  has_char ":" "tt123" = false /\ has_char ":" "1" = false /\
  has_char ":" "2" = false /\
  getUrl "tt0111161" "movie" = "https://vidsrc.xyz/embed/movie/tt0111161" /\
  getUrl "tt123:1:2" "series" = "https://vidsrc.xyz/embed/tv/tt123/1-2".
Proof.
  split; [reflexivity|]. split; [reflexivity|]. split; [reflexivity|].
  apply (getUrl_movie_and_series "tt0111161" "tt123" "1" "2");
    reflexivity.
Defined.

(** C9. Any [type] other than ["movie"] is handled as a series, whatever
    it is: the id is split on colons and its first three parts are put in
    the tv template [/tv/id/season-episode], a part that is missing reading
    [undefined]. So a complete id [a:b:c] gives [/tv/a/b-c], [a:b] gives
    [/tv/a/b-undefined] and [a] alone [/tv/a/undefined-undefined]; the
    function is total (nothing is validated, nothing is raised). *)
Theorem getUrl_type_not_validated (type a b c : string)
    (Htype : type <> "movie")
    (Ha : has_char ":" a = false) (Hb : has_char ":" b = false)
    (Hc : has_char ":" c = false) :
  (forall id,
     getUrl id type =
     SOURCE_URL +:+ "/tv/" +:+ render_str (str_split ":" id !! 0%nat) +:+ "/" +:+
     render_str (str_split ":" id !! 1%nat) +:+ "-" +:+
     render_str (str_split ":" id !! 2%nat)) /\
  (forall id, getUrl id type = getUrl id "series") /\
  getUrl a type = SOURCE_URL +:+ "/tv/" +:+ a +:+ "/undefined-undefined" /\
  getUrl (a +:+ ":" +:+ b) type =
  SOURCE_URL +:+ "/tv/" +:+ a +:+ "/" +:+ b +:+ "-undefined" /\
  getUrl (a +:+ ":" +:+ b +:+ ":" +:+ c) type =
  SOURCE_URL +:+ "/tv/" +:+ a +:+ "/" +:+ b +:+ "-" +:+ c.
Proof.
  split; [|split; [|split; [|split]]].
  - intros id. now apply getUrl_not_movie.
  - intros id. rewrite (getUrl_not_movie id type) by exact Htype.
    now rewrite (getUrl_not_movie id "series") by discriminate.
  - rewrite getUrl_not_movie by exact Htype.
    now rewrite str_split_one.
  - rewrite getUrl_not_movie by exact Htype.
    change (":" +:+ b) with (String ":" b).
    now rewrite str_split_two.
  - rewrite getUrl_not_movie by exact Htype.
    change (":" +:+ b +:+ ":" +:+ c) with (String ":" (b +:+ String ":" c)).
    now rewrite str_split_three.
Qed.

Lemma getUrl_type_not_validated_witness :
  "channel" <> "movie" /\ has_char ":" "tt123" = false /\
  has_char ":" "4" = false /\ has_char ":" "5" = false /\
  getUrl "tt123:4:5" "channel" = "https://vidsrc.xyz/embed/tv/tt123/4-5" /\
  getUrl "tt123:4" "channel" = "https://vidsrc.xyz/embed/tv/tt123/4-undefined" /\
  getUrl "tt123" "channel" = "https://vidsrc.xyz/embed/tv/tt123/undefined-undefined" /\
  getUrl "tt123:4:5" "channel" = getUrl "tt123:4:5" "series".
Proof.
  split; [discriminate|]. split; [reflexivity|]. split; [reflexivity|].
  split; [reflexivity|].
  destruct (getUrl_type_not_validated "channel" "tt123" "4" "5")
    as (_ & H1 & H2 & H3 & H4);
    [discriminate | reflexivity | reflexivity | reflexivity |].
  split; [exact H4|]. split; [exact H3|]. split; [exact H2 | apply H1].
Defined.
End GetUrl.

(** ** Sorting *)

Section SortByKey.
Context {A : Type} (key : A -> Z) (cmp : A -> A -> Z).

(** The comparator orders by descending key, as [(a, b) => B - A]. *)
Hypothesis cmp_key : forall a b, cmp a b = key b - key a.

Lemma sort_insert_perm (x : A) (l : list A) :
  Permutation (sort_insert cmp x l) (x :: l).
Proof.
  induction l as [|y l IH]; cbn [sort_insert]; [reflexivity|].
  destruct (cmp x y <=? 0); [reflexivity|].
  rewrite IH. apply perm_swap.
Qed.

Lemma js_sort_perm (l : list A) : Permutation (js_sort cmp l) l.
Proof.
  induction l as [|x l IH]; cbn [js_sort]; [reflexivity|].
  rewrite sort_insert_perm. now constructor.
Qed.

Lemma sort_insert_sorted (x : A) (l : list A) :
  StronglySorted (desc key) l -> StronglySorted (desc key) (sort_insert cmp x l).
Proof.
  induction 1 as [|y l Hl IH Hy]; cbn [sort_insert].
  - repeat constructor.
  - destruct (Z.leb_spec (cmp x y) 0) as [Hle|Hgt]; rewrite cmp_key in *.
    + constructor; [now constructor|].
      constructor; [unfold desc; lia|].
      eapply Forall_impl; [exact Hy|].
      unfold desc; intros z Hz; lia.
    + constructor; [exact IH|].
      rewrite (sort_insert_perm x l).
      constructor; [unfold desc; lia | exact Hy].
Qed.

Lemma js_sort_sorted (l : list A) : StronglySorted (desc key) (js_sort cmp l).
Proof.
  induction l as [|x l IH]; cbn [js_sort]; [constructor|].
  now apply sort_insert_sorted.
Qed.

(** Equal keys keep their input order: the sort is stable. *)
Lemma sort_insert_front (x : A) (l : list A) :
  Forall (fun y => key y <= key x) l -> sort_insert cmp x l = x :: l.
Proof.
  destruct 1 as [|y l Hy Hl]; cbn [sort_insert]; [reflexivity|].
  rewrite cmp_key. destruct (Z.leb_spec (key y - key x) 0); [reflexivity | lia].
Qed.
End SortByKey.

(** ** [parseHLSMaster] *)

Section ParseHLSMaster.
Import HlsUtils.
Context (P : Platform).

Lemma sort_key_declared (p : Playlist) : sort_key p = declared_bandwidth p.
Proof.
  unfold sort_key, declared_bandwidth.
  destruct (attributes p) as [[[[z|]|] ? ? ?]|]; reflexivity.
Qed.

Lemma quality_of_bandwidth (baseUrl : string) (p : Playlist) (q : QualityVariant) :
  quality_of P baseUrl p = Normal q -> q_bandwidth q = declared_bandwidth p.
Proof.
  unfold quality_of, and_then, declared_bandwidth.
  destruct (match uri p with
            | Some u => if str_truthy u && startsWith "http" u then Normal u
                        else url_resolve P (uri p) baseUrl
            | None => url_resolve P (uri p) baseUrl
            end) as [u|e]; [|discriminate].
  intros [= <-]. cbn [q_bandwidth].
  destruct (attributes p) as [[[[z|]|] ? ? ?]|]; reflexivity.
Qed.

Lemma quality_of_title (baseUrl : string) (p : Playlist) (q : QualityVariant) :
  quality_of P baseUrl p = Normal q ->
  q_title q = quality_title P (default no_attributes (attributes p)).
Proof.
  unfold quality_of, and_then.
  destruct (match uri p with
            | Some u => if str_truthy u && startsWith "http" u then Normal u
                        else url_resolve P (uri p) baseUrl
            | None => url_resolve P (uri p) baseUrl
            end) as [u|e]; [|discriminate].
  now intros [= <-].
Qed.

(** The loop pushes one variant per playlist, in the order of [sorted]. *)
Lemma qualities_of_each (baseUrl : string) (sorted : list Playlist)
    (qs : list QualityVariant) :
  qualities_of P baseUrl sorted = Normal qs ->
  Forall2 (fun p q => quality_of P baseUrl p = Normal q) sorted qs.
Proof.
  revert qs; induction sorted as [|p sorted IH]; intros qs; cbn [qualities_of].
  - intros [= <-]. constructor.
  - unfold and_then at 1.
    destruct (quality_of P baseUrl p) as [q|e] eqn:Eq; [|discriminate].
    unfold and_then at 1.
    destruct (qualities_of P baseUrl sorted) as [qs'|e]; [|discriminate].
    intros [= <-]. constructor; [exact Eq | now apply IH].
Qed.

(** What a non-null result of [parseHLSMaster] is made of. *)
Lemma parseHLSMaster_inv (content baseUrl : string) (hls : HLSManifest) :
  parseHLSMaster P content baseUrl = Some hls ->
  masterUrl hls = baseUrl /\
  exists ps : list Playlist,
    (forall m, m3u8_parse P content = Normal (Some m) ->
               ps = default [] (playlists m)) /\
    Forall2 (fun p q => quality_of P baseUrl p = Normal q)
            (js_sort by_bandwidth_desc ps) (qualities hls).
Proof.
  unfold parseHLSMaster, and_then.
  destruct (m3u8_parse P content) as [[[[[|p ps]|]]|]|e]; try discriminate.
  - intros [= <-]. split; [reflexivity|]. exists [].
    split; [now intros m [= <-]| constructor].
  - destruct (qualities_of P baseUrl (js_sort by_bandwidth_desc (p :: ps)))
      as [qs|e] eqn:Eq; [|discriminate].
    intros [= <-]. split; [reflexivity|]. exists (p :: ps).
    split; [now intros m [= <-]|]. now apply qualities_of_each.
  - intros [= <-]. split; [reflexivity|]. exists [].
    split; [now intros m [= <-]| constructor].
  - intros [= <-]. split; [reflexivity|]. exists [].
    split; [discriminate | constructor].
Qed.

Lemma sorted_transport (ps : list Playlist) (qs : list QualityVariant) :
  Forall2 (fun p q => q_bandwidth q = declared_bandwidth p) ps qs ->
  StronglySorted (desc declared_bandwidth) ps ->
  StronglySorted (desc q_bandwidth) qs.
Proof.
  induction 1 as [|p q ps qs Hpq Hrest IH]; intros Hs; [constructor|].
  apply StronglySorted_inv in Hs as [Hs Hall].
  constructor; [now apply IH|].
  clear IH Hs. induction Hrest as [|p' q' ps qs Hpq' Hrest IH]; [constructor|].
  apply Forall_cons in Hall as [Hp' Hall].
  constructor; [|now apply IH].
  unfold desc in *. lia.
Qed.

(** C4. Whatever manifest text and base URL [parseHLSMaster] is given, a
    non-null result lists its variants by descending bandwidth (ties
    allowed), and these bandwidths are the ones the playlists declare, read
    as 0 when the attribute is missing or not a number. *)
Theorem parseHLSMaster_sorted_desc (content baseUrl : string) (hls : HLSManifest)
    (Hparsed : parseHLSMaster P content baseUrl = Some hls) :
  StronglySorted (fun a b => q_bandwidth b <= q_bandwidth a) (qualities hls) /\
  exists ps : list Playlist,
    (forall m, m3u8_parse P content = Normal (Some m) ->
               Permutation ps (default [] (playlists m))) /\
    Forall2 (fun p q => q_bandwidth q = declared_bandwidth p) ps (qualities hls).
Proof.
  destruct (parseHLSMaster_inv _ _ _ Hparsed) as (_ & ps & Hps & Hall).
  assert (Hbw : Forall2 (fun p q => q_bandwidth q = declared_bandwidth p)
                        (js_sort by_bandwidth_desc ps) (qualities hls)).
  { eapply Forall2_impl; [exact Hall|].
    intros p q Hq. now apply quality_of_bandwidth with baseUrl. }
  assert (Hcmp : forall a b, by_bandwidth_desc a b =
                             declared_bandwidth b - declared_bandwidth a).
  { intros a b. unfold by_bandwidth_desc. now rewrite !sort_key_declared. }
  split.
  - apply (sorted_transport _ _ Hbw).
    apply js_sort_sorted, Hcmp.
  - exists (js_sort by_bandwidth_desc ps). split; [|exact Hbw].
    intros m Hm. rewrite <- (Hps m Hm).
    apply js_sort_perm.
Qed.
End ParseHLSMaster.

Lemma parseHLSMaster_sorted_desc_witness :
  exists hls,
    HlsUtils.parseHLSMaster Demo.demo "#EXT-X-STREAM-INF" "https://x/master.m3u8"
      = Some hls /\
    map q_bandwidth (qualities hls) = [6000000; 1500000] /\
    StronglySorted (fun a b => q_bandwidth b <= q_bandwidth a) (qualities hls).
Proof.
  eexists. split; [reflexivity|]. split; [reflexivity|].
  apply (parseHLSMaster_sorted_desc Demo.demo "#EXT-X-STREAM-INF"
                                    "https://x/master.m3u8").
  reflexivity.
Defined.

(** ** Quality labels *)

Section QualityTitle.
Import HlsUtils.
Context (P : Platform).

Lemma append_truthy (a : string) (c : ascii) (b : string) :
  str_truthy (a +:+ String c b) = true.
Proof. now destruct a. Qed.

(** The label of a variant with a resolution: the resolution string as the
    template literal prints it, followed by the tier in brackets when the
    height reaches one. *)
Lemma quality_title_resolution (attrs : Attributes) (r : Resolution) :
  RESOLUTION attrs = Some r ->
  let resolution := render_num P (width r) +:+ "x" +:+ render_num P (height r) in
  let h := number_or_zero (height r) in
  quality_title P attrs =
  if 1080 <=? h then resolution +:+ " (1080p)"
  else if 720 <=? h then resolution +:+ " (720p)"
  else if 480 <=? h then resolution +:+ " (480p)"
  else resolution.
Proof.
  intros Hr. unfold quality_title, resolution_of. rewrite Hr.
  change ("x" +:+ render_num P (height r)) with (String "x" (render_num P (height r))).
  now rewrite append_truthy.
Qed.

Lemma quality_title_bandwidth (attrs : Attributes) :
  RESOLUTION attrs = None ->
  let bandwidth := number_or_zero (BANDWIDTH attrs) in
  quality_title P attrs =
  if 5000000 <? bandwidth then "High Quality"
  else if 2000000 <? bandwidth then "Medium Quality"
  else "Low Quality".
Proof.
  intros Hr. unfold quality_title, resolution_of. now rewrite Hr.
Qed.

(** C5, as amended. The label of every variant the parser produces: with a
    RESOLUTION attribute it is the resolution string, width and height as
    the template literal prints the two numbers with an [x] between them,
    followed by [ (1080p)], [ (720p)] or [ (480p)] for a height of at least
    1080, 720 or 480, and the bare resolution string below 480; without one
    it is [High Quality] above 5,000,000, [Medium Quality] above 2,000,000
    and [Low Quality] otherwise. *)
Theorem quality_label_rule (baseUrl : string) (playlist : Playlist)
    (q : QualityVariant)
    (Hq : quality_of P baseUrl playlist = Normal q) :
  match RESOLUTION (default no_attributes (attributes playlist)) with
  | Some r =>
      let resolution := render_num P (width r) +:+ "x" +:+ render_num P (height r) in
      let h := number_or_zero (height r) in
      (1080 <= h -> q_title q = resolution +:+ " (1080p)") /\
      (720 <= h < 1080 -> q_title q = resolution +:+ " (720p)") /\
      (480 <= h < 720 -> q_title q = resolution +:+ " (480p)") /\
      (h < 480 -> q_title q = resolution)
  | None =>
      let bandwidth := q_bandwidth q in
      (5000000 < bandwidth -> q_title q = "High Quality") /\
      (2000000 < bandwidth <= 5000000 -> q_title q = "Medium Quality") /\
      (bandwidth <= 2000000 -> q_title q = "Low Quality")
  end.
Proof.
  rewrite (quality_of_title P _ _ _ Hq).
  assert (Hbw : q_bandwidth q =
                number_or_zero (BANDWIDTH (default no_attributes (attributes playlist)))).
  { rewrite (quality_of_bandwidth P _ _ _ Hq). unfold declared_bandwidth.
    destruct (attributes playlist) as [[[[z|]|] ? ? ?]|]; reflexivity. }
  destruct (RESOLUTION (default no_attributes (attributes playlist)))
    as [r|] eqn:Hr.
  - rewrite (quality_title_resolution _ _ Hr). cbv zeta.
    repeat split; intros Hh;
      repeat match goal with
             | |- context [?a <=? ?b] => destruct (Z.leb_spec a b); try lia
             end; reflexivity.
  - rewrite (quality_title_bandwidth _ Hr). cbv zeta. rewrite Hbw.
    repeat split; intros Hb;
      repeat match goal with
             | |- context [?a <? ?b] => destruct (Z.ltb_spec a b); try lia
             end; reflexivity.
Qed.
End QualityTitle.

Lemma quality_label_rule_witness :
  exists q,
    HlsUtils.quality_of Demo.demo "https://x"
      {| uri := Some "https://x/hd.m3u8"; attributes := Some Demo.full_hd |}
      = Normal q /\
    q_title q = "1920x1080 (1080p)".
Proof.
  eexists. split; [reflexivity|].
  pose proof (quality_label_rule Demo.demo "https://x"
                {| uri := Some "https://x/hd.m3u8";
                   attributes := Some Demo.full_hd |} _ eq_refl) as H.
  cbn [attributes default Demo.full_hd RESOLUTION] in H.
  destruct H as [H _]. apply H. vm_compute. discriminate.
Defined.

(** C5, as stated, fails: for a 1920x1080 variant the claim gives the label
    [1080p], the parser gives [1920x1080 (1080p)]. *)
Lemma quality_label_not_tier_only :
  exists q,
    HlsUtils.quality_of Demo.demo "https://x"
      {| uri := Some "https://x/hd.m3u8"; attributes := Some Demo.full_hd |}
      = Normal q /\
    tier_only_title Demo.demo Demo.full_hd = "1080p" /\
    q_title q = "1920x1080 (1080p)" /\
    q_title q <> tier_only_title Demo.demo Demo.full_hd.
Proof.
  eexists. split; [reflexivity|]. split; [reflexivity|].
  split; [reflexivity|]. vm_compute. discriminate.
Qed.

(** ** The resilient fetcher *)

Lemma requests_app (t u : trace) : requests (t ++ u) = requests t ++ requests u.
Proof.
  induction t as [|[url|ms] t IH]; cbn [requests app]; [reflexivity| |exact IH].
  now rewrite IH.
Qed.

Lemma fetch_count_fetch (t : trace) (url : string) :
  fetch_count (t ++ [EvFetch url]) = S (fetch_count t).
Proof.
  unfold fetch_count. rewrite requests_app, length_app. cbn. lia.
Qed.

Lemma fetch_count_sleep (t : trace) (ms : Z) :
  fetch_count (t ++ [EvSleep ms]) = fetch_count t.
Proof.
  unfold fetch_count. rewrite requests_app, length_app. cbn. lia.
Qed.

Section FetcherFacts.
Context (P : Platform) (delay : Z) (url : string) (retries : nat).

(** The loop never asks more often than its variant allows, and asks at
    least once when it is entered. *)
Lemma fetch_attempts_count (left attempt : nat) (lastErr : exn) (t : trace)
    (c : completion Response) (t' : trace) :
  fetch_attempts P delay url retries left attempt lastErr t = (c, t') ->
  (fetch_count t <= fetch_count t' <= fetch_count t + left)%nat /\
  (0 < left -> fetch_count t < fetch_count t')%nat.
Proof.
  revert attempt lastErr t.
  induction left as [|left IH]; intros attempt lastErr t.
  - intros [= <- <-]. lia.
  - cbn [fetch_attempts]. unfold bind at 1, try_catch, bind at 1, fetch.
    destruct (net P t url) as [[r|]|err].
    + destruct (ok r).
      * intros [= <- <-]. rewrite fetch_count_fetch. lia.
      * destruct ((400 <=? status r) && (status r <? 500)).
        -- cbn [throw]. destruct (retries <? S attempt)%nat.
           ++ intros [= <- <-]. rewrite fetch_count_fetch. lia.
           ++ unfold bind, sleep, ret. intros Heq.
              apply IH in Heq.
              rewrite fetch_count_sleep, fetch_count_fetch in Heq. lia.
        -- unfold ret. intros Heq. apply IH in Heq.
           rewrite fetch_count_fetch in Heq. lia.
    + unfold ret. intros Heq. apply IH in Heq.
      rewrite fetch_count_fetch in Heq. lia.
    + destruct (retries <? S attempt)%nat.
      * intros [= <- <-]. rewrite fetch_count_fetch. lia.
      * unfold bind, sleep, ret. intros Heq. apply IH in Heq.
        rewrite fetch_count_sleep, fetch_count_fetch in Heq. lia.
Qed.

(** At most [retries + 1] requests, whatever the network does. *)
Lemma fetchWithTimeout_at_most (t : trace) (c : completion Response) (t' : trace) :
  fetchWithTimeout_with P delay url retries t = (c, t') ->
  (fetch_count t < fetch_count t' <= fetch_count t + S retries)%nat.
Proof.
  unfold fetchWithTimeout_with. intros Heq.
  apply fetch_attempts_count in Heq. lia.
Qed.

(** Against such a network the [throw] of the 4xx branch lands in the
    loop's own [catch]: every pass but the last sleeps and goes round. *)
Lemma fetch_attempts_4xx (left attempt : nat) (lastErr : exn) (t : trace) :
  always_4xx P ->
  (attempt + S left = S retries)%nat ->
  exists e t',
    fetch_attempts P delay url retries (S left) attempt lastErr t = (Throw e, t') /\
    fetch_count t' = (fetch_count t + S left)%nat.
Proof.
  intros Hnet. revert attempt lastErr t.
  induction left as [|left IH]; intros attempt lastErr t Hvar;
    cbn [fetch_attempts]; unfold bind at 1, try_catch, bind at 1, fetch;
    destruct (Hnet t url) as (r & -> & -> & Hs);
    replace ((400 <=? status r) && (status r <? 500)) with true
      by (symmetry; apply andb_true_iff; split;
          [apply Z.leb_le | apply Z.ltb_lt]; lia);
    cbn [throw].
  - replace (retries <? S attempt)%nat with true
      by (symmetry; apply Nat.ltb_lt; lia).
    eexists _, _. split; [reflexivity|]. rewrite fetch_count_fetch. lia.
  - replace (retries <? S attempt)%nat with false
      by (symmetry; apply Nat.ltb_ge; lia).
    unfold bind, sleep, ret.
    destruct (IH (S attempt) (http_error (Some r) url)
                 ((t ++ [EvFetch url]) ++ [EvSleep (delay * Z.of_nat (S attempt))]))
      as (e & t' & Heq & Hcount); [lia|].
    exists e, t'. split; [exact Heq|].
    rewrite Hcount, fetch_count_sleep, fetch_count_fetch. lia.
Qed.

Lemma fetchWithTimeout_4xx (t : trace) :
  always_4xx P ->
  exists e t',
    fetchWithTimeout_with P delay url retries t = (Throw e, t') /\
    fetch_count t' = (fetch_count t + S retries)%nat.
Proof.
  intros Hnet. unfold fetchWithTimeout_with.
  apply fetch_attempts_4xx; [exact Hnet | lia].
Qed.
End FetcherFacts.

Lemma always_404_is_4xx : always_4xx Demo.always_404.
Proof.
  intros t u. eexists. split; [reflexivity|]. split; [reflexivity|]. cbn. lia.
Qed.

(** C1 fails on the code. Against a network that answers 404 every time
    both fetchers use all their attempts: [retries + 1] requests instead of
    the one the claim (and the comment at the [throw]) promise. *)
Theorem fetchWithTimeout_retries_4xx (url : string) (retries : nat) (t : trace) :
  (exists e t',
     Extractor.fetchWithTimeout Demo.always_404 url retries t = (Throw e, t') /\
     fetch_count t' = (fetch_count t + S retries)%nat) /\
  (exists e t',
     HlsUtils.fetchWithTimeout Demo.always_404 url retries t = (Throw e, t') /\
     fetch_count t' = (fetch_count t + S retries)%nat).
Proof.
  split; apply fetchWithTimeout_4xx, always_404_is_4xx.
Qed.

(** The same run, written out: three requests to the same URL with the
    two back-off sleeps between them, then the HTTP error. *)
Example fetchWithTimeout_404_trace :
  Extractor.fetchWithTimeout Demo.always_404 "https://a/b" 2 [] =
  (Throw (ExnError "HTTP 404 for https://a/b"),
   [EvFetch "https://a/b"; EvSleep 200; EvFetch "https://a/b"; EvSleep 400;
    EvFetch "https://a/b"]).
Proof. vm_compute. reflexivity. Qed.

(** A 503 is retried as well, without back-off: the error is kept in
    [lastErr] and thrown after the loop. *)
Example fetchWithTimeout_503_trace :
  Extractor.fetchWithTimeout (Demo.always_status 503) "https://a/b" 2 [] =
  (Throw (ExnError "HTTP 503 for https://a/b"),
   [EvFetch "https://a/b"; EvFetch "https://a/b"; EvFetch "https://a/b"]).
Proof. vm_compute. reflexivity. Qed.

(** ** [serversLoad] *)

Section ServersLoad.
Import Extractor.
Context (P : Platform).

Lemma server_of_failure (el : server_element) :
  extraction_failure el -> server_of P el = None.
Proof.
  unfold server_of, and_then.
  intros [[e He]|[e He]]; rewrite He; [reflexivity|].
  now destruct (el_text el).
Qed.

Lemma server_of_success (el : server_element) (txt : string) (hash : option string) :
  el_text el = Normal txt -> el_data_hash el = Normal hash ->
  exists entry, server_of P el = Some entry /\ name entry = trim P txt.
Proof.
  intros Ht Hh. unfold server_of, and_then. rewrite Ht, Hh.
  eexists. split; reflexivity.
Qed.

Lemma serversLoad_normal (html : string) (t : trace) :
  exists r, serversLoad P html t = (Normal r, t).
Proof.
  unfold serversLoad, try_catch, lift, and_then, ret.
  destruct (cheerio_load P (str_or html "")) as [doc|e]; [|eauto].
  destruct (title_text doc); [|eauto].
  destruct (iframe_src doc); [|eauto].
  destruct (server_elements doc); eauto.
Qed.

Lemma serversLoad_parsed (html : string) (t : trace) (doc : document)
    (raw : string) (src : option string) (elements : list server_element) :
  cheerio_load P (str_or html "") = Normal doc ->
  title_text doc = Normal raw ->
  iframe_src doc = Normal src ->
  server_elements doc = Normal elements ->
  serversLoad P html t =
  (Normal {| servers := omap (server_of P) elements;
             title := trim P (str_or raw "");
             baseDomain := infer_base_domain P (opt_str_or src "") |}, t).
Proof.
  intros Hdoc Htitle Hsrc Hels.
  unfold serversLoad, try_catch, lift, and_then.
  now rewrite Hdoc, Htitle, Hsrc, Hels.
Qed.

(** C6. [serversLoad] returns on every input string and never throws; when
    the page does not parse the result is the default one (no servers,
    empty title, the default base domain); and a server element whose
    extraction throws is left out while the elements before and after it
    are kept. *)
Theorem serversLoad_never_throws (html : string) (t : trace) :
  (exists r, serversLoad P html t = (Normal r, t)) /\
  (parse_failure P html ->
   serversLoad P html t =
   (Normal {| servers := []; title := "";
              baseDomain := "https://cloudnestra.com" |}, t)) /\
  (forall doc raw src before el after,
     cheerio_load P (str_or html "") = Normal doc ->
     title_text doc = Normal raw ->
     iframe_src doc = Normal src ->
     server_elements doc = Normal (before ++ el :: after) ->
     extraction_failure el ->
     exists r,
       serversLoad P html t = (Normal r, t) /\
       servers r = omap (server_of P) before ++ omap (server_of P) after).
Proof.
  split; [apply serversLoad_normal|]. split.
  - unfold parse_failure, serversLoad, try_catch, lift, and_then, ret.
    destruct (cheerio_load P (str_or html "")) as [doc|e]; [|reflexivity].
    intros [[e He]|[[e He]|[e He]]].
    + now rewrite He.
    + rewrite He. now destruct (title_text doc).
    + rewrite He. destruct (title_text doc); [|reflexivity].
      now destruct (iframe_src doc).
  - intros doc raw src before el after Hdoc Htitle Hsrc Hels Hel.
    eexists. split.
    + eapply serversLoad_parsed; eassumption.
    + cbn [servers]. rewrite omap_app. simpl.
      now rewrite (server_of_failure el Hel).
Qed.
End ServersLoad.

Lemma serversLoad_never_throws_witness :
  parse_failure Demo.no_parser "<html>" /\
  Extractor.serversLoad Demo.no_parser "<html>" [] =
  (Normal {| servers := []; title := "";
             baseDomain := "https://cloudnestra.com" |}, []) /\
  extraction_failure Demo.broken_element /\
  exists r,
    Extractor.serversLoad Demo.demo "EMBED" [] = (Normal r, []) /\
    servers r = [ {| name := "One"; dataHash := Some "h1" |};
                  {| name := "Two"; dataHash := Some "h2" |} ].
Proof.
  assert (Hfail : parse_failure Demo.no_parser "<html>") by exact I.
  assert (Hel : extraction_failure Demo.broken_element)
    by (left; eexists; reflexivity).
  split; [exact Hfail|]. split.
  - apply (serversLoad_never_throws Demo.no_parser "<html>" []), Hfail.
  - split; [exact Hel|].
    destruct (serversLoad_never_throws Demo.demo "EMBED" []) as (_ & _ & H).
    destruct (H Demo.demo_document "Demo" None
                [ {| el_text := Normal "One"; el_data_hash := Normal (Some "h1") |} ]
                Demo.broken_element
                [ {| el_text := Normal "Two"; el_data_hash := Normal (Some "h2") |} ]
                eq_refl eq_refl eq_refl eq_refl Hel) as (r & Hr & Hs).
    exists r. split; [exact Hr | exact Hs].
Defined.

(** ** The pipeline *)

Lemma try_catch_ret_total {X} (m : M X) (x : X) (t : trace) :
  exists y t', try_catch m (fun _ => ret x) t = (Normal y, t').
Proof.
  unfold try_catch, ret. destruct (m t) as [[y|e] t']; eauto.
Qed.

Section Pipeline.
Import Extractor.
Context (P : Platform).

Lemma process_item_normal (id title baseDomain : string)
    (apiResponse : list StreamResult) (slot : option (option RcpResult))
    (t : trace) :
  exists l t',
    process_item P id title baseDomain apiResponse slot t = (Normal l, t').
Proof.
  destruct slot as [[item|]|]; cbn [process_item]; unfold ret; eauto.
  apply try_catch_ret_total.
Qed.

Lemma process_items_normal (id title baseDomain : string)
    (rcpResponses : js_array (option RcpResult))
    (apiResponse : list StreamResult) (t : trace) :
  exists l t',
    process_items P id title baseDomain apiResponse rcpResponses t =
    (Normal l, t').
Proof.
  revert apiResponse t.
  induction rcpResponses as [|slot rest IH]; intros apiResponse t;
    cbn [process_items].
  - unfold ret. eauto.
  - unfold bind.
    destruct (process_item_normal id title baseDomain apiResponse slot t)
      as (l & t' & ->).
    apply IH.
Qed.

Lemma process_item_skip (id title baseDomain : string) (item : RcpResult)
    (apiResponse : list StreamResult) (t : trace) :
  startsWith "/prorcp/" (data item) = false ->
  process_item P id title baseDomain apiResponse (Some (Some item)) t =
  (Normal apiResponse, t).
Proof.
  intros Hdata. cbn [process_item]. unfold try_catch.
  now rewrite str_or_empty, Hdata.
Qed.

(** A slot the loop body passes over can be taken out of the array. *)
Lemma process_items_skip (id title baseDomain : string)
    (slot : option (option RcpResult))
    (before after : js_array (option RcpResult))
    (apiResponse : list StreamResult) (t : trace) :
  (forall acc t0,
     process_item P id title baseDomain acc slot t0 = (Normal acc, t0)) ->
  process_items P id title baseDomain apiResponse (before ++ slot :: after) t =
  process_items P id title baseDomain apiResponse (before ++ after) t.
Proof.
  intros Hskip. revert apiResponse t.
  induction before as [|s0 before IH]; intros apiResponse t.
  - cbn [app process_items]. unfold bind. now rewrite Hskip.
  - cbn [app process_items]. unfold bind.
    destruct (process_item P id title baseDomain apiResponse s0 t)
      as [[l|e] t']; [apply IH | reflexivity].
Qed.

(** C8. A non-null rcp result whose data does not start with [/prorcp/] is
    passed over: the iteration leaves the output list as it was and makes
    no request, so the loop over the rcp results ends exactly as it would
    without that result. *)
Theorem non_prorcp_item_skipped (id title baseDomain : string)
    (item : RcpResult)
    (Hdata : startsWith "/prorcp/" (data item) = false)
    (before after : js_array (option RcpResult))
    (apiResponse : list StreamResult) (t : trace) :
  process_item P id title baseDomain apiResponse (Some (Some item)) t =
  (Normal apiResponse, t) /\
  process_items P id title baseDomain apiResponse
                (before ++ Some (Some item) :: after) t =
  process_items P id title baseDomain apiResponse (before ++ after) t.
Proof.
  split; [now apply process_item_skip|].
  apply process_items_skip. intros acc t0. now apply process_item_skip.
Qed.

(** C10. Whatever the base domain, [PRORCPhandler] answers an empty token
    (the only falsy string) with [null] and makes no request; so an rcp
    result whose data is exactly [/prorcp/] adds nothing to the output list
    and the loop over the rcp results ends as it would without it. *)
Theorem PRORCPhandler_empty_token (baseDomain id title : string)
    (md : Metadata) (before after : js_array (option RcpResult))
    (apiResponse : list StreamResult) (t : trace) :
  PRORCPhandler P baseDomain "" t = (Normal None, t) /\
  process_item P id title baseDomain apiResponse
               (Some (Some {| metadata := md; data := "/prorcp/" |})) t =
  (Normal apiResponse, t) /\
  process_items P id title baseDomain apiResponse
                (before ++ Some (Some {| metadata := md; data := "/prorcp/" |})
                        :: after) t =
  process_items P id title baseDomain apiResponse (before ++ after) t.
Proof.
  split; [reflexivity|]. split; [reflexivity|].
  apply process_items_skip. reflexivity.
Qed.

Lemma mapWithConcurrencyLimit_normal {A V} (items : list A)
    (fn : option A -> nat -> M V) (null : V) (sched : nat -> nat)
    (limit : nat) (t : trace) :
  exists r t',
    mapWithConcurrencyLimit items fn null sched limit t = (Normal r, t').
Proof.
  unfold mapWithConcurrencyLimit.
  destruct (start_workers (length items) limit 0) as [ws i].
  destruct (run_pool items fn null (length items) sched _ t) as [p t'].
  eauto.
Qed.

(** C2. For every id and type, every platform (network, page parser,
    manifest parser) and every completion order of the rcp calls,
    [getStreamContent] completes normally with a list; it never throws. *)
Theorem getStreamContent_never_throws (sched : nat -> nat) (id type : string)
    (t : trace) :
  exists (result : list StreamResult) (t' : trace),
    getStreamContent P sched id type t = (Normal result, t').
Proof.
  unfold getStreamContent. unfold bind at 1.
  match goal with
  | |- context [try_catch ?m (fun _ => ret ?x) t] =>
      destruct (try_catch_ret_total m x t) as ([result|embedText] & t1 & ->)
  end.
  - unfold ret. eauto.
  - unfold bind at 1.
    destruct (serversLoad_normal P embedText t1) as (loaded & ->).
    destruct (servers loaded) as [|srv rest] eqn:Hservers.
    + unfold ret. eauto.
    + unfold bind.
      destruct (mapWithConcurrencyLimit_normal (srv :: rest)
                  (rcp_task P (baseDomain loaded)) None sched 4 t1)
        as (rcpResponses & t2 & ->).
      apply process_items_normal.
Qed.

(** The worst case: when the embed page cannot be fetched the result is the
    empty list. *)
Lemma getStreamContent_embed_failure (sched : nat -> nat) (id type : string)
    (t t' : trace) (e : exn) :
  fetchWithTimeout P (getUrl id type) 2 t = (Throw e, t') ->
  getStreamContent P sched id type t = (Normal [], t').
Proof.
  intros Hfetch. unfold getStreamContent, bind, try_catch.
  now rewrite Hfetch.
Qed.

(** No servers, no rcp request. *)
Lemma getStreamContent_no_servers (sched : nat -> nat) (id type : string)
    (t t' : trace) (resp : Response) (embedText : string) (loaded : ServersLoad) :
  fetchWithTimeout P (getUrl id type) 2 t = (Normal resp, t') ->
  ok resp = true -> text resp = Normal embedText ->
  serversLoad P embedText t' = (Normal loaded, t') ->
  servers loaded = [] ->
  getStreamContent P sched id type t = (Normal [], t').
Proof.
  intros Hfetch Hok Htext Hload Hnone.
  unfold getStreamContent, bind, try_catch, lift.
  rewrite Hfetch, Hok. cbn [negb]. rewrite Htext. cbn [ret].
  unfold ret. now rewrite Hload, Hnone.
Qed.
End Pipeline.

Lemma non_prorcp_item_skipped_witness :
  startsWith "/prorcp/" "/other/xyz" = false /\
  Extractor.process_items Demo.demo "tt1" "Demo" "https://cloudnestra.com" []
    [ Some (Some {| metadata := {| image := "" |}; data := "/prorcp/abc123" |});
      Some (Some {| metadata := {| image := "" |}; data := "/other/xyz" |}) ] [] =
  Extractor.process_items Demo.demo "tt1" "Demo" "https://cloudnestra.com" []
    [ Some (Some {| metadata := {| image := "" |}; data := "/prorcp/abc123" |}) ] [].
Proof.
  split; [reflexivity|].
  apply (non_prorcp_item_skipped Demo.demo "tt1" "Demo" "https://cloudnestra.com"
           {| metadata := {| image := "" |}; data := "/other/xyz" |} eq_refl
           [ Some (Some {| metadata := {| image := "" |}; data := "/prorcp/abc123" |}) ]
           [] [] []).
Defined.

(** ** JavaScript array writes *)

Section ArrayWrites.
Context {V : Type}.
Implicit Types (arr : js_array V) (i j : nat) (v x : V).

Lemma js_array_set_length arr i v :
  length (js_array_set arr i v) = Nat.max (length arr) (S i).
Proof.
  unfold js_array_set. destruct (decide (i < length arr)%nat) as [Hlt|Hge].
  - rewrite length_insert. lia.
  - rewrite !length_app, length_replicate. cbn [length]. lia.
Qed.

Lemma js_array_set_lookup_eq arr i v :
  js_array_set arr i v !! i = Some (Some v).
Proof.
  unfold js_array_set. destruct (decide (i < length arr)%nat) as [Hlt|Hge].
  - now apply list_lookup_insert_eq.
  - rewrite lookup_app_r by lia.
    rewrite lookup_app_r by (rewrite length_replicate; lia).
    rewrite length_replicate.
    now replace (i - length arr - (i - length arr))%nat with 0%nat by lia.
Qed.

(** A write leaves the values stored at other indices alone. *)
Lemma js_array_set_lookup_ne arr i j v x :
  i <> j -> arr !! j = Some (Some x) ->
  js_array_set arr i v !! j = Some (Some x).
Proof.
  intros Hne Hj. unfold js_array_set.
  destruct (decide (i < length arr)%nat) as [Hlt|Hge].
  - now rewrite list_lookup_insert_ne.
  - apply lookup_lt_Some in Hj as Hlen. now rewrite lookup_app_l.
Qed.
End ArrayWrites.

(** ** The concurrency limiter *)

Section Workers.
Import Extractor.
Implicit Types (ws : list (option nat)) (w k idx n i : nat).

Lemma awaiting_from_lookup k ws j w idx :
  awaiting_from k ws !! j = Some (w, idx) ->
  exists w', w = (k + w')%nat /\ ws !! w' = Some (Some idx).
Proof.
  revert k j; induction ws as [|[x|] ws IH]; intros k j; cbn [awaiting_from].
  - now rewrite lookup_nil.
  - destruct j as [|j]; cbn [lookup list_lookup].
    + intros [= <- <-]. exists 0%nat. split; [lia | reflexivity].
    + intros Hj. apply IH in Hj as (w' & -> & Hw').
      exists (S w'). split; [lia | exact Hw'].
  - intros Hj. apply IH in Hj as (w' & -> & Hw').
    exists (S w'). split; [lia | exact Hw'].
Qed.

Lemma awaiting_from_nil k ws w x :
  awaiting_from k ws = [] -> ws !! w = Some x -> x = None.
Proof.
  revert k w; induction ws as [|[y|] ws IH]; intros k w; cbn [awaiting_from].
  - now rewrite lookup_nil.
  - discriminate.
  - intros Hnil. destruct w as [|w]; cbn [lookup list_lookup].
    + now intros [= <-].
    + now apply IH with (S k).
Qed.

Lemma awaiting_from_insert_some k ws w idx x :
  ws !! w = Some (Some idx) ->
  length (awaiting_from k (<[w := Some x]> ws)) = length (awaiting_from k ws).
Proof.
  revert k w; induction ws as [|[y|] ws IH]; intros k w.
  - now rewrite lookup_nil.
  - destruct w as [|w]; cbn [lookup list_lookup insert list_insert awaiting_from length].
    + reflexivity.
    + intros Hw. f_equal. now apply IH.
  - destruct w as [|w]; cbn [lookup list_lookup insert list_insert awaiting_from length].
    + discriminate.
    + intros Hw. now apply IH.
Qed.

Lemma awaiting_from_insert_none k ws w idx :
  ws !! w = Some (Some idx) ->
  S (length (awaiting_from k (<[w := None]> ws))) = length (awaiting_from k ws).
Proof.
  revert k w; induction ws as [|[y|] ws IH]; intros k w.
  - now rewrite lookup_nil.
  - destruct w as [|w]; cbn [lookup list_lookup insert list_insert awaiting_from length].
    + reflexivity.
    + intros Hw. f_equal. now apply IH.
  - destruct w as [|w]; cbn [lookup list_lookup insert list_insert awaiting_from length].
    + discriminate.
    + intros Hw. now apply IH.
Qed.

(** The scheduler picks a worker that does await a call, and picks one
    whenever there is one. *)
Lemma pick_Some choice ws w idx :
  Extractor.pick choice ws = Some (w, idx) -> ws !! w = Some (Some idx).
Proof.
  unfold Extractor.pick, Extractor.awaiting. intros Hp.
  apply awaiting_from_lookup in Hp as (w' & -> & Hw'). exact Hw'.
Qed.

Lemma pick_None choice ws :
  Extractor.pick choice ws = None -> Extractor.awaiting ws = [].
Proof.
  unfold Extractor.pick. intros Hp.
  destruct (Extractor.awaiting ws) as [|a pending] eqn:E; [reflexivity|].
  apply lookup_ge_None in Hp.
  pose proof (Nat.mod_upper_bound choice (length (a :: pending))) as Hlt.
  cbn [length] in *. lia.
Qed.

(** What the synchronous start of the workers leaves: [limit] workers, the
    indices from [i] up to the counter claimed in order, and a worker
    already finished only if the items ran out. *)
Lemma start_workers_spec n limit i ws i' :
  Extractor.start_workers n limit i = (ws, i') ->
  (i <= n)%nat ->
  length ws = limit /\ (i <= i' <= n)%nat /\
  (forall w idx, ws !! w = Some (Some idx) -> (i <= idx < i')%nat) /\
  (forall j, (i <= j < i')%nat -> exists w, ws !! w = Some (Some j)) /\
  ((exists w, ws !! w = Some None) -> i' = n) /\
  (forall k, length (awaiting_from k ws) = (i' - i)%nat).
Proof.
  revert i ws i'; induction limit as [|limit IH]; intros i ws i';
    cbn [start_workers].
  - intros [= <- <-] Hi.
    refine (conj _ (conj _ (conj _ (conj _ (conj _ _))))).
    + reflexivity.
    + lia.
    + intros w idx. now rewrite lookup_nil.
    + intros j Hj. lia.
    + intros [w Hw]. now rewrite lookup_nil in Hw.
    + intros k. cbn. lia.
  - unfold claim. destruct (Nat.ltb_spec i n) as [Hlt|Hge].
    + destruct (start_workers n limit (S i)) as [ws0 i0] eqn:E.
      intros [= <- <-] Hi.
      destruct (IH _ _ _ E) as (Hlen & Hrange & Hidx & Hall & Hdone & Hcount);
        [lia|].
      refine (conj _ (conj _ (conj _ (conj _ (conj _ _))))).
      * cbn [length]. lia.
      * lia.
      * intros [|w] idx Hw; cbn [lookup list_lookup] in Hw.
        -- injection Hw as <-. lia.
        -- apply Hidx in Hw. lia.
      * intros j Hj. destruct (decide (j = i)) as [->|Hne].
        -- now exists 0%nat.
        -- destruct (Hall j) as [w Hw]; [lia|]. now exists (S w).
      * intros [[|w] Hw]; cbn [lookup list_lookup] in Hw; [discriminate|].
        apply Hdone. now exists w.
      * intros k. cbn [awaiting_from length]. rewrite Hcount. lia.
    + destruct (start_workers n limit i) as [ws0 i0] eqn:E.
      intros [= <- <-] Hi.
      destruct (IH _ _ _ E) as (Hlen & Hrange & Hidx & Hall & Hdone & Hcount);
        [lia|].
      refine (conj _ (conj _ (conj _ (conj _ (conj _ _))))).
      * cbn [length]. lia.
      * lia.
      * intros [|w] idx Hw; cbn [lookup list_lookup] in Hw; [discriminate|].
        apply Hidx in Hw. lia.
      * intros j Hj. destruct (Hall j) as [w Hw]; [lia|]. now exists (S w).
      * intros _. lia.
      * intros k. cbn [awaiting_from]. now rewrite Hcount.
Qed.
End Workers.

Section LimiterFacts.
Import Extractor.
Context {A V : Type}.
Context (items : list A) (fn : option A -> nat -> M V) (null : V).

Local Abbreviation stored := (stored items fn null).
Local Abbreviation pool_inv := (pool_inv items fn null).
Local Abbreviation pending_work := (pending_work items).

Lemma stored_after_write (res : js_array V) (i idx : nat) (t : trace) :
  i = idx \/ stored res i ->
  stored (js_array_set res idx
            (settled_value null (fst (fn (items !! idx) idx t)))) i.
Proof.
  destruct (decide (idx = i)) as [->|Hne].
  - intros _. exists t. apply js_array_set_lookup_eq.
  - intros [->|[t_i Hi]]; [congruence|].
    exists t_i. now apply js_array_set_lookup_ne.
Qed.

Lemma settle_step (choice : nat) (p p' : pool V) (t t' : trace) :
  pool_inv p -> settle items fn null choice p t = Some (p', t') ->
  pool_inv p' /\ S (pending_work p') = pending_work p.
Proof.
  intros [Hnext Hws Hclaimed Hsettled Hlen Hdone]. unfold settle.
  destruct (pick choice (workers p)) as [[w idx]|] eqn:Hpick; [|discriminate].
  apply pick_Some in Hpick as Hw.
  pose proof (lookup_lt_Some _ _ _ Hw) as Hwlt.
  pose proof (Hclaimed _ _ Hw) as Hidx.
  destruct (fn (items !! idx) idx t) as [c t1] eqn:Hfn.
  replace c with (fst (fn (items !! idx) idx t)) by now rewrite Hfn.
  unfold claim. destruct (Nat.ltb_spec (next_index p) (length items)) as [Hlt|Hge];
    intros [= <- <-]; unfold pending_work; cbn [next_index results workers].
  - split.
    + constructor; cbn [next_index results workers].
      * lia.
      * now rewrite length_insert.
      * intros w0 idx0. destruct (decide (w0 = w)) as [->|Hne].
        -- rewrite list_lookup_insert_eq by exact Hwlt. intros [= <-]. lia.
        -- rewrite list_lookup_insert_ne by congruence.
           intros H0. apply Hclaimed in H0. lia.
      * intros i Hi. destruct (decide (i = next_index p)) as [->|Hne].
        -- left. exists w. now apply list_lookup_insert_eq.
        -- destruct (decide (i = idx)) as [->|Hne'].
           ++ right. apply stored_after_write. now left.
           ++ destruct (Hsettled i) as [[w0 Hw0]|Hst]; [lia| |].
              ** left. exists w0. rewrite list_lookup_insert_ne; [exact Hw0|].
                 intros ->. congruence.
              ** right. apply stored_after_write. now right.
      * rewrite js_array_set_length. lia.
      * intros [w0 Hw0]. exfalso.
        destruct (decide (w0 = w)) as [->|Hne].
        -- rewrite list_lookup_insert_eq in Hw0 by exact Hwlt. discriminate.
        -- rewrite list_lookup_insert_ne in Hw0 by congruence.
           assert (next_index p = length items) by (apply Hdone; eauto). lia.
    + unfold awaiting. rewrite (awaiting_from_insert_some _ _ _ idx) by exact Hw.
      lia.
  - split.
    + constructor; cbn [next_index results workers].
      * lia.
      * now rewrite length_insert.
      * intros w0 idx0. destruct (decide (w0 = w)) as [->|Hne].
        -- rewrite list_lookup_insert_eq by exact Hwlt. discriminate.
        -- rewrite list_lookup_insert_ne by congruence. apply Hclaimed.
      * intros i Hi. destruct (decide (i = idx)) as [->|Hne'].
        -- right. apply stored_after_write. now left.
        -- destruct (Hsettled i) as [[w0 Hw0]|Hst]; [lia| |].
           ++ left. exists w0. rewrite list_lookup_insert_ne; [exact Hw0|].
              intros ->. congruence.
           ++ right. apply stored_after_write. now right.
      * rewrite js_array_set_length. lia.
      * intros _. lia.
    + unfold awaiting.
      pose proof (awaiting_from_insert_none 0 _ _ _ Hw). lia.
Qed.

(** [Promise.all] resolves: after as many turns as there is pending work no
    call is pending any more. *)
Lemma run_pool_done (fuel : nat) (sched : nat -> nat) (p : pool V) (t : trace) :
  pool_inv p -> (pending_work p <= fuel)%nat ->
  pool_inv (fst (run_pool items fn null fuel sched p t)) /\
  awaiting (workers (fst (run_pool items fn null fuel sched p t))) = [].
Proof.
  revert sched p t; induction fuel as [|fuel IH]; intros sched p t Hinv Hwork;
    cbn [run_pool].
  - split; [exact Hinv|]. unfold pending_work in Hwork. cbn [fst].
    destruct (awaiting (workers p)); [reflexivity | cbn [length] in Hwork; lia].
  - destruct (settle items fn null (sched 0%nat) p t) as [[p' t']|] eqn:Hstep.
    + destruct (settle_step _ _ _ _ _ Hinv Hstep) as [Hinv' Hless].
      apply IH; [exact Hinv' | lia].
    + split; [exact Hinv|]. unfold settle in Hstep. cbn [fst].
      destruct (pick (sched 0%nat) (workers p)) as [[w idx]|] eqn:Hpick.
      * destruct (fn (items !! idx) idx t), (claim (length items) (next_index p)).
        discriminate.
      * now apply pick_None in Hpick.
Qed.

(** Once every worker has finished, every slot is filled and there is no
    slot beyond the items. *)
Lemma pool_finished (p : pool V) :
  pool_inv p -> awaiting (workers p) = [] ->
  length (results p) = length items /\
  forall i, (i < length items)%nat -> stored (results p) i.
Proof.
  intros [Hnext Hws Hclaimed Hsettled Hlen Hdone] Hnone.
  assert (Hfin : forall w x, workers p !! w = Some x -> x = None).
  { intros w x. now apply awaiting_from_nil with 0%nat. }
  assert (Hall : next_index p = length items).
  { apply Hdone. destruct (workers p) as [|x ws] eqn:E;
      [cbn [length] in Hws; lia|].
    exists 0%nat. cbn [lookup list_lookup]. f_equal. now apply (Hfin 0%nat). }
  assert (Hst : forall i, (i < length items)%nat -> stored (results p) i).
  { intros i Hi. destruct (Hsettled i) as [[w Hw]|Hst]; [lia| |exact Hst].
    apply Hfin in Hw. discriminate. }
  split; [|exact Hst].
  destruct (length items) as [|n] eqn:En; [lia|].
  destruct (Hst n) as [t_n Hn]; [lia|].
  apply lookup_lt_Some in Hn. lia.
Qed.

End LimiterFacts.


(** With no worker nothing is mapped: the bound on [limit] is needed. *)
Example mapWithConcurrencyLimit_no_worker :
  Extractor.mapWithConcurrencyLimit [1; 2; 3]%nat Demo.tenfold 0%nat Demo.fifo 0 [] =
  (Normal [], []).
Proof. reflexivity. Qed.

(** * Further properties of the code *)

(** ** More on the resilient fetcher *)

Lemma sleeps_app (t u : trace) : sleeps (t ++ u) = sleeps t ++ sleeps u.
Proof.
  induction t as [|[url|ms] t IH]; cbn [sleeps app]; [reflexivity|exact IH|].
  now rewrite IH.
Qed.

Lemma total_sleep_app (t u : trace) :
  total_sleep (t ++ u) = total_sleep t + total_sleep u.
Proof.
  induction t as [|[url|ms] t IH]; cbn [total_sleep app]; [lia|exact IH|].
  rewrite IH. lia.
Qed.

Section FetcherMore.
Context (P : Platform) (delay : Z) (url : string) (retries : nat).

(** One pass of the loop, read off its branches. *)
Lemma fetch_attempts_step (left attempt : nat) (lastErr : exn) (t : trace) :
  fetch_attempts P delay url retries (S left) attempt lastErr t =
  let again e u := fetch_attempts P delay url retries left (S attempt) e u in
  let backoff e :=
    if (retries <? S attempt)%nat then (Throw e, t ++ [EvFetch url])
    else again e ((t ++ [EvFetch url]) ++ [EvSleep (delay * Z.of_nat (S attempt))]) in
  match net P t url with
  | Fulfilled (Some r) =>
      if ok r then (Normal r, t ++ [EvFetch url])
      else if (400 <=? status r) && (status r <? 500)
           then backoff (http_error (Some r) url)
           else again (http_error (Some r) url) (t ++ [EvFetch url])
  | Fulfilled None => again (http_error None url) (t ++ [EvFetch url])
  | Rejected err => backoff err
  end.
Proof.
  cbn [fetch_attempts]. unfold bind at 1, try_catch, bind at 1, fetch.
  cbv zeta.
  destruct (net P t url) as [[r|]|err].
  - destruct (ok r); [reflexivity|].
    destruct ((400 <=? status r) && (status r <? 500)); [|reflexivity].
    cbn [throw]. now destruct (retries <? S attempt)%nat.
  - reflexivity.
  - now destruct (retries <? S attempt)%nat.
Qed.

(** Every request of the loop goes to [url]. *)
Lemma fetch_attempts_requests (left attempt : nat) (lastErr : exn) (t : trace)
    (c : completion Response) (t' : trace) :
  fetch_attempts P delay url retries left attempt lastErr t = (c, t') ->
  exists k : nat, requests t' = requests t ++ replicate k url.
Proof.
  revert attempt lastErr t.
  induction left as [|left IH]; intros attempt lastErr t.
  - intros [= <- <-]. exists 0%nat. cbn [replicate]. now rewrite app_nil_r.
  - assert (Hgo : forall a e u,
              fetch_attempts P delay url retries left a e u = (c, t') ->
              requests u = requests t ++ [url] ->
              exists k : nat, requests t' = requests t ++ replicate k url).
    { intros a e u Heq Hu. apply IH in Heq as [k Hk].
      exists (S k). rewrite Hk, Hu, <- app_assoc. reflexivity. }
    assert (Hone : requests (t ++ [EvFetch url]) = requests t ++ [url])
      by now rewrite requests_app.
    assert (Hstop : exists k : nat,
              requests (t ++ [EvFetch url]) = requests t ++ replicate k url)
      by now exists 1%nat.
    cbn [fetch_attempts]. unfold bind at 1, try_catch, bind at 1, fetch.
    destruct (net P t url) as [[r|]|err].
    + destruct (ok r).
      * now intros [= <- <-].
      * destruct ((400 <=? status r) && (status r <? 500)).
        -- cbn [throw]. destruct (retries <? S attempt)%nat.
           ++ now intros [= <- <-].
           ++ unfold bind, sleep, ret. intros Heq. eapply Hgo; [exact Heq|].
              now rewrite requests_app, Hone, app_nil_r.
        -- unfold ret. intros Heq. eapply Hgo; [exact Heq | exact Hone].
    + unfold ret. intros Heq. eapply Hgo; [exact Heq | exact Hone].
    + destruct (retries <? S attempt)%nat.
      * now intros [= <- <-].
      * unfold bind, sleep, ret. intros Heq. eapply Hgo; [exact Heq|].
        now rewrite requests_app, Hone, app_nil_r.
Qed.

(** A response the loop returns is an ok one, and one the network gave for
    [url]. *)
Lemma fetch_attempts_returns_ok (left attempt : nat) (lastErr : exn) (t : trace)
    (resp : Response) (t' : trace) :
  fetch_attempts P delay url retries left attempt lastErr t = (Normal resp, t') ->
  ok resp = true /\ exists h, net P h url = Fulfilled (Some resp).
Proof.
  revert attempt lastErr t.
  induction left as [|left IH]; intros attempt lastErr t.
  - discriminate.
  - cbn [fetch_attempts]. unfold bind at 1, try_catch, bind at 1, fetch.
    destruct (net P t url) as [[r|]|err] eqn:Hnet.
    + destruct (ok r) eqn:Hok.
      * intros [= <- <-]. split; [exact Hok | now exists t].
      * destruct ((400 <=? status r) && (status r <? 500)).
        -- cbn [throw]. destruct (retries <? S attempt)%nat; [discriminate|].
           unfold bind, sleep, ret. apply IH.
        -- unfold ret. apply IH.
    + unfold ret. apply IH.
    + destruct (retries <? S attempt)%nat; [discriminate|].
      unfold bind, sleep, ret. apply IH.
Qed.

(** The back-off of the remaining attempts: twice its sum is at most
    [delay] times the difference of the two pronic numbers (nothing once
    the attempts are used up). *)
Lemma fetch_attempts_backoff (left attempt : nat) (lastErr : exn) (t : trace)
    (c : completion Response) (t' : trace) :
  0 <= delay ->
  (attempt + left = S retries)%nat ->
  fetch_attempts P delay url retries left attempt lastErr t = (c, t') ->
  total_sleep t <= total_sleep t' /\
  2 * (total_sleep t' - total_sleep t) <=
  delay * Z.max 0 (Z.of_nat retries * (Z.of_nat retries + 1) -
                   Z.of_nat attempt * (Z.of_nat attempt + 1)).
Proof.
  intros Hdelay. revert attempt lastErr t.
  induction left as [|left IH]; intros attempt lastErr t Hvar.
  - intros [= <- <-]. split; [lia|]. nia.
  - assert (Hmax : Z.max 0 (Z.of_nat retries * (Z.of_nat retries + 1) -
                            Z.of_nat attempt * (Z.of_nat attempt + 1)) =
                   Z.of_nat retries * (Z.of_nat retries + 1) -
                   Z.of_nat attempt * (Z.of_nat attempt + 1))
      by (apply Z.max_r; nia).
    rewrite Hmax.
    assert (Hgo : forall e u,
              fetch_attempts P delay url retries left (S attempt) e u = (c, t') ->
              total_sleep u = total_sleep t \/
              (total_sleep u = total_sleep t + delay * Z.of_nat (S attempt) /\
               (S attempt <= retries)%nat) ->
              total_sleep t <= total_sleep t' /\
              2 * (total_sleep t' - total_sleep t) <=
              delay * (Z.of_nat retries * (Z.of_nat retries + 1) -
                       Z.of_nat attempt * (Z.of_nat attempt + 1))).
    { intros e u Heq Hu. apply IH in Heq as [Hmono Hsum]; [|lia].
      destruct (Z.max_spec 0 (Z.of_nat retries * (Z.of_nat retries + 1) -
                              Z.of_nat (S attempt) * (Z.of_nat (S attempt) + 1)))
        as [[Hpos Hm]|[Hneg Hm]]; rewrite Hm in Hsum;
        destruct Hu as [Hu|[Hu Hle]]; (split; [nia|]); nia. }
    assert (Hone : total_sleep (t ++ [EvFetch url]) = total_sleep t)
      by (rewrite total_sleep_app; cbn [total_sleep]; lia).
    assert (Hstop : total_sleep t <= total_sleep (t ++ [EvFetch url]) /\
              2 * (total_sleep (t ++ [EvFetch url]) - total_sleep t) <=
              delay * (Z.of_nat retries * (Z.of_nat retries + 1) -
                       Z.of_nat attempt * (Z.of_nat attempt + 1)))
      by (rewrite Hone; split; [lia | nia]).
    assert (Hslept : forall ms, total_sleep ((t ++ [EvFetch url]) ++ [EvSleep ms])
                                = total_sleep t + ms)
      by (intros ms; rewrite total_sleep_app, Hone; cbn [total_sleep]; lia).
    cbn [fetch_attempts]. unfold bind at 1, try_catch, bind at 1, fetch.
    destruct (net P t url) as [[r|]|err].
    + destruct (ok r).
      * now intros [= <- <-].
      * destruct ((400 <=? status r) && (status r <? 500)).
        -- cbn [throw]. destruct (Nat.ltb_spec retries (S attempt)).
           ++ now intros [= <- <-].
           ++ unfold bind, sleep, ret. intros Heq. eapply Hgo; [exact Heq|].
              right. split; [apply Hslept | lia].
        -- unfold ret. intros Heq. eapply Hgo; [exact Heq | now left].
    + unfold ret. intros Heq. eapply Hgo; [exact Heq | now left].
    + destruct (Nat.ltb_spec retries (S attempt)).
      * now intros [= <- <-].
      * unfold bind, sleep, ret. intros Heq. eapply Hgo; [exact Heq|].
        right. split; [apply Hslept | lia].
Qed.

(** Attempts that all end in the [catch] leave [retry_trace]; the error
    thrown is the one of the last attempt. *)
Lemma fetch_attempts_rejected (left attempt : nat) (lastErr : exn) (t : trace) :
  always_rejects P ->
  (attempt + S left = S retries)%nat ->
  exists e,
    fetch_attempts P delay url retries (S left) attempt lastErr t =
    (Throw e, t ++ retry_trace delay url attempt (S left)) /\
    exists h, net P h url = Rejected e.
Proof.
  intros Hnet. revert attempt lastErr t.
  induction left as [|left IH]; intros attempt lastErr t Hvar;
    rewrite fetch_attempts_step; cbv zeta;
    destruct (Hnet t url) as [err Herr]; rewrite Herr.
  - replace (retries <? S attempt)%nat with true
      by (symmetry; apply Nat.ltb_lt; lia).
    exists err. split; [reflexivity | now exists t].
  - replace (retries <? S attempt)%nat with false
      by (symmetry; apply Nat.ltb_ge; lia).
    destruct (IH (S attempt) err
                 ((t ++ [EvFetch url]) ++ [EvSleep (delay * Z.of_nat (S attempt))]))
      as (e & Heq & Hfrom); [lia|].
    exists e. split; [|exact Hfrom].
    rewrite Heq. f_equal.
    change (retry_trace delay url attempt (S (S left)))
      with (EvFetch url :: EvSleep (delay * Z.of_nat (S attempt))
              :: retry_trace delay url (S attempt) (S left)).
    now rewrite <- !app_assoc.
Qed.

(** Answers that are neither ok nor client errors are retried at once. *)
Lemma fetch_attempts_server_error (left attempt : nat) (lastErr : exn) (t : trace) :
  always_server_error P ->
  exists e,
    fetch_attempts P delay url retries (S left) attempt lastErr t =
    (Throw e, t ++ replicate (S left) (EvFetch url)) /\
    exists h r, net P h url = Fulfilled (Some r) /\ e = http_error (Some r) url.
Proof.
  intros Hnet. revert attempt lastErr t.
  induction left as [|left IH]; intros attempt lastErr t;
    rewrite fetch_attempts_step; cbv zeta;
    destruct (Hnet t url) as (r & Hr & Hok & Hs); rewrite Hr, Hok;
    replace ((400 <=? status r) && (status r <? 500)) with false
      by (symmetry; apply andb_false_iff;
          destruct Hs; [left; apply Z.leb_gt | right; apply Z.ltb_ge]; lia).
  - cbn [fetch_attempts throw replicate]. eexists. split; [reflexivity|].
    now exists t, r.
  - destruct (IH (S attempt) (http_error (Some r) url) (t ++ [EvFetch url]))
      as (e & Heq & Hfrom).
    exists e. split; [|exact Hfrom]. rewrite Heq. f_equal.
    now rewrite <- app_assoc.
Qed.
End FetcherMore.

(** X1. A response [fetchWithTimeout] returns is always an ok one, and one
    the network gave for the requested URL: the [!resp.ok] tests of the
    callers never fire. *)
Theorem fetchWithTimeout_returns_ok (P : Platform) (url : string)
    (retries : nat) (t t' : trace) (resp : Response)
    (Hret : Extractor.fetchWithTimeout P url retries t = (Normal resp, t') \/
            HlsUtils.fetchWithTimeout P url retries t = (Normal resp, t')) :
  ok resp = true /\ exists h, net P h url = Fulfilled (Some resp).
Proof.
  destruct Hret as [Hret|Hret];
    unfold Extractor.fetchWithTimeout, HlsUtils.fetchWithTimeout,
           fetchWithTimeout_with in Hret;
    now apply fetch_attempts_returns_ok in Hret.
Qed.

Lemma fetchWithTimeout_returns_ok_witness :
  exists resp t',
    Extractor.fetchWithTimeout Demo.demo "https://cloudnestra.com/rcp/h1" 2 []
      = (Normal resp, t') /\
    ok resp = true /\ text resp = Normal "RCP1".
Proof.
  eexists _, _. split; [reflexivity|]. split; [|reflexivity].
  eapply (fetchWithTimeout_returns_ok Demo.demo "https://cloudnestra.com/rcp/h1"
            2 []).
  left. reflexivity.
Defined.

(** X2. Whatever the network does, one call of either fetcher makes at
    least one and at most [retries + 1] requests, all of them to the URL it
    was given. *)
Theorem fetchWithTimeout_requests (P : Platform) (url : string)
    (retries : nat) (t : trace) :
  (exists k : nat,
     (1 <= k <= S retries)%nat /\
     requests (snd (Extractor.fetchWithTimeout P url retries t)) =
     requests t ++ replicate k url) /\
  (exists k : nat,
     (1 <= k <= S retries)%nat /\
     requests (snd (HlsUtils.fetchWithTimeout P url retries t)) =
     requests t ++ replicate k url).
Proof.
  split.
  - unfold Extractor.fetchWithTimeout, fetchWithTimeout_with.
    destruct (fetch_attempts P 200 url retries (S retries) 0 ExnNull t)
      as [c t'] eqn:Heq. cbn [snd].
    destruct (fetch_attempts_requests _ _ _ _ _ _ _ _ _ _ Heq) as [k Hk].
    apply fetch_attempts_count in Heq. unfold fetch_count in Heq.
    rewrite Hk, length_app, length_replicate in Heq.
    exists k. split; [lia | exact Hk].
  - unfold HlsUtils.fetchWithTimeout, fetchWithTimeout_with.
    destruct (fetch_attempts P 150 url retries (S retries) 0 ExnNull t)
      as [c t'] eqn:Heq. cbn [snd].
    destruct (fetch_attempts_requests _ _ _ _ _ _ _ _ _ _ Heq) as [k Hk].
    apply fetch_attempts_count in Heq. unfold fetch_count in Heq.
    rewrite Hk, length_app, length_replicate in Heq.
    exists k. split; [lia | exact Hk].
Qed.

(** X3. The time one call spends in back-off sleeps is bounded, whatever
    the network does: at most [100 * retries * (retries + 1)] ms in the
    extractor (600 ms for its two retries) and
    [75 * retries * (retries + 1)] ms for manifests (150 ms for one
    retry). *)
Theorem fetchWithTimeout_backoff_budget (P : Platform) (url : string)
    (retries : nat) (t : trace) :
  let r := Z.of_nat retries in
  0 <= total_sleep (snd (Extractor.fetchWithTimeout P url retries t))
       - total_sleep t <= 100 * r * (r + 1) /\
  0 <= total_sleep (snd (HlsUtils.fetchWithTimeout P url retries t))
       - total_sleep t <= 75 * r * (r + 1).
Proof.
  cbv zeta. split.
  - unfold Extractor.fetchWithTimeout, fetchWithTimeout_with.
    destruct (fetch_attempts P 200 url retries (S retries) 0 ExnNull t)
      as [c t'] eqn:Heq. cbn [snd].
    apply fetch_attempts_backoff in Heq as [Hmono Hsum]; [|lia|lia].
    rewrite Z.max_r in Hsum by nia. nia.
  - unfold HlsUtils.fetchWithTimeout, fetchWithTimeout_with.
    destruct (fetch_attempts P 150 url retries (S retries) 0 ExnNull t)
      as [c t'] eqn:Heq. cbn [snd].
    apply fetch_attempts_backoff in Heq as [Hmono Hsum]; [|lia|lia].
    rewrite Z.max_r in Hsum by nia. nia.
Qed.

(** X4. On a network where every request fails in transport the fetcher
    uses all [retries + 1] attempts with a linear back-off: after the k-th
    failed attempt it sleeps [200 * k] ms ([150 * k] for manifests), and it
    ends by throwing an error the network raised. *)
Theorem fetchWithTimeout_linear_backoff (P : Platform) (url : string)
    (retries : nat) (t : trace) (Hnet : always_rejects P) :
  (exists e,
     Extractor.fetchWithTimeout P url retries t =
     (Throw e, t ++ retry_trace 200 url 0 (S retries)) /\
     exists h, net P h url = Rejected e) /\
  (exists e,
     HlsUtils.fetchWithTimeout P url retries t =
     (Throw e, t ++ retry_trace 150 url 0 (S retries)) /\
     exists h, net P h url = Rejected e).
Proof.
  split; apply fetch_attempts_rejected; (exact Hnet || lia).
Qed.

Lemma offline_rejects : always_rejects Demo.offline.
Proof. intros t u. eexists. reflexivity. Qed.

Lemma fetchWithTimeout_linear_backoff_witness :
  always_rejects Demo.offline /\
  Extractor.fetchWithTimeout Demo.offline "https://a/b" 2 [] =
  (Throw (ExnError "fetch failed"),
   [EvFetch "https://a/b"; EvSleep 200; EvFetch "https://a/b"; EvSleep 400;
    EvFetch "https://a/b"]).
Proof.
  split; [exact offline_rejects|].
  destruct (fetchWithTimeout_linear_backoff Demo.offline "https://a/b" 2 []
              offline_rejects) as [(e & Heq & h & Hh) _].
  rewrite Heq. cbn in Hh. injection Hh as <-. reflexivity.
Defined.

(** X5. An answer that is neither ok nor a 4xx (a 5xx, say) is retried at
    once: the fetcher makes its [retries + 1] requests back to back,
    without any back-off sleep, and throws the HTTP error of an answer it
    got. *)
Theorem fetchWithTimeout_server_error_no_backoff (P : Platform) (url : string)
    (retries : nat) (t : trace) (Hnet : always_server_error P) :
  (exists e,
     Extractor.fetchWithTimeout P url retries t =
     (Throw e, t ++ replicate (S retries) (EvFetch url)) /\
     exists h r, net P h url = Fulfilled (Some r) /\ e = http_error (Some r) url) /\
  (exists e,
     HlsUtils.fetchWithTimeout P url retries t =
     (Throw e, t ++ replicate (S retries) (EvFetch url)) /\
     exists h r, net P h url = Fulfilled (Some r) /\ e = http_error (Some r) url).
Proof.
  split; apply fetch_attempts_server_error; exact Hnet.
Qed.

Lemma always_503_server_error : always_server_error (Demo.always_status 503).
Proof.
  intros t u. eexists. split; [reflexivity|]. split; [reflexivity|].
  right. cbn. lia.
Qed.

Lemma fetchWithTimeout_server_error_no_backoff_witness :
  always_server_error (Demo.always_status 503) /\
  HlsUtils.fetchWithTimeout (Demo.always_status 503) "https://a/b" 1 [] =
  (Throw (ExnError "HTTP 503 for https://a/b"),
   [EvFetch "https://a/b"; EvFetch "https://a/b"]).
Proof.
  split; [exact always_503_server_error|].
  destruct (fetchWithTimeout_server_error_no_backoff (Demo.always_status 503)
              "https://a/b" 1 [] always_503_server_error)
    as [_ (e & Heq & h & r & Hr & He)].
  rewrite Heq. cbn in Hr. injection Hr as <-. rewrite He. reflexivity.
Defined.

(** ** More on [parseHLSMaster] *)

Section SortStable.
Context {A : Type} (key : A -> Z) (cmp : A -> A -> Z).
Hypothesis cmp_key : forall a b, cmp a b = key b - key a.

Lemma sort_insert_filter (k : Z) (x : A) (l : list A) :
  List.filter (fun y => key y =? k) (sort_insert cmp x l) =
  List.filter (fun y => key y =? k) (x :: l).
Proof.
  induction l as [|y l IH]; cbn [sort_insert]; [reflexivity|].
  rewrite cmp_key. destruct (Z.leb_spec (key y - key x) 0) as [Hle|Hgt];
    [reflexivity|].
  cbn [List.filter] in *. rewrite IH.
  destruct (Z.eqb_spec (key y) k) as [Hy|Hy];
    destruct (Z.eqb_spec (key x) k) as [Hx|Hx]; try reflexivity; lia.
Qed.

(** Stability: elements with the same key keep their order. *)
Lemma js_sort_filter (k : Z) (l : list A) :
  List.filter (fun y => key y =? k) (js_sort cmp l) =
  List.filter (fun y => key y =? k) l.
Proof.
  induction l as [|x l IH]; cbn [js_sort]; [reflexivity|].
  rewrite sort_insert_filter. cbn [List.filter]. now rewrite IH.
Qed.
End SortStable.

Section ParseHLSMasterMore.
Import HlsUtils.
Context (P : Platform).

Lemma by_bandwidth_desc_key (a b : Playlist) :
  by_bandwidth_desc a b = declared_bandwidth b - declared_bandwidth a.
Proof. unfold by_bandwidth_desc. now rewrite !sort_key_declared. Qed.

Lemma startsWith_truthy (u : string) :
  str_truthy u && startsWith "http" u = startsWith "http" u.
Proof. now destruct u. Qed.

(** How the loop body completes: with the playlist's own URI when that is
    absolute, else with what [new URL(uri, baseUrl)] gives or throws. *)
Lemma quality_of_cases (baseUrl : string) (p : Playlist) :
  quality_of P baseUrl p =
  let attrs := default no_attributes (attributes p) in
  let variant u :=
    {| q_resolution := resolution_of P attrs;
       q_bandwidth := number_or_zero (BANDWIDTH attrs);
       q_codecs := CODECS attrs;
       q_frameRate := FRAME_RATE attrs;
       q_url := u;
       q_title := quality_title P attrs |} in
  if absolute_uri p then Normal (variant (default "" (uri p)))
  else match url_resolve P (uri p) baseUrl with
       | Normal u => Normal (variant u)
       | Throw e => Throw e
       end.
Proof.
  unfold quality_of, absolute_uri, and_then. cbv zeta.
  destruct (uri p) as [u|]; [|reflexivity].
  rewrite startsWith_truthy. now destruct (startsWith "http" u).
Qed.

Lemma qualities_of_throws (baseUrl : string) (sorted : list Playlist) :
  (exists e, qualities_of P baseUrl sorted = Throw e) <->
  (exists p e, In p sorted /\ quality_of P baseUrl p = Throw e).
Proof.
  induction sorted as [|p sorted IH]; cbn [qualities_of].
  - split; [intros [e He]; discriminate | intros (p & e & [] & _)].
  - unfold and_then at 1.
    destruct (quality_of P baseUrl p) as [q|e0] eqn:Eq.
    + unfold and_then at 1.
      destruct (qualities_of P baseUrl sorted) as [qs|e1].
      * split; [intros [e He]; discriminate|].
        intros (p' & e & [<-|Hin] & Hp'); [congruence|].
        destruct IH as [_ IH]. destruct IH as [e' He']; [eauto | discriminate].
      * split; [|eauto]. intros _.
        destruct IH as [IH _]. destruct IH as (p' & e & Hin & Hp'); [eauto|].
        exists p', e. split; [now right | exact Hp'].
    + split; [|eauto]. intros _. exists p, e0. split; [now left | exact Eq].
Qed.

Lemma parseHLSMaster_unfold (content baseUrl : string) :
  parseHLSMaster P content baseUrl =
  match m3u8_parse P content with
  | Throw _ => None
  | Normal m =>
      match qualities_of P baseUrl (js_sort by_bandwidth_desc (playlists_of m)) with
      | Normal qs => Some {| masterUrl := baseUrl; qualities := qs |}
      | Throw _ => None
      end
  end.
Proof.
  unfold parseHLSMaster, and_then, playlists_of.
  destruct (m3u8_parse P content) as [[[[[|p ps]|]]|]|e]; try reflexivity.
  now destruct (qualities_of P baseUrl (js_sort by_bandwidth_desc (p :: ps))).
Qed.

(** X6. A non-null result of [parseHLSMaster] carries the base URL it was
    given as [masterUrl] and exactly one variant per playlist of the parsed
    manifest: none is dropped, none is added. *)
Theorem parseHLSMaster_one_variant_per_playlist (content baseUrl : string)
    (m : option Manifest) (hls : HLSManifest)
    (Hmanifest : m3u8_parse P content = Normal m)
    (Hparsed : parseHLSMaster P content baseUrl = Some hls) :
  masterUrl hls = baseUrl /\
  length (qualities hls) = length (playlists_of m).
Proof.
  rewrite parseHLSMaster_unfold, Hmanifest in Hparsed.
  destruct (qualities_of P baseUrl (js_sort by_bandwidth_desc (playlists_of m)))
    as [qs|e] eqn:Eq; [|discriminate].
  injection Hparsed as <-. split; [reflexivity|]. cbn [qualities].
  apply qualities_of_each, Forall2_length in Eq. rewrite <- Eq.
  apply Permutation_length, js_sort_perm.
Qed.

(** X7. [parseHLSMaster] is all or nothing: it returns [null] exactly when
    the manifest parser throws or some playlist has a URI that is not
    absolute and that [new URL(uri, baseUrl)] rejects. *)
Theorem parseHLSMaster_null_iff (content baseUrl : string) :
  parseHLSMaster P content baseUrl = None <->
  (exists e, m3u8_parse P content = Throw e) \/
  (exists m p e,
     m3u8_parse P content = Normal m /\ In p (playlists_of m) /\
     absolute_uri p = false /\ url_resolve P (uri p) baseUrl = Throw e).
Proof.
  rewrite parseHLSMaster_unfold.
  destruct (m3u8_parse P content) as [m|e0].
  - destruct (qualities_of P baseUrl (js_sort by_bandwidth_desc (playlists_of m)))
      as [qs|e1] eqn:Eq.
    + split; [discriminate|].
      intros [[e He]|(m' & p & e & [= <-] & Hin & Habs & Hres)]; [discriminate|].
      exfalso.
      assert (Hthrow : exists e', qualities_of P baseUrl
                         (js_sort by_bandwidth_desc (playlists_of m)) = Throw e').
      { apply qualities_of_throws. exists p, e. split.
        - apply (Permutation_in p (Permutation_sym (js_sort_perm _ _))), Hin.
        - rewrite quality_of_cases. cbv zeta. now rewrite Habs, Hres. }
      destruct Hthrow as [e' He']. congruence.
    + split; [|reflexivity]. intros _. right.
      destruct (proj1 (qualities_of_throws _ _) (ex_intro _ e1 Eq))
        as (p & e & Hin & Hp).
      rewrite quality_of_cases in Hp. cbv zeta in Hp.
      destruct (absolute_uri p) eqn:Habs; [discriminate|].
      destruct (url_resolve P (uri p) baseUrl) as [u|e'] eqn:Hres; [discriminate|].
      exists m, p, e'. repeat split; try assumption.
      apply (Permutation_in p (js_sort_perm by_bandwidth_desc (playlists_of m))), Hin.
  - split; [|reflexivity]. intros _. left. now exists e0.
Qed.

(** X8. In a non-null result every variant comes from one playlist of the
    manifest (each playlist used once): it has the playlist's own URI as
    its URL when that starts with [http] and the URI resolved against the
    base URL otherwise, and it carries the playlist's CODECS and FRAME-RATE
    attributes unchanged. *)
Theorem parseHLSMaster_variant_urls (content baseUrl : string)
    (m : option Manifest) (hls : HLSManifest)
    (Hmanifest : m3u8_parse P content = Normal m)
    (Hparsed : parseHLSMaster P content baseUrl = Some hls) :
  exists ps : list Playlist,
    Permutation ps (playlists_of m) /\
    Forall2 (fun p q =>
               (if absolute_uri p then uri p = Some (q_url q)
                else url_resolve P (uri p) baseUrl = Normal (q_url q)) /\
               q_codecs q = CODECS (default no_attributes (attributes p)) /\
               q_frameRate q = FRAME_RATE (default no_attributes (attributes p)))
            ps (qualities hls).
Proof.
  rewrite parseHLSMaster_unfold, Hmanifest in Hparsed.
  destruct (qualities_of P baseUrl (js_sort by_bandwidth_desc (playlists_of m)))
    as [qs|e] eqn:Eq; [|discriminate].
  injection Hparsed as <-. cbn [qualities].
  exists (js_sort by_bandwidth_desc (playlists_of m)).
  split; [apply js_sort_perm|].
  apply qualities_of_each in Eq.
  eapply Forall2_impl; [exact Eq|].
  intros p q Hq. cbv beta in Hq. rewrite quality_of_cases in Hq.
  cbv zeta in Hq. unfold absolute_uri in *.
  destruct (uri p) as [u|].
  - destruct (startsWith "http" u).
    + injection Hq as <-. now repeat split.
    + destruct (url_resolve P (Some u) baseUrl); [|discriminate].
      injection Hq as <-. now repeat split.
  - destruct (url_resolve P None baseUrl); [|discriminate].
    injection Hq as <-. now repeat split.
Qed.

(** X9. The ranking is stable: in a non-null result the variants follow
    the playlists in sorted order, and playlists that declare the same
    bandwidth keep the order they have in the manifest. *)
Theorem parseHLSMaster_stable (content baseUrl : string)
    (m : option Manifest) (hls : HLSManifest)
    (Hmanifest : m3u8_parse P content = Normal m)
    (Hparsed : parseHLSMaster P content baseUrl = Some hls) :
  exists ps : list Playlist,
    Forall2 (fun p q => quality_of P baseUrl p = Normal q) ps (qualities hls) /\
    forall k : Z,
      List.filter (fun p => declared_bandwidth p =? k) ps =
      List.filter (fun p => declared_bandwidth p =? k) (playlists_of m).
Proof.
  rewrite parseHLSMaster_unfold, Hmanifest in Hparsed.
  destruct (qualities_of P baseUrl (js_sort by_bandwidth_desc (playlists_of m)))
    as [qs|e] eqn:Eq; [|discriminate].
  injection Hparsed as <-. cbn [qualities].
  exists (js_sort by_bandwidth_desc (playlists_of m)).
  split; [now apply qualities_of_each|].
  intros k. apply js_sort_filter, by_bandwidth_desc_key.
Qed.
End ParseHLSMasterMore.

Lemma parseHLSMaster_one_variant_per_playlist_witness :
  exists hls,
    HlsUtils.parseHLSMaster Demo.tied "#EXT-X-STREAM-INF" "https://x/m.m3u8"
      = Some hls /\
    masterUrl hls = "https://x/m.m3u8" /\ length (qualities hls) = 3%nat.
Proof.
  eexists. split; [reflexivity|].
  apply (parseHLSMaster_one_variant_per_playlist Demo.tied "#EXT-X-STREAM-INF"
           "https://x/m.m3u8" (Some Demo.tied_manifest)); reflexivity.
Defined.

Lemma parseHLSMaster_null_iff_witness :
  HlsUtils.parseHLSMaster Demo.no_resolver "#EXT-X-STREAM-INF" "https://x/m.m3u8"
  = None.
Proof.
  apply (parseHLSMaster_null_iff Demo.no_resolver). right.
  exists (Some Demo.relative_manifest),
         (Demo.variant (Some (Num 800000)) None "low/index.m3u8"),
         (ExnError "Invalid URL").
  repeat split. now left.
Defined.

Lemma parseHLSMaster_variant_urls_witness :
  exists hls,
    HlsUtils.parseHLSMaster Demo.tied "#EXT-X-STREAM-INF" "https://x/m.m3u8"
      = Some hls /\
    map q_url (qualities hls) =
    ["https://x/b.m3u8"; "https://x/a.m3u8"; "https://x/c.m3u8"] /\
    exists ps,
      Permutation ps (playlists_of (Some Demo.tied_manifest)) /\
      Forall2 (fun p q =>
                 (if absolute_uri p then uri p = Some (q_url q)
                  else url_resolve Demo.tied (uri p) "https://x/m.m3u8"
                       = Normal (q_url q)) /\
                 q_codecs q = CODECS (default HlsUtils.no_attributes (attributes p)) /\
                 q_frameRate q =
                 FRAME_RATE (default HlsUtils.no_attributes (attributes p)))
              ps (qualities hls).
Proof.
  eexists. split; [reflexivity|]. split; [reflexivity|].
  exact (parseHLSMaster_variant_urls Demo.tied "#EXT-X-STREAM-INF"
           "https://x/m.m3u8" (Some Demo.tied_manifest) _ eq_refl eq_refl).
Defined.

Lemma parseHLSMaster_stable_witness :
  exists hls,
    HlsUtils.parseHLSMaster Demo.tied "#EXT-X-STREAM-INF" "https://x/m.m3u8"
      = Some hls /\
    map q_url (qualities hls) =
    ["https://x/b.m3u8"; "https://x/a.m3u8"; "https://x/c.m3u8"] /\
    exists ps,
      Forall2 (fun p q => HlsUtils.quality_of Demo.tied "https://x/m.m3u8" p = Normal q)
              ps (qualities hls) /\
      List.filter (fun p => declared_bandwidth p =? 3000000) ps =
      [ Demo.variant (Some (Num 3000000)) None "https://x/a.m3u8";
        Demo.variant (Some (Num 3000000)) None "https://x/c.m3u8" ].
Proof.
  eexists. split; [reflexivity|]. split; [reflexivity|].
  destruct (parseHLSMaster_stable Demo.tied "#EXT-X-STREAM-INF"
              "https://x/m.m3u8" (Some Demo.tied_manifest) _ eq_refl eq_refl)
    as (ps & Hall & Hstable).
  exists ps. split; [exact Hall|]. now rewrite Hstable.
Defined.

(** ** The resolvers *)

Section Resolvers.
Import Extractor.
Context (P : Platform).

(** Closes the cases in which a resolver answers [null]. *)
Ltac null_answer :=
  split; [reflexivity|];
  split; [lia|];
  split; [first [assumption | cbn [replicate]; now rewrite app_nil_r]|];
  intros ? ?; discriminate.

(** What every call of a fetcher leaves, for either back-off base. *)
Lemma fetchWithTimeout_with_requests (delay : Z) (url : string) (retries : nat)
    (t : trace) (c : completion Response) (t' : trace) :
  fetchWithTimeout_with P delay url retries t = (c, t') ->
  exists k : nat,
    (1 <= k <= S retries)%nat /\ requests t' = requests t ++ replicate k url.
Proof.
  unfold fetchWithTimeout_with. intros Heq.
  destruct (fetch_attempts_requests _ _ _ _ _ _ _ _ _ _ Heq) as [k Hk].
  apply fetch_attempts_count in Heq. unfold fetch_count in Heq.
  rewrite Hk, length_app, length_replicate in Heq.
  exists k. split; [lia | exact Hk].
Qed.

Lemma fetchWithTimeout_with_ok (delay : Z) (url : string) (retries : nat)
    (t : trace) (resp : Response) (t' : trace) :
  fetchWithTimeout_with P delay url retries t = (Normal resp, t') ->
  ok resp = true /\ exists h, net P h url = Fulfilled (Some resp).
Proof. apply fetch_attempts_returns_ok. Qed.

(** X10. [fetchAndParseHLS] never throws and makes one or two requests,
    all to the manifest URL. A non-null result is the parse, with that URL
    as base, of a body the network sent for it in an ok response, and that
    body contains the [#EXT-X-STREAM-INF] marker. *)
Theorem fetchAndParseHLS_contract (url : string) (t : trace) :
  exists (r : option HLSManifest) (t' : trace) (k : nat),
    HlsUtils.fetchAndParseHLS P url t = (Normal r, t') /\
    (1 <= k <= 2)%nat /\
    requests t' = requests t ++ replicate k url /\
    forall hls, r = Some hls ->
      exists h resp content,
        net P h url = Fulfilled (Some resp) /\ ok resp = true /\
        text resp = Normal content /\
        includes "#EXT-X-STREAM-INF" content = true /\
        HlsUtils.parseHLSMaster P content url = Some hls.
Proof.
  unfold HlsUtils.fetchAndParseHLS, HlsUtils.fetchWithTimeout, try_catch, bind.
  destruct (fetchWithTimeout_with P 150 url 1 t) as [[resp|e] t1] eqn:Hfetch;
    destruct (fetchWithTimeout_with_requests _ _ _ _ _ _ Hfetch) as (k & Hk & Hreq).
  - destruct (fetchWithTimeout_with_ok _ _ _ _ _ _ Hfetch) as (Hok & h & Hh).
    rewrite Hok. cbn [negb]. unfold lift.
    destruct (text resp) as [content|e] eqn:Htext.
    + destruct (str_truthy content); cbn [negb];
        [|exists None, t1, k; null_answer].
      destruct (includes "#EXT-X-STREAM-INF" content) eqn:Hmark; cbn [negb];
        [|exists None, t1, k; null_answer].
      unfold ret. eexists _, t1, k. split; [reflexivity|].
      split; [lia|]. split; [exact Hreq|].
      intros hls Hhls. exists h, resp, content.
      split; [exact Hh|]. split; [exact Hok|]. split; [exact Htext|].
      split; [exact Hmark | exact Hhls].
    + exists None, t1, k. null_answer.
  - exists None, t1, k. null_answer.
Qed.

(** X11. [PRORCPhandler] never throws and makes at most two requests, all
    to [baseDomain/prorcp/token]. What it returns is [null] or a non-empty
    string, and a string it returns is what the [file:] pattern captured in
    a body the network sent for that URL in an ok response. *)
Theorem PRORCPhandler_contract (baseDomain prorcp : string) (t : trace) :
  exists (r : option string) (t' : trace) (k : nat),
    PRORCPhandler P baseDomain prorcp t = (Normal r, t') /\
    (k <= 2)%nat /\
    requests t' =
    requests t ++ replicate k (baseDomain +:+ "/prorcp/" +:+ prorcp) /\
    forall s, r = Some s ->
      s <> "" /\
      exists h resp body,
        net P h (baseDomain +:+ "/prorcp/" +:+ prorcp) = Fulfilled (Some resp) /\
        ok resp = true /\ text resp = Normal body /\
        match_file P body = Some s.
Proof.
  unfold PRORCPhandler.
  destruct (str_truthy prorcp); cbn [negb].
  - unfold fetchWithTimeout, try_catch, bind.
    destruct (fetchWithTimeout_with P 200 (baseDomain +:+ "/prorcp/" +:+ prorcp) 1 t)
      as [[resp|e] t1] eqn:Hfetch;
      destruct (fetchWithTimeout_with_requests _ _ _ _ _ _ Hfetch)
        as (k & Hk & Hreq).
    + destruct (fetchWithTimeout_with_ok _ _ _ _ _ _ Hfetch) as (Hok & h & Hh).
      rewrite Hok. cbn [negb]. unfold lift.
      destruct (text resp) as [body|e] eqn:Htext.
      * destruct (match_file P body) as [m1|] eqn:Hm;
          [|exists None, t1, k; null_answer].
        destruct (str_truthy m1) eqn:Hm1;
          [|exists None, t1, k; null_answer].
        exists (Some m1), t1, k. split; [reflexivity|].
        split; [lia|]. split; [exact Hreq|].
        intros s [= <-]. split; [now destruct m1|].
        exists h, resp, body.
        split; [exact Hh|]. split; [exact Hok|]. split; [exact Htext | exact Hm].
      * exists None, t1, k. null_answer.
    + exists None, t1, k. null_answer.
  - exists None, t, 0%nat. null_answer.
Qed.

Lemma rcpGrabber_image (html : string) (t : trace) (item : RcpResult) (t' : trace) :
  rcpGrabber P html t = (Normal (Some item), t') ->
  t' = t /\ image (metadata item) = "" /\
  match_src P (str_or html "") = Some (data item).
Proof.
  unfold rcpGrabber, ret.
  destruct (match_src P (str_or html "")) as [m1|]; [|discriminate].
  now intros [= <- <-].
Qed.

Lemma rcpGrabber_normal (html : string) (t : trace) :
  exists r, rcpGrabber P html t = (Normal r, t).
Proof.
  unfold rcpGrabber, ret. destruct (match_src P (str_or html "")); eauto.
Qed.

(** X12. The rcp callback never throws. For a server without a hash it
    answers [null] without a request; otherwise it makes between one and
    three requests, all to [baseDomain/rcp/hash]. A result it returns has
    an empty image and, as data, what the [src:] pattern captured. *)
Theorem rcp_task_contract (baseDomain : string) (srv : option ServerEntry)
    (idx : nat) (t : trace) :
  exists (r : option RcpResult) (t' : trace),
    rcp_task P baseDomain srv idx t = (Normal r, t') /\
    match rcp_url baseDomain srv with
    | Some url =>
        exists k : nat,
          (1 <= k <= 3)%nat /\ requests t' = requests t ++ replicate k url
    | None => t' = t /\ r = None
    end /\
    forall item, r = Some item ->
      image (metadata item) = "" /\
      exists body, match_src P body = Some (data item).
Proof.
  unfold rcp_task, rcp_url.
  destruct srv as [[nm [hash|]]|];
    [|exists None, t; split; [reflexivity|]; split; [now split|];
      intros ? ?; discriminate
     |exists None, t; split; [reflexivity|]; split; [now split|];
      intros ? ?; discriminate].
  destruct (str_truthy hash); cbn [negb];
    [|exists None, t; split; [reflexivity|]; split; [now split|];
      intros ? ?; discriminate].
  unfold fetchWithTimeout, try_catch, bind.
  destruct (fetchWithTimeout_with P 200 (baseDomain +:+ "/rcp/" +:+ hash) 2 t)
    as [[resp|e] t1] eqn:Hfetch;
    destruct (fetchWithTimeout_with_requests _ _ _ _ _ _ Hfetch)
      as (k & Hk & Hreq).
  - destruct (ok resp); cbn [negb];
      [|exists None, t1; split; [reflexivity|]; split; [eauto|];
        intros ? ?; discriminate].
    unfold lift. destruct (text resp) as [txt|e];
      [|exists None, t1; split; [reflexivity|]; split; [eauto|];
        intros ? ?; discriminate].
    destruct (rcpGrabber P txt t1) as [[r|e] t2] eqn:Hgrab.
    + destruct (rcpGrabber_normal txt t1) as [r' Hr'].
      rewrite Hr' in Hgrab. injection Hgrab as -> <-.
      exists r, t1. split; [reflexivity|]. split; [eauto|].
      intros item ->. apply rcpGrabber_image in Hr' as (_ & Himg & Hsrc).
      split; [exact Himg | eauto].
    + destruct (rcpGrabber_normal txt t1) as [r' Hr']. congruence.
  - exists None, t1. split; [reflexivity|]. split; [eauto|].
    intros ? ?; discriminate.
Qed.

Lemma infer_base_domain_cases (iframeSrc : string) :
  infer_base_domain P iframeSrc = DEFAULT_DOMAIN \/
  exists full, url_origin P full = Normal (infer_base_domain P iframeSrc).
Proof.
  unfold infer_base_domain.
  destruct (str_truthy iframeSrc); [|now left].
  destruct (url_origin P _) as [o|e] eqn:Ho; [right; eauto | now left].
Qed.

Lemma server_of_hash (el : server_element) (entry : ServerEntry) :
  server_of P el = Some entry -> dataHash entry <> Some "".
Proof.
  unfold server_of, and_then.
  destruct (el_text el); [|discriminate].
  destruct (el_data_hash el) as [[h|]|]; try discriminate.
  - intros [= <-]. cbn [dataHash]. now destruct h.
  - now intros [= <-].
Qed.

Lemma omap_length_le {X Y} (f : X -> option Y) (l : list X) :
  (length (omap f l) <= length l)%nat.
Proof.
  induction l as [|x l IH]; cbn; [lia|]. destruct (f x); cbn [length]; lia.
Qed.

(** X13. [serversLoad] makes no request, and its result is well formed
    whatever the page: a [dataHash] is [null] or a non-empty string (an
    empty attribute reads as [null]), the base domain is the default one or
    an origin the [URL] parser returned, and there are no more entries than
    the page has server elements. *)
Theorem serversLoad_well_formed (html : string) (t : trace) :
  exists r : ServersLoad,
    serversLoad P html t = (Normal r, t) /\
    Forall (fun s => dataHash s <> Some "") (servers r) /\
    (baseDomain r = "https://cloudnestra.com" \/
     exists full, url_origin P full = Normal (baseDomain r)) /\
    forall doc elements,
      cheerio_load P (str_or html "") = Normal doc ->
      server_elements doc = Normal elements ->
      (length (servers r) <= length elements)%nat.
Proof.
  unfold serversLoad, try_catch, lift, and_then, ret.
  assert (Hdefault :
    Forall (fun s => dataHash s <> Some "") (servers default_load) /\
    (baseDomain default_load = "https://cloudnestra.com" \/
     exists full, url_origin P full = Normal (baseDomain default_load)))
    by (split; [constructor | now left]).
  assert (Hnone : forall n : nat, (length (servers default_load) <= n)%nat)
    by (intros n; cbn [servers default_load length]; lia).
  destruct (cheerio_load P (str_or html "")) as [doc|e];
    [|exists default_load; split; [reflexivity|];
      split; [apply Hdefault|]; split; [apply Hdefault|]; intros; apply Hnone].
  destruct (title_text doc) as [raw|e];
    [|exists default_load; split; [reflexivity|];
      split; [apply Hdefault|]; split; [apply Hdefault|]; intros; apply Hnone].
  destruct (iframe_src doc) as [src|e];
    [|exists default_load; split; [reflexivity|];
      split; [apply Hdefault|]; split; [apply Hdefault|]; intros; apply Hnone].
  destruct (server_elements doc) as [elements|e] eqn:Hels;
    [|exists default_load; split; [reflexivity|];
      split; [apply Hdefault|]; split; [apply Hdefault|]; intros; apply Hnone].
  eexists. split; [reflexivity|]. cbn [servers baseDomain].
  split; [|split].
  - apply Forall_forall. intros s Hs.
    apply list_elem_of_omap in Hs as (el & _ & Hel).
    now apply server_of_hash with el.
  - apply infer_base_domain_cases.
  - intros doc' els [= <-] Hels'. rewrite Hels in Hels'.
    injection Hels' as <-. apply omap_length_le.
Qed.
End Resolvers.

(** ** More on the concurrency limiter *)

Section WorkersMore.
Import Extractor.
Implicit Types (ws : list (option nat)) (w k idx n i : nat).

Lemma awaiting_from_length_le k ws :
  (length (awaiting_from k ws) <= length ws)%nat.
Proof.
  revert k; induction ws as [|[x|] ws IH]; intros k;
    cbn [awaiting_from length]; [lia| |]; specialize (IH (S k)); lia.
Qed.

Lemma awaiting_from_indices k ws : map snd (awaiting_from k ws) = omap id ws.
Proof.
  revert k; induction ws as [|[x|] ws IH]; intros k; cbn [awaiting_from];
    [reflexivity| |].
  - cbn. now rewrite IH.
  - cbn. apply IH.
Qed.

Lemma start_workers_indices n limit i ws i' :
  start_workers n limit i = (ws, i') -> omap id ws = seq i (i' - i).
Proof.
  revert i ws i'; induction limit as [|limit IH]; intros i ws i';
    cbn [start_workers].
  - intros [= <- <-]. now rewrite Nat.sub_diag.
  - unfold claim. destruct (Nat.ltb_spec i n) as [Hlt|Hge].
    + destruct (start_workers n limit (S i)) as [ws0 i0] eqn:E.
      intros [= <- <-].
      assert (S i <= i0)%nat.
      { destruct (start_workers_spec _ _ _ _ _ E) as (_ & ? & _); lia. }
      cbn. rewrite (IH _ _ _ E).
      replace (i0 - i)%nat with (S (i0 - S i)) by lia. reflexivity.
    + destruct (start_workers n limit i) as [ws0 i0] eqn:E.
      intros [= <- <-]. cbn. apply (IH _ _ _ E).
Qed.

(** Replacing what a waiting worker waits for. *)
Lemma omap_insert_waiting ws w idx (x : option nat) :
  ws !! w = Some (Some idx) ->
  Permutation (idx :: omap id (<[w := x]> ws))
              (omap id ws ++ omap id [x]).
Proof.
  intros Hw. pose proof (lookup_lt_Some _ _ _ Hw) as Hlt.
  rewrite insert_take_drop by exact Hlt.
  rewrite <- (take_drop_middle ws w (Some idx) Hw) at 3.
  rewrite !omap_app. cbn [omap list_omap]. cbn.
  destruct x as [j|]; cbn.
  - rewrite <- app_assoc. cbn [app].
    rewrite <- (Permutation_middle (omap id (take w ws)) _ idx).
    apply perm_skip, Permutation_app_head.
    rewrite <- Permutation_middle. rewrite app_nil_r. reflexivity.
  - rewrite app_nil_r. apply Permutation_middle.
Qed.
End WorkersMore.

Section LimiterMore.
Import Extractor.
Context {A V : Type}.
Context (items : list A) (fn : option A -> nat -> M V) (null : V).

Local Abbreviation pool_inv := (pool_inv items fn null).
Local Abbreviation pending_work := (pending_work items).

Lemma settle_workers_length (choice : nat) (p p' : pool V) (t t' : trace) :
  settle items fn null choice p t = Some (p', t') ->
  length (workers p') = length (workers p).
Proof.
  unfold settle.
  destruct (pick choice (workers p)) as [[w idx]|]; [|discriminate].
  destruct (fn (items !! idx) idx t) as [c t1].
  destruct (claim (length items) (next_index p)) as [w' i'].
  intros [= <- <-]. cbn [workers]. apply length_insert.
Qed.

Lemma run_pool_workers_length (fuel : nat) (sched : nat -> nat) (p : pool V)
    (t : trace) :
  length (workers (fst (run_pool items fn null fuel sched p t))) =
  length (workers p).
Proof.
  revert sched p t; induction fuel as [|fuel IH]; intros sched p t;
    cbn [run_pool]; [reflexivity|].
  destruct (settle items fn null (sched 0%nat) p t) as [[p' t']|] eqn:Hstep;
    [|reflexivity].
  rewrite IH. now apply settle_workers_length in Hstep.
Qed.

(** X14. The limiter keeps its bound: however the calls are scheduled and
    however many turns of the event loop have passed, the number of calls
    of [fn] that are pending at the same time is never above [limit]. *)
Theorem mapWithConcurrencyLimit_bounded (sched : nat -> nat) (limit k : nat)
    (t : trace) :
  (length (awaiting (workers (fst (pool_after items fn null sched limit k t))))
   <= limit)%nat.
Proof.
  unfold pool_after.
  destruct (start_workers (length items) limit 0) as [ws i0] eqn:Hstart.
  destruct (start_workers_spec _ _ _ _ _ Hstart) as (Hlen & _); [lia|].
  unfold awaiting.
  etransitivity; [apply awaiting_from_length_le|].
  rewrite run_pool_workers_length. cbn [workers]. lia.
Qed.

(** When no call is pending, every item has been claimed. *)
Lemma pool_all_claimed (p : pool V) :
  pool_inv p -> awaiting (workers p) = [] -> remaining items p = [].
Proof.
  intros Hinv Hnone.
  destruct (pool_finished items fn null p Hinv Hnone) as [Hsize _].
  destruct Hinv as [Hnext _ _ _ Hlen _].
  unfold remaining. unfold awaiting in Hnone.
  rewrite <- (awaiting_from_indices 0), Hnone.
  replace (length items - next_index p)%nat with 0%nat by lia. reflexivity.
Qed.

(** A turn settles one of the remaining calls, in the history as it is. *)
Lemma settle_order (choice : nat) (p p' : pool V) (t t' : trace) :
  pool_inv p -> settle items fn null choice p t = Some (p', t') ->
  exists idx,
    t' = snd (fn (items !! idx) idx t) /\
    Permutation (idx :: remaining items p') (remaining items p).
Proof.
  intros [Hnext _ _ _ _ _]. unfold settle.
  destruct (pick choice (workers p)) as [[w idx]|] eqn:Hpick; [|discriminate].
  apply pick_Some in Hpick as Hw.
  destruct (fn (items !! idx) idx t) as [c t1] eqn:Hfn.
  unfold claim, remaining.
  destruct (Nat.ltb_spec (next_index p) (length items)) as [Hlt|Hge];
    intros [= <- <-]; cbn [next_index workers]; exists idx;
    (split; [now rewrite Hfn|]).
  - rewrite app_comm_cons, (omap_insert_waiting _ _ _ _ Hw). cbn.
    rewrite <- app_assoc. cbn [app].
    replace (length items - next_index p)%nat
      with (S (length items - S (next_index p))) by lia.
    reflexivity.
  - rewrite app_comm_cons, (omap_insert_waiting _ _ _ _ Hw). cbn.
    now rewrite app_nil_r.
Qed.

Lemma run_pool_order (fuel : nat) (sched : nat -> nat) (p : pool V) (t : trace) :
  pool_inv p -> (pending_work p <= fuel)%nat ->
  exists order,
    Permutation order (remaining items p) /\
    snd (run_pool items fn null fuel sched p t) = run_calls items fn order t.
Proof.
  revert sched p t; induction fuel as [|fuel IH]; intros sched p t Hinv Hwork;
    cbn [run_pool].
  - exists []. split; [|reflexivity].
    rewrite pool_all_claimed; [reflexivity | exact Hinv|].
    unfold pending_work in Hwork.
    destruct (awaiting (workers p)); [reflexivity | cbn [length] in Hwork; lia].
  - destruct (settle items fn null (sched 0%nat) p t) as [[p' t']|] eqn:Hstep.
    + destruct (settle_step _ _ _ _ _ _ _ _ Hinv Hstep) as [Hinv' Hless].
      destruct (settle_order _ _ _ _ _ Hinv Hstep) as (idx & Ht' & Hperm).
      destruct (IH (fun k => sched (S k)) p' t' Hinv') as (order & Horder & Hrun);
        [lia|].
      exists (idx :: order). split.
      * rewrite <- Hperm. now constructor.
      * cbn [run_calls]. now rewrite <- Ht'.
    + exists []. split; [|reflexivity].
      rewrite pool_all_claimed; [reflexivity | exact Hinv|].
      unfold settle in Hstep.
      destruct (pick (sched 0%nat) (workers p)) as [[w idx]|] eqn:Hpick.
      * destruct (fn (items !! idx) idx t), (claim (length items) (next_index p)).
        discriminate.
      * now apply pick_None in Hpick.
Qed.

(** From the start of the workers to the end of the run. *)
Lemma mapWithConcurrencyLimit_order (sched : nat -> nat) (limit : nat) (t : trace) :
  (1 <= limit)%nat ->
  exists order : list nat,
    Permutation order (seq 0 (length items)) /\
    snd (mapWithConcurrencyLimit items fn null sched limit t) =
    run_calls items fn order t.
Proof.
  intros Hlimit. unfold mapWithConcurrencyLimit.
  destruct (start_workers (length items) limit 0) as [ws i0] eqn:Hstart.
  destruct (start_workers_spec _ _ _ _ _ Hstart)
    as (Hlen & Hrange & Hidx & Hall & Hdone & Hcount); [lia|].
  pose (p0 := {| next_index := i0; results := @nil (option V); workers := ws |}).
  assert (Hinv : pool_inv p0).
  { constructor; unfold p0; cbn [next_index results workers].
    - lia.
    - lia.
    - intros w idx Hw. apply Hidx in Hw. lia.
    - intros i Hi. left. apply Hall. lia.
    - cbn [length]. lia.
    - exact Hdone. }
  assert (Hwork : (pending_work p0 <= length items)%nat).
  { unfold pending_work, awaiting, p0. cbn [next_index workers].
    rewrite Hcount. lia. }
  destruct (run_pool_order (length items) sched p0 t Hinv Hwork)
    as (order & Horder & Hrun).
  fold p0.
  destruct (run_pool items fn null (length items) sched p0 t) as [p t'].
  cbn [snd] in *. exists order. split; [|exact Hrun].
  rewrite Horder. unfold remaining, p0. cbn [next_index workers].
  rewrite (start_workers_indices _ _ _ _ _ Hstart), Nat.sub_0_r.
  rewrite <- seq_app. replace (i0 + (length items - i0))%nat
    with (length items) by lia. reflexivity.
Qed.

Lemma run_calls_requests (reqs : A -> nat -> list string) :
  (forall x i t, requests (snd (fn (Some x) i t)) = requests t ++ reqs x i) ->
  forall (order : list nat) (t : trace),
    Forall (fun i => (i < length items)%nat) order ->
    requests (run_calls items fn order t) =
    requests t ++
    flat_map (fun i => from_option (fun x => reqs x i) [] (items !! i)) order.
Proof.
  intros Hfn order. induction order as [|i order IH]; intros t Horder;
    cbn [run_calls flat_map].
  - now rewrite app_nil_r.
  - apply Forall_cons in Horder as [Hi Horder].
    apply lookup_lt_is_Some in Hi as [x Hx].
    rewrite IH by exact Horder. rewrite Hx, Hfn. cbn [from_option].
    now rewrite <- app_assoc.
Qed.

Lemma flat_map_indices {B} (g : nat -> A -> list B) (l : list A) :
  flat_map (fun i => from_option (g i) [] (l !! i)) (seq 0 (length l)) =
  concat (imap g l).
Proof.
  revert g. induction l as [|x l IH]; intros g; [reflexivity|].
  cbn [length seq flat_map imap concat lookup list_lookup from_option].
  f_equal. rewrite <- seq_shift, flat_map_concat_map, List.map_map.
  rewrite <- flat_map_concat_map. apply (IH (g ∘ S)).
Qed.

(** X15. With at least one worker, every item's call is made exactly once,
    whatever the schedule. Read off the requests: if the requests a call
    makes depend on its item and index alone, then the requests of the
    whole map are, in some order, those of one call per item, each item
    counted once; the order between the calls is left open. *)
Theorem mapWithConcurrencyLimit_each_once (reqs : A -> nat -> list string)
    (Hfn : forall x i t,
        requests (snd (fn (Some x) i t)) = requests t ++ reqs x i)
    (sched : nat -> nat) (limit : nat) (Hlimit : (1 <= limit)%nat) (t : trace) :
  exists made : list string,
    requests (snd (mapWithConcurrencyLimit items fn null sched limit t)) =
    requests t ++ made /\
    Permutation made (concat (imap (fun i x => reqs x i) items)).
Proof.
  destruct (mapWithConcurrencyLimit_order sched limit t Hlimit)
    as (order & Hperm & Hrun).
  exists (flat_map (fun i => from_option (fun x => reqs x i) [] (items !! i)) order).
  split.
  - rewrite Hrun. apply run_calls_requests; [exact Hfn|].
    apply List.Forall_forall. intros i Hi.
    apply (Permutation_in _ Hperm), List.in_seq in Hi. lia.
  - rewrite <- (flat_map_indices (fun i x => reqs x i)).
    now apply Permutation_flat_map.
Qed.

Lemma js_array_set_push (res : js_array V) (v : V) :
  js_array_set res (length res) v = res ++ [Some v].
Proof.
  unfold js_array_set. destruct (decide (length res < length res)%nat); [lia|].
  now rewrite Nat.sub_diag.
Qed.

Lemma pick_single (choice k : nat) : pick choice [Some k] = Some (0%nat, k).
Proof.
  unfold pick, awaiting. cbn [awaiting_from length].
  now rewrite Nat.mod_1_r.
Qed.

Lemma map_in_order_cons (x : A) (xs : list A) (i : nat) (t : trace) :
  map_in_order fn null (x :: xs) i t =
  (Some (settled_value null (fst (fn (Some x) i t)))
     :: fst (map_in_order fn null xs (S i) (snd (fn (Some x) i t))),
   snd (map_in_order fn null xs (S i) (snd (fn (Some x) i t)))).
Proof.
  cbn [map_in_order]. destruct (fn (Some x) i t) as [c t1]. cbn [fst snd].
  now destruct (map_in_order fn null xs (S i) t1).
Qed.

(** One worker alone: it takes the items from [k] on in order, each call
    awaited before the next. *)
Lemma one_worker_run (rest : list A) (x : A) (k : nat) (res : js_array V)
    (t : trace) (fuel : nat) (sched : nat -> nat) :
  length res = k -> drop k items = x :: rest ->
  (S (length rest) <= fuel)%nat ->
  run_pool items fn null fuel sched
           {| next_index := S k; results := res; workers := [Some k] |} t =
  ({| next_index := length items;
      results := res ++ fst (map_in_order fn null (x :: rest) k t);
      workers := [None] |},
   snd (map_in_order fn null (x :: rest) k t)).
Proof.
  revert x k res t fuel sched.
  induction rest as [|y rest IH]; intros x k res t fuel sched Hres Hdrop Hfuel;
    (destruct fuel as [|fuel]; [cbn [length] in Hfuel; lia|]);
    assert (Hx : items !! k = Some x)
      by (rewrite <- (Nat.add_0_r k), <- lookup_drop, Hdrop; reflexivity);
    pose proof (length_drop items k) as Hn; rewrite Hdrop in Hn;
    cbn [length] in Hn;
    cbn [run_pool]; rewrite (map_in_order_cons x); unfold settle;
    cbn [workers next_index results]; rewrite pick_single, Hx;
    destruct (fn (Some x) k t) as [c t1]; cbn [fst snd]; unfold claim.
  - destruct (Nat.ltb_spec (S k) (length items)) as [Hlt|Hge]; [lia|].
    subst k. rewrite js_array_set_push. cbn [insert list_insert fst snd].
    assert (Hall : S (length res) = length items) by lia. rewrite Hall.
    destruct fuel as [|fuel]; reflexivity.
  - destruct (Nat.ltb_spec (S k) (length items)) as [Hlt|Hge]; [|lia].
    subst k. rewrite js_array_set_push. cbn [insert list_insert].
    rewrite (IH y (S (length res)) (res ++ [Some (settled_value null c)]) t1
               fuel (fun j => sched (S j))).
    + now rewrite <- app_assoc.
    + rewrite length_app. cbn [length]. lia.
    + rewrite (drop_S _ _ _ Hx) in Hdrop. now injection Hdrop.
    + cbn [length] in *. lia.
Qed.

(** X16. With [limit = 1] the map is a plain sequential loop: whatever the
    scheduler does, the calls are made in input order, each after the
    previous one has settled, and results and history are those of that
    loop. *)
Theorem mapWithConcurrencyLimit_one_worker (sched : nat -> nat) (t : trace) :
  mapWithConcurrencyLimit items fn null sched 1 t =
  (Normal (fst (map_in_order fn null items 0 t)),
   snd (map_in_order fn null items 0 t)).
Proof.
  unfold mapWithConcurrencyLimit. cbn [start_workers]. unfold claim.
  destruct items as [|x rest] eqn:Hitems.
  - reflexivity.
  - rewrite <- Hitems.
    replace (0 <? length items)%nat with true
      by (rewrite Hitems; reflexivity).
    rewrite (one_worker_run rest x 0 [] t (length items) sched);
      [now rewrite Hitems | reflexivity | now rewrite Hitems
      | rewrite Hitems; cbn; lia].
Qed.
End LimiterMore.

Lemma requests_fetch (P : Platform) (url : string) (t : trace) :
  requests (snd (fetch P url t)) = requests t ++ [url].
Proof.
  unfold fetch. destruct (net P t url); cbn [snd]; now rewrite requests_app.
Qed.

Lemma mapWithConcurrencyLimit_each_once_witness :
  (1 <= 2)%nat /\
  exists made : list string,
    requests (snd (Extractor.mapWithConcurrencyLimit ["a"; "b"; "c"]
                     (fun item idx => fetch Demo.demo (default "" item))
                     None Demo.out_of_order 2 [])) = [] ++ made /\
    Permutation made ["a"; "b"; "c"].
Proof.
  split; [lia|].
  exact (mapWithConcurrencyLimit_each_once ["a"; "b"; "c"]
           (fun item idx => fetch Demo.demo (default "" item)) None
           (fun x _ => [x]) (fun x _ t => requests_fetch Demo.demo x t)
           Demo.out_of_order 2 ltac:(lia) []).
Defined.

(** ** Histories only grow *)

Lemma appends_ret {X} (x : X) : appends (ret x).
Proof. intros t. exists []. cbn. now rewrite app_nil_r. Qed.

Lemma appends_throw {X} (e : exn) : appends (@throw X e).
Proof. intros t. exists []. cbn. now rewrite app_nil_r. Qed.

Lemma appends_lift {X} (c : completion X) : appends (lift c).
Proof. intros t. exists []. cbn. now rewrite app_nil_r. Qed.

Lemma appends_sleep (ms : Z) : appends (sleep ms).
Proof. intros t. now exists [EvSleep ms]. Qed.

Lemma appends_fetch (P : Platform) (url : string) : appends (fetch P url).
Proof.
  intros t. exists [EvFetch url]. unfold fetch. now destruct (net P t url).
Qed.

Lemma appends_bind {X Y} (m : M X) (k : X -> M Y) :
  appends m -> (forall x, appends (k x)) -> appends (bind m k).
Proof.
  intros Hm Hk t. unfold bind. destruct (Hm t) as [a Ha].
  destruct (m t) as [[x|e] t1]; cbn [snd] in *; subst t1.
  - destruct (Hk x (t ++ a)) as [b Hb]. exists (a ++ b).
    now rewrite Hb, app_assoc.
  - now exists a.
Qed.

Lemma appends_try_catch {X} (m : M X) (h : exn -> M X) :
  appends m -> (forall e, appends (h e)) -> appends (try_catch m h).
Proof.
  intros Hm Hh t. unfold try_catch. destruct (Hm t) as [a Ha].
  destruct (m t) as [[x|e] t1]; cbn [snd] in *; subst t1.
  - now exists a.
  - destruct (Hh e (t ++ a)) as [b Hb]. exists (a ++ b).
    now rewrite Hb, app_assoc.
Qed.

Create HintDb appends.
#[local] Hint Resolve appends_ret appends_throw appends_lift appends_sleep
  appends_fetch : appends.

Lemma appends_fetch_attempts (P : Platform) (delay : Z) (url : string)
    (retries left attempt : nat) (lastErr : exn) :
  appends (fetch_attempts P delay url retries left attempt lastErr).
Proof.
  revert attempt lastErr. induction left as [|left IH]; intros attempt lastErr;
    cbn [fetch_attempts]; [auto with appends|].
  apply appends_bind.
  - apply appends_try_catch.
    + apply appends_bind; [auto with appends|].
      intros [r|]; [|auto with appends].
      destruct (ok r); [auto with appends|].
      destruct ((400 <=? status r) && (status r <? 500)); auto with appends.
    + intros e. destruct (retries <? S attempt)%nat; [auto with appends|].
      apply appends_bind; auto with appends.
  - intros [resp|e]; [auto with appends | apply IH].
Qed.

#[local] Hint Resolve appends_fetch_attempts : appends.

Section AppendsPipeline.
Import Extractor.
Context (P : Platform).

Lemma appends_fetchAndParseHLS (url : string) :
  appends (HlsUtils.fetchAndParseHLS P url).
Proof.
  unfold HlsUtils.fetchAndParseHLS, HlsUtils.fetchWithTimeout,
         fetchWithTimeout_with.
  apply appends_try_catch; [|auto with appends].
  apply appends_bind; [auto with appends|]. intros resp.
  destruct (ok resp); cbn [negb]; [|auto with appends].
  apply appends_bind; [auto with appends|]. intros content.
  destruct (str_truthy content); cbn [negb]; [|auto with appends].
  destruct (includes "#EXT-X-STREAM-INF" content); cbn [negb];
    auto with appends.
Qed.

Lemma appends_PRORCPhandler (baseDomain prorcp : string) :
  appends (PRORCPhandler P baseDomain prorcp).
Proof.
  unfold PRORCPhandler, fetchWithTimeout, fetchWithTimeout_with.
  destruct (str_truthy prorcp); cbn [negb]; [|auto with appends].
  apply appends_try_catch; [|auto with appends].
  apply appends_bind; [auto with appends|]. intros resp.
  destruct (ok resp); cbn [negb]; [|auto with appends].
  apply appends_bind; [auto with appends|]. intros body.
  destruct (match_file P body) as [m1|]; [|auto with appends].
  destruct (str_truthy m1); auto with appends.
Qed.

Lemma appends_rcp_task (baseDomain : string) (srv : option ServerEntry) (idx : nat) :
  appends (rcp_task P baseDomain srv idx).
Proof.
  unfold rcp_task, fetchWithTimeout, fetchWithTimeout_with, rcpGrabber.
  destruct srv as [[nm [hash|]]|]; [|auto with appends|auto with appends].
  destruct (str_truthy hash); cbn [negb]; [|auto with appends].
  apply appends_try_catch; [|auto with appends].
  apply appends_bind; [auto with appends|]. intros resp.
  destruct (ok resp); cbn [negb]; [|auto with appends].
  apply appends_bind; [auto with appends|]. intros txt.
  destruct (match_src P (str_or txt "")); auto with appends.
Qed.

Lemma appends_process_item (id title baseDomain : string)
    (acc : list StreamResult) (slot : option (option RcpResult)) :
  appends (process_item P id title baseDomain acc slot).
Proof.
  destruct slot as [[item|]|]; cbn [process_item]; [|auto with appends..].
  apply appends_try_catch; [|auto with appends].
  destruct (startsWith "/prorcp/" (str_or (data item) "")); [|auto with appends].
  apply appends_bind; [apply appends_PRORCPhandler|].
  intros [stream|]; [|auto with appends].
  destruct (str_truthy stream); cbn [negb]; [|auto with appends].
  apply appends_bind; [apply appends_fetchAndParseHLS | auto with appends].
Qed.

Lemma appends_process_items (id title baseDomain : string)
    (slots : js_array (option RcpResult)) (acc : list StreamResult) :
  appends (process_items P id title baseDomain acc slots).
Proof.
  revert acc. induction slots as [|slot slots IH]; intros acc;
    cbn [process_items]; [auto with appends|].
  apply appends_bind; [apply appends_process_item | intros acc'; apply IH].
Qed.
End AppendsPipeline.

Section AppendsLimiter.
Import Extractor.
Context {A V : Type}.
Context (items : list A) (fn : option A -> nat -> M V) (null : V).
Hypothesis fn_appends : forall x i, appends (fn x i).

Lemma run_calls_appends (order : list nat) (t : trace) :
  exists added, run_calls items fn order t = t ++ added.
Proof.
  revert t. induction order as [|i order IH]; intros t; cbn [run_calls].
  - exists []. now rewrite app_nil_r.
  - destruct (fn_appends (items !! i) i t) as [a Ha]. rewrite Ha.
    destruct (IH (t ++ a)) as [b Hb]. exists (a ++ b).
    now rewrite Hb, app_assoc.
Qed.

Lemma run_pool_appends (fuel : nat) (sched : nat -> nat) (p : pool V) (t : trace) :
  exists added, snd (run_pool items fn null fuel sched p t) = t ++ added.
Proof.
  revert sched p t. induction fuel as [|fuel IH]; intros sched p t;
    cbn [run_pool].
  - exists []. now rewrite app_nil_r.
  - unfold settle. destruct (pick (sched 0%nat) (workers p)) as [[w idx]|];
      [|exists []; now rewrite app_nil_r].
    destruct (fn_appends (items !! idx) idx t) as [a Ha].
    destruct (fn (items !! idx) idx t) as [c t1]. cbn [snd] in Ha. subst t1.
    destruct (claim (length items) (next_index p)) as [w' i'].
    match goal with
    | |- context [run_pool _ _ _ _ ?s ?q (t ++ a)] =>
        destruct (IH s q (t ++ a)) as [b Hb]
    end.
    exists (a ++ b). now rewrite Hb, app_assoc.
Qed.

Lemma appends_mapWithConcurrencyLimit (sched : nat -> nat) (limit : nat) :
  appends (mapWithConcurrencyLimit items fn null sched limit).
Proof.
  intros t. unfold mapWithConcurrencyLimit.
  destruct (start_workers (length items) limit 0) as [ws i0].
  match goal with
  | |- context [run_pool _ _ _ ?f ?s ?q t] =>
      destruct (run_pool_appends f s q t) as [a Ha];
      destruct (run_pool items fn null f s q t) as [p t']
  end.
  cbn [snd] in *. now exists a.
Qed.
End AppendsLimiter.

(** ** More on the pipeline *)

Section LimiterStored.
Import Extractor.
Context {A V : Type}.
Context (items : list A) (fn : option A -> nat -> M V) (null : V).

(** With a worker, the map returns one filled slot per item. *)
Lemma mapWithConcurrencyLimit_stored (sched : nat -> nat) (limit : nat) (t : trace) :
  (1 <= limit)%nat ->
  exists res t',
    mapWithConcurrencyLimit items fn null sched limit t = (Normal res, t') /\
    length res = length items /\
    forall i, (i < length items)%nat -> stored items fn null res i.
Proof.
  intros Hlimit. unfold mapWithConcurrencyLimit.
  destruct (start_workers (length items) limit 0) as [ws i0] eqn:Hstart.
  destruct (start_workers_spec _ _ _ _ _ Hstart)
    as (Hlen & Hrange & Hidx & Hall & Hdone & Hcount); [lia|].
  pose (p0 := {| next_index := i0; results := @nil (option V); workers := ws |}).
  assert (Hinv : pool_inv items fn null p0).
  { constructor; unfold p0; cbn [next_index results workers].
    - lia.
    - lia.
    - intros w idx Hw. apply Hidx in Hw. lia.
    - intros i Hi. left. apply Hall. lia.
    - cbn [length]. lia.
    - exact Hdone. }
  assert (Hwork : (pending_work items p0 <= length items)%nat).
  { unfold pending_work, awaiting, p0. cbn [next_index workers].
    rewrite Hcount. lia. }
  destruct (run_pool_done items fn null (length items) sched p0 t Hinv Hwork)
    as [Hinv' Hnone].
  fold p0. destruct (run_pool items fn null (length items) sched p0 t) as [p t'].
  cbn [fst] in *.
  destruct (pool_finished items fn null p Hinv' Hnone) as [Hsize Hst].
  now exists (results p), t'.
Qed.
End LimiterStored.

Section PipelineMore.
Import Extractor.
Context (P : Platform).

Lemma appends_serversLoad (html : string) : appends (serversLoad P html).
Proof.
  unfold serversLoad. apply appends_try_catch; auto with appends.
Qed.

Lemma rcp_task_image (baseDomain : string) (srv : option ServerEntry)
    (idx : nat) (t : trace) (item : RcpResult) :
  fst (rcp_task P baseDomain srv idx t) = Normal (Some item) ->
  image (metadata item) = "".
Proof.
  unfold rcp_task.
  destruct srv as [[nm [hash|]]|]; try discriminate.
  destruct (str_truthy hash); cbn [negb]; [|discriminate].
  unfold try_catch, bind.
  destruct (fetchWithTimeout P (baseDomain +:+ "/rcp/" +:+ hash) 2 t)
    as [[resp|e] t1]; [|discriminate].
  destruct (ok resp); cbn [negb]; [|discriminate].
  unfold lift. destruct (text resp) as [txt|e]; [|discriminate].
  destruct (rcpGrabber P txt t1) as [[r|e] t2] eqn:Hgrab; cbn [fst];
    [|discriminate].
  intros [= ->]. now apply rcpGrabber_image in Hgrab.
Qed.

(** No rcp result carries an image. *)
Lemma rcp_slots_image (servers : list ServerEntry) (baseDomain : string)
    (sched : nat -> nat) (t t' : trace) (res : js_array (option RcpResult)) :
  mapWithConcurrencyLimit servers (rcp_task P baseDomain) None sched 4 t
    = (Normal res, t') ->
  Forall (fun slot => forall item, slot = Some (Some item) ->
                                   image (metadata item) = "") res.
Proof.
  intros Hmap.
  destruct (mapWithConcurrencyLimit_stored servers (rcp_task P baseDomain) None
              sched 4 t) as (res' & t'' & Hmap' & Hlen & Hst); [lia|].
  rewrite Hmap in Hmap'. injection Hmap' as <- <-.
  apply Forall_lookup. intros i slot Hi item ->.
  destruct (Hst i) as [t_i Hres]; [rewrite <- Hlen; now apply lookup_lt_Some in Hi|].
  rewrite Hi in Hres. injection Hres as Hres.
  unfold settled_value in Hres.
  destruct (fst (rcp_task P baseDomain (servers !! i) i t_i)) as [v|e] eqn:Hv;
    [|discriminate].
  subst v. now apply rcp_task_image in Hv.
Qed.

Lemma process_item_entries (id title baseDomain : string)
    (acc acc' : list StreamResult) (slot : option (option RcpResult))
    (t t' : trace) :
  process_item P id title baseDomain acc slot t = (Normal acc', t') ->
  (forall item, slot = Some (Some item) -> image (metadata item) = "") ->
  Forall (entry_of id title baseDomain) acc ->
  Forall (entry_of id title baseDomain) acc'.
Proof.
  intros Hrun Himg Hacc.
  destruct slot as [[item|]|]; cbn [process_item] in Hrun;
    [|now injection Hrun as <- _|now injection Hrun as <- _].
  unfold try_catch in Hrun.
  destruct (startsWith "/prorcp/" (str_or (data item) ""));
    [|now injection Hrun as <- _].
  unfold bind in Hrun.
  destruct (PRORCPhandler P baseDomain (str_replace "/prorcp/" "" (data item)) t)
    as [[[stream|]|e] t1]; [|now injection Hrun as <- _|now injection Hrun as <- _].
  destruct (str_truthy stream) eqn:Hstream; cbn [negb] in Hrun;
    [|now injection Hrun as <- _].
  destruct (HlsUtils.fetchAndParseHLS P stream t1) as [[hls|e] t2];
    [|now injection Hrun as <- _].
  injection Hrun as <- _. apply Forall_app. split; [exact Hacc|].
  constructor; [|constructor].
  unfold entry_of. cbn. repeat split; try reflexivity; [|exact Hstream].
  now apply Himg.
Qed.

Lemma process_items_entries (id title baseDomain : string)
    (slots : js_array (option RcpResult)) (acc acc' : list StreamResult)
    (t t' : trace) :
  process_items P id title baseDomain acc slots t = (Normal acc', t') ->
  Forall (fun slot => forall item, slot = Some (Some item) ->
                                   image (metadata item) = "") slots ->
  Forall (entry_of id title baseDomain) acc ->
  Forall (entry_of id title baseDomain) acc'.
Proof.
  revert acc t. induction slots as [|slot slots IH]; intros acc t Hrun Hslots Hacc;
    cbn [process_items] in Hrun.
  - now injection Hrun as <- _.
  - apply Forall_cons in Hslots as [Hslot Hslots]. unfold bind in Hrun.
    destruct (process_item P id title baseDomain acc slot t)
      as [[acc1|e] t1] eqn:Hitem; [|discriminate].
    eapply IH; [exact Hrun | exact Hslots|].
    eapply process_item_entries; eassumption.
Qed.

(** The first stage: the embed page is fetched, and nothing else happens
    before the page is parsed. *)
Lemma embed_stage (url : string) (t : trace) :
  let stage :=
    try_catch
      (let* embedResp := fetchWithTimeout P url 2 in
       if negb (ok embedResp) then ret (EmbedReturn [])
       else
         let* embedText := lift (text embedResp) in
         ret (EmbedText embedText))
      (fun _ => ret (EmbedReturn [])) in
  exists embed,
    stage t = (Normal embed, snd (fetchWithTimeout P url 2 t)) /\
    ((exists e, fst (fetchWithTimeout P url 2 t) = Throw e) ->
     embed = EmbedReturn []).
Proof.
  cbv zeta. unfold try_catch, bind.
  destruct (fetchWithTimeout P url 2 t) as [[resp|e] t1]; cbn [fst snd].
  - destruct (ok resp); cbn [negb].
    + unfold lift. destruct (text resp) as [txt|e].
      * eexists. split; [reflexivity|]. intros [e He]. discriminate.
      * eexists. split; [reflexivity|]. intros [e' He]. discriminate.
    + eexists. split; [reflexivity|]. intros [e He]. discriminate.
  - eexists. split; [reflexivity|]. reflexivity.
Qed.

(** The pipeline completes normally, stage by stage. *)
Lemma getStreamContent_never_throws_aux (sched : nat -> nat) (id type : string)
    (t : trace) :
  exists result t', getStreamContent P sched id type t = (Normal result, t').
Proof.
  unfold getStreamContent. unfold bind at 1.
  destruct (embed_stage (getUrl id type) t) as (embed & Hstage & _).
  cbv zeta in Hstage. rewrite Hstage.
  destruct embed as [early|embedText]; [unfold ret; eauto|].
  unfold bind at 1.
  destruct (serversLoad_normal P embedText
              (snd (fetchWithTimeout P (getUrl id type) 2 t))) as (loaded & ->).
  destruct (servers loaded) as [|srv rest]; [unfold ret; eauto|].
  unfold bind.
  destruct (mapWithConcurrencyLimit_normal (srv :: rest)
              (rcp_task P (baseDomain loaded)) None sched 4
              (snd (fetchWithTimeout P (getUrl id type) 2 t)))
    as (slots & t2 & ->).
  apply process_items_normal.
Qed.

(** The entries come out of the last loop, which builds them from the id,
    the page's title and base domain, and a stream URL it has checked. *)
Lemma getStreamContent_entries_aux (sched : nat -> nat) (id type : string)
    (t t' : trace) (result : list StreamResult) :
  getStreamContent P sched id type t = (Normal result, t') ->
  exists name referer : string,
    Forall (entry_of id name referer) result.
Proof.
  intros Hrun.
  unfold getStreamContent in Hrun. unfold bind at 1 in Hrun.
  destruct (embed_stage (getUrl id type) t) as (embed & Hstage & _).
  cbv zeta in Hstage. rewrite Hstage in Hrun.
  destruct embed as [early|embedText].
  - injection Hrun as <- _.
    assert (early = []) as ->.
    { revert Hstage. unfold try_catch, bind.
      destruct (fetchWithTimeout P (getUrl id type) 2 t) as [[resp|e] t1].
      - destruct (ok resp); cbn [negb]; [|now intros [= <-]].
        unfold lift. destruct (text resp); [discriminate | now intros [= <-]].
      - now intros [= <-]. }
    exists "", "". constructor.
  - unfold bind at 1 in Hrun.
    destruct (serversLoad_normal P embedText
                (snd (fetchWithTimeout P (getUrl id type) 2 t))) as (loaded & Hload).
    rewrite Hload in Hrun.
    exists (title loaded), (baseDomain loaded).
    destruct (servers loaded) as [|srv rest] eqn:Hservers.
    + injection Hrun as <- _. constructor.
    + unfold bind in Hrun.
      destruct (mapWithConcurrencyLimit (srv :: rest)
                  (rcp_task P (baseDomain loaded)) None sched 4
                  (snd (fetchWithTimeout P (getUrl id type) 2 t)))
        as [[slots|e] t2] eqn:Hmap; [|discriminate].
      eapply process_items_entries; [exact Hrun| |constructor].
      eapply rcp_slots_image. exact Hmap.
Qed.

(** X17. Every entry of the list [getStreamContent] returns is built from
    the embed page of the run. When the list is not empty, the run has
    fetched the embed URL and [serversLoad] has read the text of the
    answer; every entry then carries the id the pipeline was asked for, as
    name the title [serversLoad] found on that page, as referer the base
    domain it found there, an empty image and a non-empty stream URL. *)
Theorem getStreamContent_entries (sched : nat -> nat) (id type : string)
    (t t' : trace) (result : list StreamResult)
    (Hrun : getStreamContent P sched id type t = (Normal result, t')) :
  result = [] \/
  exists (embedResp : Response) (embedText : string) (loaded : ServersLoad)
         (t1 : trace),
    fetchWithTimeout P (getUrl id type) 2 t = (Normal embedResp, t1) /\
    text embedResp = Normal embedText /\
    serversLoad P embedText t1 = (Normal loaded, t1) /\
    Forall (fun r => sr_mediaId r = id /\ sr_name r = title loaded /\
                     sr_referer r = baseDomain loaded /\ sr_image r = "" /\
                     sr_stream r <> "")
           result.
Proof.
  unfold getStreamContent in Hrun. unfold bind at 1 in Hrun.
  unfold try_catch at 1 in Hrun. unfold bind at 1 in Hrun.
  destruct (fetchWithTimeout P (getUrl id type) 2 t) as [[resp|e] t1] eqn:Hfetch;
    [|left; now injection Hrun as <- _].
  destruct (ok resp); cbn [negb] in Hrun; [|left; now injection Hrun as <- _].
  unfold bind at 1 in Hrun. unfold lift at 1 in Hrun.
  destruct (text resp) as [embedText|e] eqn:Htext;
    [|left; now injection Hrun as <- _].
  cbn [ret] in Hrun. unfold bind at 1 in Hrun.
  destruct (serversLoad_normal P embedText t1) as (loaded & Hload).
  rewrite Hload in Hrun.
  destruct (servers loaded) as [|srv rest] eqn:Hservers;
    [left; now injection Hrun as <- _|].
  right. exists resp, embedText, loaded, t1.
  split; [reflexivity|]. split; [exact Htext|]. split; [exact Hload|].
  unfold bind in Hrun.
  destruct (mapWithConcurrencyLimit (srv :: rest)
              (rcp_task P (baseDomain loaded)) None sched 4 t1)
    as [[slots|e] t2] eqn:Hmap; [|discriminate].
  assert (Hall : Forall (entry_of id (title loaded) (baseDomain loaded)) result).
  { eapply process_items_entries; [exact Hrun| |constructor].
    eapply rcp_slots_image. exact Hmap. }
  eapply Forall_impl; [exact Hall|].
  intros r (Hid & Hname & Href & Himg & Hstream).
  repeat split; try assumption.
  intros Hempty. rewrite Hempty in Hstream. discriminate.
Qed.
End PipelineMore.

Section PipelineRequests.
Import Extractor.
Context (P : Platform).

(** What follows the first stage only adds to the history. *)
Lemma appends_after_embed (sched : nat -> nat) (id : string) (embed : embed_fetch) :
  appends
    (match embed with
     | EmbedReturn result => ret result
     | EmbedText embedText =>
         let* loaded := serversLoad P embedText in
         match servers loaded with
         | [] => ret []
         | _ :: _ =>
             let* rcpResponses :=
               mapWithConcurrencyLimit (servers loaded)
                                       (rcp_task P (baseDomain loaded))
                                       None sched 4 in
             process_items P id (title loaded) (baseDomain loaded) []
                           rcpResponses
         end
     end).
Proof.
  destruct embed as [result|embedText]; [auto with appends|].
  apply appends_bind; [apply appends_serversLoad|]. intros loaded.
  destruct (servers loaded) as [|srv rest]; [auto with appends|].
  apply appends_bind.
  - apply appends_mapWithConcurrencyLimit. intros x i. apply appends_rcp_task.
  - intros slots. apply appends_process_items.
Qed.

(** X18. Whatever happens later, the first request of a run of
    [getStreamContent] goes to the embed URL [getUrl(id, type)]. *)
Theorem getStreamContent_first_request (sched : nat -> nat) (id type : string)
    (t : trace) :
  exists rest : list string,
    requests (snd (getStreamContent P sched id type t)) =
    requests t ++ getUrl id type :: rest.
Proof.
  unfold getStreamContent. unfold bind at 1.
  destruct (embed_stage P (getUrl id type) t) as (embed & Hstage & _).
  cbv zeta in Hstage. rewrite Hstage.
  destruct (fetchWithTimeout P (getUrl id type) 2 t) as [c t1] eqn:Hfetch.
  cbn [snd].
  destruct (fetchWithTimeout_with_requests P 200 (getUrl id type) 2 t c t1 Hfetch)
    as (k & Hk & Hreq).
  destruct (appends_after_embed sched id embed t1) as [added Hadded].
  rewrite Hadded, requests_app, Hreq.
  destruct k as [|k]; [lia|]. cbn [replicate].
  exists (replicate k (getUrl id type) ++ requests added).
  now rewrite <- app_assoc.
Qed.

(** X19. When [serversLoad] finds no server on the embed page the run has
    fetched, the pipeline stops there: the result is the empty list and
    every request of the run went to the embed URL (at most three of
    them), none to an rcp endpoint. *)
Theorem getStreamContent_without_servers (sched : nat -> nat) (id type : string)
    (t t1 : trace) (embedResp : Response) (embedText : string)
    (Hfetch : fetchWithTimeout P (getUrl id type) 2 t = (Normal embedResp, t1))
    (Htext : text embedResp = Normal embedText)
    (Hnone : servers_found P embedText t1 = []) :
  getStreamContent P sched id type t = (Normal [], t1) /\
  exists k : nat,
    (1 <= k <= 3)%nat /\
    requests t1 = requests t ++ replicate k (getUrl id type).
Proof.
  split.
  - destruct (fetchWithTimeout_with_ok P 200 _ 2 _ _ _ Hfetch) as [Hok _].
    unfold getStreamContent, bind, try_catch, lift.
    rewrite Hfetch, Hok. cbn [negb]. rewrite Htext. unfold ret.
    unfold servers_found in Hnone.
    destruct (serversLoad_normal P embedText t1) as (loaded & Hload).
    rewrite Hload in *. cbn [fst] in Hnone. now rewrite Hnone.
  - exact (fetchWithTimeout_with_requests P 200 _ 2 _ _ _ Hfetch).
Qed.

(** X20. Offline, the pipeline gives up after the embed page: it returns
    the empty list after exactly three requests to the embed URL, with
    sleeps of 200 and 400 ms between them, and asks for nothing else. *)
Theorem getStreamContent_offline (sched : nat -> nat) (id type : string)
    (t : trace) (Hnet : always_rejects P) :
  getStreamContent P sched id type t =
  (Normal [],
   t ++ [ EvFetch (getUrl id type); EvSleep 200;
          EvFetch (getUrl id type); EvSleep 400;
          EvFetch (getUrl id type) ]).
Proof.
  destruct (fetch_attempts_rejected P 200 (getUrl id type) 2 2 0 ExnNull t Hnet)
    as (e & Hfetch & _); [lia|].
  unfold getStreamContent, bind, try_catch.
  unfold fetchWithTimeout, fetchWithTimeout_with. rewrite Hfetch.
  reflexivity.
Qed.
End PipelineRequests.

Lemma getStreamContent_entries_witness :
  exists result t',
    Extractor.getStreamContent Demo.demo Demo.fifo "tt1" "movie" []
      = (Normal result, t') /\
    map (fun r => (sr_name r, sr_referer r)) result =
    [("Demo", "https://cloudnestra.com")] /\
    (result = [] \/
     exists (embedResp : Response) (embedText : string) (loaded : ServersLoad)
            (t1 : trace),
       Extractor.fetchWithTimeout Demo.demo "https://vidsrc.xyz/embed/movie/tt1" 2 []
         = (Normal embedResp, t1) /\
       text embedResp = Normal embedText /\
       Extractor.serversLoad Demo.demo embedText t1 = (Normal loaded, t1) /\
       Forall (fun r => sr_mediaId r = "tt1" /\ sr_name r = title loaded /\
                        sr_referer r = baseDomain loaded /\ sr_image r = "" /\
                        sr_stream r <> "")
              result).
Proof.
  eexists _, _. split; [reflexivity|]. split; [reflexivity|].
  eapply (getStreamContent_entries Demo.demo Demo.fifo "tt1" "movie" []).
  reflexivity.
Defined.

Lemma getStreamContent_without_servers_witness :
  Extractor.fetchWithTimeout Demo.two_pages "https://vidsrc.xyz/embed/movie/tt2" 2 []
    = (Normal {| ok := true; status := 200; text := Normal "EMPTY" |},
       [EvFetch "https://vidsrc.xyz/embed/movie/tt2"]) /\
  servers_found Demo.two_pages "EMPTY" [EvFetch "https://vidsrc.xyz/embed/movie/tt2"]
    = [] /\
  length (servers_found Demo.two_pages "EMBED" []) = 2%nat /\
  Extractor.getStreamContent Demo.two_pages Demo.fifo "tt2" "movie" [] =
  (Normal [], [EvFetch "https://vidsrc.xyz/embed/movie/tt2"]).
Proof.
  split; [reflexivity|]. split; [reflexivity|]. split; [reflexivity|].
  apply (getStreamContent_without_servers Demo.two_pages Demo.fifo "tt2" "movie"
           [] [EvFetch "https://vidsrc.xyz/embed/movie/tt2"]
           {| ok := true; status := 200; text := Normal "EMPTY" |} "EMPTY");
    reflexivity.
Defined.

Lemma getStreamContent_offline_witness :
  always_rejects Demo.offline /\
  Extractor.getStreamContent Demo.offline Demo.fifo "tt9:1:2" "series" [] =
  (Normal [],
   [ EvFetch "https://vidsrc.xyz/embed/tv/tt9/1-2"; EvSleep 200;
     EvFetch "https://vidsrc.xyz/embed/tv/tt9/1-2"; EvSleep 400;
     EvFetch "https://vidsrc.xyz/embed/tv/tt9/1-2" ]).
Proof.
  split; [exact offline_rejects|].
  exact (getStreamContent_offline Demo.offline Demo.fifo "tt9:1:2" "series" []
           offline_rejects).
Defined.

(** ** The stream handler *)

Section StreamHandler.
Import Addon.

Lemma quality_streams_urls (name : string) (qs : list QualityVariant) :
  Forall (fun s => str_truthy (st_url s) = true /\ notWebReady s = true /\
                   exists q, In q qs /\ st_url s = q_url q)
         (quality_streams name qs).
Proof.
  induction qs as [|q qs IH]; cbn [quality_streams]; [constructor|].
  assert (IH' : Forall (fun s => str_truthy (st_url s) = true /\
                                 notWebReady s = true /\
                                 exists q', In q' (q :: qs) /\ st_url s = q_url q')
                       (quality_streams name qs)).
  { eapply Forall_impl; [exact IH|]. intros s (Hu & Hf & q' & Hin & Hq').
    split; [exact Hu|]. split; [exact Hf|]. exists q'. split; [now right | exact Hq']. }
  destruct (str_truthy (q_url q)) eqn:Hq; cbn [negb]; [|exact IH'].
  constructor; [|exact IH']. cbn. split; [exact Hq|]. split; [reflexivity|].
  exists q. split; [now left | reflexivity].
Qed.

(** Where the URLs of the entries built for one result come from. *)
Lemma streams_of_urls (st : StreamResult) :
  Forall (fun s => str_truthy (st_url s) = true /\ notWebReady s = true /\
                   (st_url s = sr_stream st \/
                    exists hls q, sr_hlsData st = Some hls /\
                                  In q (qualities hls) /\ st_url s = q_url q))
         (streams_of st).
Proof.
  unfold streams_of.
  destruct (str_truthy (sr_stream st)) eqn:Hstream; cbn [negb]; [|constructor].
  assert (Hplain : forall ttl,
            Forall (fun s => str_truthy (st_url s) = true /\ notWebReady s = true /\
                      (st_url s = sr_stream st \/
                       exists hls q, sr_hlsData st = Some hls /\
                                     In q (qualities hls) /\ st_url s = q_url q))
                   [ {| st_title := ttl; st_url := sr_stream st;
                        notWebReady := true |} ]).
  { intros ttl. constructor; [|constructor]. cbn.
    split; [exact Hstream|]. split; [reflexivity | now left]. }
  destruct (sr_hlsData st) as [[master [|q qs]]|] eqn:Hhls.
  - apply Hplain.
  - constructor; [cbn; split; [exact Hstream|]; split; [reflexivity | now left]|].
    eapply Forall_impl; [apply quality_streams_urls|].
    intros s (Hu & Hf & q' & Hin & Hq').
    split; [exact Hu|]. split; [exact Hf|]. right.
    exists {| masterUrl := master; qualities := q :: qs |}, q'.
    split; [reflexivity|]. split; [exact Hin | exact Hq'].
  - apply Hplain.
Qed.

Lemma streams_of_first (st : StreamResult) :
  str_truthy (sr_stream st) = true ->
  exists s rest, streams_of st = s :: rest /\ st_url s = sr_stream st.
Proof.
  intros Hstream. unfold streams_of. rewrite Hstream. cbn [negb].
  destruct (sr_hlsData st) as [[master [|q qs]]|]; eexists _, _;
    (split; [reflexivity|]); reflexivity.
Qed.

Lemma build_streams_urls (results : list StreamResult) :
  Forall (fun s => str_truthy (st_url s) = true /\ notWebReady s = true /\
                   exists st, In st results /\
                     (st_url s = sr_stream st \/
                      exists hls q, sr_hlsData st = Some hls /\
                                    In q (qualities hls) /\ st_url s = q_url q))
         (build_streams results).
Proof.
  induction results as [|st results IH]; cbn [build_streams]; [constructor|].
  apply Forall_app. split.
  - eapply Forall_impl; [apply streams_of_urls|].
    intros s (Hu & Hf & Hfrom). split; [exact Hu|]. split; [exact Hf|].
    exists st. split; [now left | exact Hfrom].
  - eapply Forall_impl; [exact IH|].
    intros s (Hu & Hf & st' & Hin & Hfrom). split; [exact Hu|].
    split; [exact Hf|]. exists st'. split; [now right | exact Hfrom].
Qed.

Lemma build_streams_complete (results : list StreamResult) (st : StreamResult) :
  In st results -> str_truthy (sr_stream st) = true ->
  exists s, In s (build_streams results) /\ st_url s = sr_stream st.
Proof.
  induction results as [|st0 results IH]; [intros []|].
  intros [->|Hin] Hstream; cbn [build_streams].
  - destruct (streams_of_first st Hstream) as (s & rest & -> & Hs).
    exists s. split; [now left | exact Hs].
  - destruct (IH Hin Hstream) as (s & Hs & Hurl).
    exists s. split; [|exact Hurl]. apply in_or_app. now right.
Qed.

Context (P : Platform).

(** The handler returns what it builds from the list [getStreamContent]
    returned, at the same history. *)
Lemma streamHandler_builds (sched : nat -> nat) (id type : string) (t : trace) :
  exists results t',
    Extractor.getStreamContent P sched id type t = (Normal results, t') /\
    streamHandler P sched id type t = (Normal (build_streams results), t').
Proof.
  destruct (getStreamContent_never_throws_aux P sched id type t)
    as (results & t' & Hrun).
  exists results, t'. split; [exact Hrun|].
  unfold streamHandler, try_catch, bind. rewrite Hrun.
  now destruct results.
Qed.
End StreamHandler.

Section StreamHandlerContract.
Import Addon.
Context (P : Platform).

(** X21. The stream handler never throws, and every stream it returns can
    be played: its URL is not empty and it carries the [notWebReady]
    hint. *)
Theorem streamHandler_streams_playable (sched : nat -> nat) (id type : string)
    (t : trace) :
  exists (streams : list Stream) (t' : trace),
    streamHandler P sched id type t = (Normal streams, t') /\
    Forall (fun s => st_url s <> "" /\ notWebReady s = true) streams.
Proof.
  destruct (streamHandler_builds P sched id type t)
    as (results & t' & _ & Hhandler).
  exists (build_streams results), t'. split; [exact Hhandler|].
  eapply Forall_impl; [apply build_streams_urls|].
  intros s (Hurl & Hflag & _). split; [|exact Hflag].
  intros Hempty. rewrite Hempty in Hurl. discriminate.
Qed.

(** X22. The handler invents no URL and loses no result: every stream it
    returns has the stream URL of an entry [getStreamContent] returned or
    the URL of one of that entry's quality variants, and every entry
    [getStreamContent] returned is offered with its own stream URL. *)
Theorem streamHandler_from_results (sched : nat -> nat) (id type : string)
    (t : trace) :
  exists (results : list StreamResult) (streams : list Stream) (t' : trace),
    Extractor.getStreamContent P sched id type t = (Normal results, t') /\
    streamHandler P sched id type t = (Normal streams, t') /\
    (forall s, In s streams ->
       exists st, In st results /\
         (st_url s = sr_stream st \/
          exists hls q, sr_hlsData st = Some hls /\
                        In q (qualities hls) /\ st_url s = q_url q)) /\
    (forall st, In st results ->
       exists s, In s streams /\ st_url s = sr_stream st).
Proof.
  destruct (streamHandler_builds P sched id type t)
    as (results & t' & Hrun & Hhandler).
  exists results, (build_streams results), t'.
  split; [exact Hrun|]. split; [exact Hhandler|]. split.
  - intros s Hs.
    pose proof (build_streams_urls results) as Hall.
    rewrite List.Forall_forall in Hall.
    destruct (Hall s Hs) as (_ & _ & Hfrom). exact Hfrom.
  - intros st Hst. apply build_streams_complete; [exact Hst|].
    destruct (getStreamContent_entries_aux P sched id type t t' results Hrun)
      as (name & referer & Hall).
    rewrite List.Forall_forall in Hall.
    destruct (Hall st Hst) as (_ & _ & _ & _ & Hstream). exact Hstream.
Qed.
End StreamHandlerContract.

Example streamHandler_demo :
  map (fun s => (Addon.st_title s, Addon.st_url s))
      (match fst (Addon.streamHandler Demo.demo Demo.fifo "tt1" "movie" []) with
       | Normal streams => streams
       | Throw _ => []
       end) =
  [ ("Demo - Auto Quality", "https://x/master.m3u8");
    ("Demo - High Quality", "https://x/high.m3u8");
    ("Demo - Low Quality", "https://x/low.m3u8") ].
Proof. vm_compute. reflexivity. Qed.

(** ** Request headers *)

Section RequestHeaders.
Import Headers.

(** X23. Whatever [Math.random()] returns in [0, 1), the headers carry a
    user agent, never [undefined], and it is one of the four of the pool.
    The referer is decided by the base domain alone: a base domain that is
    a non-empty string gives that domain followed by a slash, a missing or
    empty one gives [https://cloudnestra.com/]. *)
Theorem getRandomizedHeaders_user_agent (r : random_draw)
    (baseDomain : option string)
    (Hunit : 0 <= numerator r < 2 ^ Z.of_nat (exponent r)) :
  (exists ua, User_Agent (getRandomizedHeaders r baseDomain) = Some ua /\
              In ua USER_AGENTS) /\
  (forall domain, baseDomain = Some domain -> domain <> "" ->
     Referer (getRandomizedHeaders r baseDomain) = domain +:+ "/") /\
  (baseDomain = None \/ baseDomain = Some "" ->
     Referer (getRandomizedHeaders r baseDomain) = "https://cloudnestra.com/").
Proof.
  split; [|split].
  - cbn [getRandomizedHeaders User_Agent]. unfold getRandomUserAgent, js_index.
    assert (Hpow : 0 < 2 ^ Z.of_nat (exponent r)) by (apply Z.pow_pos_nonneg; lia).
    assert (Hidx : 0 <= random_index r < 4).
    { unfold random_index. cbn [USER_AGENTS length]. split.
      - apply Z.div_pos; lia.
      - apply Z.div_lt_upper_bound; lia. }
    destruct (Z.ltb_spec (random_index r) 0) as [Hneg|_]; [lia|].
    destruct (USER_AGENTS !! Z.to_nat (random_index r)) as [ua|] eqn:Hua.
    + exists ua. split; [reflexivity|].
      apply list_elem_of_In. eapply list_elem_of_lookup_2. exact Hua.
    + apply lookup_ge_None in Hua. cbn [USER_AGENTS length] in Hua. lia.
  - intros domain -> Hdomain. cbn [getRandomizedHeaders Referer].
    unfold opt_str_or, str_or. destruct domain; [contradiction|reflexivity].
  - intros [-> | ->]; reflexivity.
Qed.

Lemma getRandomizedHeaders_user_agent_witness :
  0 <= 7 < 2 ^ Z.of_nat 3 /\
  User_Agent (getRandomizedHeaders {| numerator := 7; exponent := 3 |}
                                   (Some "https://example.org")) =
  Some "Mozilla/5.0 (Windows NT 10.0; Win64; x64; rv:129.0) Gecko/20100101 Firefox/129.0" /\
  Referer (getRandomizedHeaders {| numerator := 7; exponent := 3 |}
                                (Some "https://example.org")) =
  "https://example.org/".
Proof.
  split; [cbn; lia|]. split; [reflexivity|].
  destruct (getRandomizedHeaders_user_agent
              {| numerator := 7; exponent := 3 |} (Some "https://example.org"))
    as (_ & Hreferer & _); [cbn; lia|].
  exact (Hreferer "https://example.org" eq_refl ltac:(discriminate)).
Defined.

(** Outside the unit interval the bound is needed: a draw of 1 would leave
    the user agent undefined. *)
Example getRandomUserAgent_out_of_range :
  getRandomUserAgent {| numerator := 1; exponent := 0 |} = None.
Proof. reflexivity. Qed.
End RequestHeaders.

(** ** More on [getUrl] *)

Section GetUrlMore.
Import Extractor.

Lemma str_split_more (sep : ascii) (a b c rest : string) :
  has_char sep a = false -> has_char sep b = false -> has_char sep c = false ->
  str_split sep (a +:+ String sep (b +:+ String sep (c +:+ String sep rest))) =
  a :: b :: c :: str_split sep rest.
Proof.
  intros Ha Hb Hc. unfold str_split.
  rewrite split_go_piece by exact Ha.
  rewrite split_go_piece by exact Hb.
  now rewrite split_go_piece by exact Hc.
Qed.

(** X24. For a series, [getUrl] reads only the first three parts of the
    id: whatever follows a third colon does not change the URL. *)
Theorem getUrl_ignores_extra_parts (type a b c rest : string)
    (Htype : type <> "movie")
    (Ha : has_char ":" a = false) (Hb : has_char ":" b = false)
    (Hc : has_char ":" c = false) :
  getUrl (a +:+ ":" +:+ b +:+ ":" +:+ c +:+ ":" +:+ rest) type =
  getUrl (a +:+ ":" +:+ b +:+ ":" +:+ c) type.
Proof.
  rewrite !getUrl_not_movie by exact Htype.
  change (":" +:+ b +:+ ":" +:+ c +:+ ":" +:+ rest)
    with (String ":" (b +:+ String ":" (c +:+ String ":" rest))).
  change (":" +:+ b +:+ ":" +:+ c)
    with (String ":" (b +:+ String ":" c)).
  rewrite str_split_more by assumption.
  now rewrite str_split_three by assumption.
Qed.

Lemma getUrl_ignores_extra_parts_witness :
  "series" <> "movie" /\
  getUrl "tt123:1:2:extra:parts" "series" = "https://vidsrc.xyz/embed/tv/tt123/1-2" /\
  getUrl "tt123:1:2:extra:parts" "series" = getUrl "tt123:1:2" "series".
Proof.
  split; [discriminate|]. split; [reflexivity|].
  apply (getUrl_ignores_extra_parts "series" "tt123" "1" "2" "extra:parts");
    (discriminate || reflexivity).
Defined.
End GetUrlMore.

(** ** The work of a run is bounded *)

Lemma costs_le {X} (a b : nat) (m : M X) : (a <= b)%nat -> costs a m -> costs b m.
Proof. intros Hab Hm t. specialize (Hm t). lia. Qed.

Lemma costs_ret {X} (x : X) : costs 0 (ret x).
Proof. intros t. cbn [ret snd]. lia. Qed.

Lemma costs_throw {X} (e : exn) : costs 0 (@throw X e).
Proof. intros t. cbn [throw snd]. lia. Qed.

Lemma costs_lift {X} (c : completion X) : costs 0 (lift c).
Proof. intros t. cbn [lift snd]. lia. Qed.

Lemma costs_bind {X Y} (a b : nat) (m : M X) (k : X -> M Y) :
  costs a m -> (forall x, costs b (k x)) -> costs (a + b) (bind m k).
Proof.
  intros Hm Hk t. unfold bind. specialize (Hm t).
  destruct (m t) as [[x|e] t1]; cbn [snd] in *.
  - specialize (Hk x t1). lia.
  - lia.
Qed.

Lemma costs_try_catch {X} (a b : nat) (m : M X) (h : exn -> M X) :
  costs a m -> (forall e, costs b (h e)) -> costs (a + b) (try_catch m h).
Proof.
  intros Hm Hh t. unfold try_catch. specialize (Hm t).
  destruct (m t) as [[x|e] t1]; cbn [snd] in *.
  - lia.
  - specialize (Hh e t1). lia.
Qed.

Lemma costs_fetchWithTimeout_with (P : Platform) (delay : Z) (url : string)
    (retries : nat) :
  costs (S retries) (fetchWithTimeout_with P delay url retries).
Proof.
  intros t.
  destruct (fetchWithTimeout_with P delay url retries t) as [c t'] eqn:Heq.
  apply fetchWithTimeout_at_most in Heq. cbn [snd]. lia.
Qed.

Section Budget.
Import Extractor.
Context (P : Platform).

Lemma costs_fetchAndParseHLS (url : string) :
  costs 2 (HlsUtils.fetchAndParseHLS P url).
Proof.
  unfold HlsUtils.fetchAndParseHLS, HlsUtils.fetchWithTimeout.
  apply (costs_try_catch 2 0); [|intros e; apply costs_ret].
  apply (costs_bind 2 0); [apply costs_fetchWithTimeout_with|]. intros resp.
  destruct (ok resp); cbn [negb]; [|apply costs_ret].
  apply (costs_bind 0 0); [apply costs_lift|]. intros content.
  destruct (str_truthy content); cbn [negb]; [|apply costs_ret].
  destruct (includes "#EXT-X-STREAM-INF" content); cbn [negb]; apply costs_ret.
Qed.

Lemma costs_PRORCPhandler (baseDomain prorcp : string) :
  costs 2 (PRORCPhandler P baseDomain prorcp).
Proof.
  unfold PRORCPhandler, fetchWithTimeout.
  destruct (str_truthy prorcp); cbn [negb];
    [|apply (costs_le 0); [lia | apply costs_ret]].
  apply (costs_try_catch 2 0); [|intros e; apply costs_ret].
  apply (costs_bind 2 0); [apply costs_fetchWithTimeout_with|]. intros resp.
  destruct (ok resp); cbn [negb]; [|apply costs_ret].
  apply (costs_bind 0 0); [apply costs_lift|]. intros body.
  destruct (match_file P body) as [m1|]; [|apply costs_ret].
  destruct (str_truthy m1); apply costs_ret.
Qed.

Lemma costs_rcp_task (baseDomain : string) (srv : option ServerEntry) (idx : nat) :
  costs 3 (rcp_task P baseDomain srv idx).
Proof.
  unfold rcp_task, fetchWithTimeout, rcpGrabber.
  destruct srv as [[nm [hash|]]|];
    [|apply (costs_le 0); [lia | apply costs_ret]
     |apply (costs_le 0); [lia | apply costs_ret]].
  destruct (str_truthy hash); cbn [negb];
    [|apply (costs_le 0); [lia | apply costs_ret]].
  apply (costs_try_catch 3 0); [|intros e; apply costs_ret].
  apply (costs_bind 3 0); [apply costs_fetchWithTimeout_with|]. intros resp.
  destruct (ok resp); cbn [negb]; [|apply costs_ret].
  apply (costs_bind 0 0); [apply costs_lift|]. intros txt.
  destruct (match_src P (str_or txt "")); apply costs_ret.
Qed.

Lemma costs_process_item (id title baseDomain : string)
    (acc : list StreamResult) (slot : option (option RcpResult)) :
  costs 4 (process_item P id title baseDomain acc slot).
Proof.
  destruct slot as [[item|]|]; cbn [process_item];
    [|apply (costs_le 0); [lia | apply costs_ret]
     |apply (costs_le 0); [lia | apply costs_ret]].
  apply (costs_try_catch 4 0); [|intros e; apply costs_ret].
  destruct (startsWith "/prorcp/" (str_or (data item) ""));
    [|apply (costs_le 0); [lia | apply costs_ret]].
  apply (costs_bind 2 2); [apply costs_PRORCPhandler|].
  intros [stream|]; [|apply (costs_le 0); [lia | apply costs_ret]].
  destruct (str_truthy stream); cbn [negb];
    [|apply (costs_le 0); [lia | apply costs_ret]].
  apply (costs_bind 2 0); [apply costs_fetchAndParseHLS|].
  intros hls. apply costs_ret.
Qed.

Lemma process_item_length (id title baseDomain : string)
    (acc acc' : list StreamResult) (slot : option (option RcpResult))
    (t t' : trace) :
  process_item P id title baseDomain acc slot t = (Normal acc', t') ->
  (length acc' <= S (length acc))%nat.
Proof.
  destruct slot as [[item|]|]; cbn [process_item];
    [|intros [= <- _]; lia|intros [= <- _]; lia].
  unfold try_catch.
  destruct (startsWith "/prorcp/" (str_or (data item) ""));
    [|intros [= <- _]; lia].
  unfold bind.
  destruct (PRORCPhandler P baseDomain (str_replace "/prorcp/" "" (data item)) t)
    as [[[stream|]|e] t1]; [|intros [= <- _]; lia|intros [= <- _]; lia].
  destruct (str_truthy stream); cbn [negb]; [|intros [= <- _]; lia].
  destruct (HlsUtils.fetchAndParseHLS P stream t1) as [[hls|e] t2];
    [|intros [= <- _]; lia].
  intros [= <- _]. rewrite length_app. cbn [length]. lia.
Qed.

Lemma process_items_budget (id title baseDomain : string)
    (slots : js_array (option RcpResult)) (acc acc' : list StreamResult)
    (t t' : trace) :
  process_items P id title baseDomain acc slots t = (Normal acc', t') ->
  (length acc' <= length acc + length slots)%nat /\
  (fetch_count t' <= fetch_count t + 4 * length slots)%nat.
Proof.
  revert acc t. induction slots as [|slot slots IH]; intros acc t;
    cbn [process_items].
  - intros [= <- <-]. cbn [length]. lia.
  - unfold bind.
    pose proof (costs_process_item id title baseDomain acc slot t) as Hcost.
    destruct (process_item P id title baseDomain acc slot t)
      as [[acc1|e] t1] eqn:Hitem; [|discriminate].
    apply process_item_length in Hitem. cbn [snd] in Hcost.
    intros Hrest. apply IH in Hrest as [Hlen Hreq]. cbn [length]. lia.
Qed.

Lemma run_calls_budget {A V} (items : list A) (fn : option A -> nat -> M V)
    (b : nat) (order : list nat) (t : trace) :
  (forall x i, costs b (fn x i)) ->
  (fetch_count (run_calls items fn order t) <= fetch_count t + b * length order)%nat.
Proof.
  intros Hfn. revert t. induction order as [|i order IH]; intros t;
    cbn [run_calls length]; [lia|].
  specialize (IH (snd (fn (items !! i) i t))).
  specialize (Hfn (items !! i) i t). lia.
Qed.

(** X25. The work of a run is bounded by the embed page it fetches: with
    [n] the number of servers [serversLoad] finds on that page (0 when the
    run gets no page), [getStreamContent] returns at most [n] entries and
    makes at most [3 + 7 * n] requests (three for the page, and per server
    three for its rcp page, two for the player page and two for the
    manifest). *)
Theorem getStreamContent_budget (sched : nat -> nat) (id type : string)
    (t : trace) :
  exists (result : list StreamResult) (t' : trace),
    getStreamContent P sched id type t = (Normal result, t') /\
    (length result <= servers_on_page P id type t)%nat /\
    (fetch_count t' <= fetch_count t + 3 + 7 * servers_on_page P id type t)%nat.
Proof.
  unfold servers_on_page, getStreamContent. unfold bind at 1.
  unfold try_catch at 1. unfold bind at 1.
  pose proof (costs_fetchWithTimeout_with P 200 (getUrl id type) 2 t) as Hembed.
  change (fetchWithTimeout_with P 200 (getUrl id type) 2 t)
    with (fetchWithTimeout P (getUrl id type) 2 t) in Hembed.
  destruct (fetchWithTimeout P (getUrl id type) 2 t) as [[resp|e] t1];
    cbn [snd] in Hembed;
    [|exists [], t1; split; [reflexivity|]; cbn [length]; lia].
  destruct (ok resp); cbn [negb];
    [|exists [], t1; split; [reflexivity|]; cbn [length]; lia].
  unfold bind at 1. unfold lift at 1.
  destruct (text resp) as [embedText|e];
    [|exists [], t1; split; [reflexivity|]; cbn [length]; lia].
  cbn [ret]. unfold bind at 1. unfold servers_found.
  destruct (serversLoad_normal P embedText t1) as (loaded & Hload).
  rewrite Hload. cbn [fst].
  destruct (servers loaded) as [|srv rest] eqn:Hservers.
  - exists [], t1. split; [reflexivity|]. cbn [length]. lia.
  - unfold bind.
    destruct (mapWithConcurrencyLimit_stored (srv :: rest)
                (rcp_task P (baseDomain loaded)) None sched 4 t1)
      as (slots & t2 & Hmap & Hslots & _); [lia|].
    destruct (mapWithConcurrencyLimit_order (srv :: rest)
                (rcp_task P (baseDomain loaded)) None sched 4 t1)
      as (order & Hperm & Horder); [lia|].
    rewrite Hmap in *. cbn [snd] in Horder.
    assert (Hmapcost : (fetch_count t2 <= fetch_count t1 + 3 * length (srv :: rest))%nat).
    { rewrite Horder.
      etransitivity;
        [apply (run_calls_budget _ _ 3); intros x i; apply costs_rcp_task|].
      apply Permutation_length in Hperm. rewrite Hperm, length_seq. lia. }
    destruct (process_items_normal P id (title loaded) (baseDomain loaded)
                slots [] t2) as (result & t3 & Hproc).
    rewrite Hproc. exists result, t3. split; [reflexivity|].
    apply process_items_budget in Hproc as [Hlen Hreq].
    cbn [length] in *. lia.
Qed.
End Budget.

Example servers_on_page_two_pages :
  servers_on_page Demo.two_pages "tt1" "movie" [] = 2%nat /\
  servers_on_page Demo.two_pages "tt2" "movie" [] = 0%nat /\
  fetch_count (snd (Extractor.getStreamContent Demo.two_pages Demo.fifo
                      "tt1" "movie" [])) = 5%nat /\
  fetch_count (snd (Extractor.getStreamContent Demo.two_pages Demo.fifo
                      "tt2" "movie" [])) = 1%nat.
Proof. repeat split; reflexivity. Qed.

(** ** The serverless entry point *)

Section ServerWrapper.
Import Server.
Context (res : ServerResponse).

Lemma bodies_app (cs ds : list res_call) : bodies (cs ++ ds) = bodies cs ++ bodies ds.
Proof.
  induction cs as [|[code|[data|]] cs IH]; cbn [bodies app]; try exact IH;
    [reflexivity|]. now rewrite IH.
Qed.

(** What [safeEnd] does when nothing was sent yet. *)
Lemma safeEnd_first (code : Z) (data : string) (s : state) :
  finished s = false -> calls s = [] ->
  finished (safeEnd res code data s) = true /\
  bodies (calls (safeEnd res code data s)) = [data] /\
  exists rest, calls (safeEnd res code data s)
               = SetStatus code :: End (Some data) :: rest.
Proof.
  intros Hf Hc. unfold safeEnd. rewrite Hf, Hc. cbn [finished calls app].
  split; [reflexivity|].
  destruct (end_throws res [SetStatus code]); cbn; eauto.
Qed.

(** Until the wrapper answers it has not touched [res]; once the request
    is finished it stays so. *)
Definition untouched (s : state) : Prop := finished s = false -> calls s = [].

Lemma step_untouched (s : state) (e : event) :
  untouched s -> untouched (step res s e).
Proof.
  intros Hs. unfold untouched, step.
  destruct e.
  - destruct (timer_armed s); [|exact Hs].
    unfold safeEnd. cbn [clear_timer finished calls].
    destruct (finished s) eqn:Hf; cbn [clear_timer finished calls];
      [rewrite Hf|]; discriminate.
  - destruct (listening s); [discriminate | exact Hs].
  - destruct (listening s); [discriminate | exact Hs].
Qed.

Lemma step_bodies (s : state) (e : event) :
  untouched s -> (length (bodies (calls s)) <= 1)%nat ->
  (length (bodies (calls (step res s e))) <= 1)%nat.
Proof.
  intros Hs Hlen. destruct e; cbn [step].
  - destruct (timer_armed s); [|exact Hlen].
    destruct (finished s) eqn:Hf.
    + unfold safeEnd. cbn [clear_timer finished]. now rewrite Hf.
    + destruct (safeEnd_first 504 "Gateway Timeout" (clear_timer s))
        as (_ & Hb & _); [exact Hf | now apply Hs|].
      rewrite Hb. cbn [length]. lia.
  - now destruct (listening s).
  - now destruct (listening s).
Qed.

Lemma start_untouched (handler_throws : bool) :
  untouched (start res handler_throws) /\
  (length (bodies (calls (start res handler_throws))) <= 1)%nat.
Proof.
  unfold start. destruct handler_throws.
  - destruct (safeEnd_first 500 "Internal Server Error"
                (clear_timer {| finished := false; timer_armed := true;
                                listening := false; calls := [] |}))
      as (Hf & Hb & _); [reflexivity | reflexivity|].
    split; [|rewrite Hb; cbn [length]; lia].
    intros Hfalse. rewrite Hf in Hfalse. discriminate.
  - split; [intros _; reflexivity | cbn; lia].
Qed.

Lemma fold_step_bodies (events : list event) (s : state) :
  untouched s -> (length (bodies (calls s)) <= 1)%nat ->
  (length (bodies (calls (fold_left (step res) events s))) <= 1)%nat.
Proof.
  revert s. induction events as [|e events IH]; intros s Hs Hlen;
    cbn [fold_left]; [exact Hlen|].
  apply IH; [now apply step_untouched | now apply step_bodies].
Qed.

(** A finished request is never written to again. *)
Lemma fold_step_finished (events : list event) (s : state) :
  finished s = true ->
  finished (fold_left (step res) events s) = true /\
  calls (fold_left (step res) events s) = calls s.
Proof.
  revert s. induction events as [|e events IH]; intros s Hf;
    cbn [fold_left]; [now split|].
  assert (Hstep : finished (step res s e) = true /\ calls (step res s e) = calls s).
  { destruct e; cbn [step].
    - destruct (timer_armed s); [|now split].
      unfold safeEnd. cbn [clear_timer finished]. rewrite Hf. now split.
    - destruct (listening s); now split.
    - destruct (listening s); now split. }
  destruct Hstep as [Hf' Hc'].
  destruct (IH _ Hf') as [Hfin Hcalls]. split; [exact Hfin|].
  now rewrite Hcalls.
Qed.

Lemma fold_step_listening (events : list event) (s : state) :
  listening (fold_left (step res) events s) = listening s.
Proof.
  revert s. induction events as [|e events IH]; intros s; cbn [fold_left];
    [reflexivity|].
  rewrite IH. destruct e; cbn [step].
  - destruct (timer_armed s); [|reflexivity].
    unfold safeEnd. cbn [clear_timer finished listening].
    now destruct (finished s).
  - destruct (listening s) eqn:Hl; [reflexivity | exact Hl].
  - destruct (listening s) eqn:Hl; [reflexivity | exact Hl].
Qed.

(** X26. The wrapper answers a request at most once: whether the handler
    throws or not, however [res] behaves and in whatever order the timer
    and the [finish] and [close] events come, it calls [res.end] with a
    body at most one time. *)
Theorem server_answers_at_most_once (handler_throws : bool)
    (events : list event) :
  (length (bodies (calls (run res handler_throws events))) <= 1)%nat.
Proof.
  unfold run. destruct (start_untouched handler_throws) as [Hs Hlen].
  now apply fold_step_bodies.
Qed.

(** X27. Once the response has finished or closed, the wrapper is silent:
    with the listeners installed, nothing that happens after a [finish] or
    [close] event makes it touch [res] again, in particular no late
    timeout answers 504. *)
Theorem server_silent_after_finish (before after : list event) (e : event)
    (Hon : has_on res = true) (He : e = Finish \/ e = Close) :
  calls (run res false (before ++ e :: after)) = calls (run res false before).
Proof.
  unfold run. rewrite fold_left_app. cbn [fold_left].
  set (s := fold_left (step res) before (start res false)).
  assert (Hl : listening s = true).
  { unfold s. rewrite fold_step_listening. exact Hon. }
  assert (Hstep : finished (step res s e) = true /\ calls (step res s e) = calls s).
  { destruct He as [->| ->]; cbn [step]; rewrite Hl; now split. }
  destruct Hstep as [Hf Hc].
  destruct (fold_step_finished after _ Hf) as [_ Hcalls].
  now rewrite Hcalls.
Qed.

(** X28. What the wrapper sends. If the handler throws, the answer is 500
    [Internal Server Error], sent at once, and no later event changes it.
    If the handler returns and the timer fires before the response has
    finished or closed, the answer is 504 [Gateway Timeout]. *)
Theorem server_error_answers (events : list event) :
  (exists rest,
     calls (run res true events) =
     SetStatus 500 :: End (Some "Internal Server Error") :: rest /\
     bodies (calls (run res true events)) = ["Internal Server Error"]) /\
  (exists rest,
     calls (run res false (TimerFires :: events)) =
     SetStatus 504 :: End (Some "Gateway Timeout") :: rest /\
     bodies (calls (run res false (TimerFires :: events))) = ["Gateway Timeout"]).
Proof.
  split.
  - unfold run, start.
    destruct (safeEnd_first 500 "Internal Server Error"
                (clear_timer {| finished := false; timer_armed := true;
                                listening := false; calls := [] |}))
      as (Hf & Hb & rest & Hc); [reflexivity | reflexivity|].
    destruct (fold_step_finished events _ Hf) as [_ Hcalls].
    rewrite Hcalls, Hb. exists rest. now split.
  - unfold run, start. cbn [fold_left step timer_armed].
    destruct (safeEnd_first 504 "Gateway Timeout"
                (clear_timer {| finished := false; timer_armed := true;
                                listening := has_on res; calls := [] |}))
      as (Hf & Hb & rest & Hc); [reflexivity | reflexivity|].
    destruct (fold_step_finished events _ Hf) as [_ Hcalls].
    rewrite Hcalls, Hb. exists rest. now split.
Qed.
End ServerWrapper.

Lemma server_silent_after_finish_witness :
  Server.calls
    (Server.run {| Server.has_on := true; Server.end_throws := fun _ => false |}
                false [Server.Finish; Server.TimerFires; Server.Close]) = [] /\
  Server.calls
    (Server.run {| Server.has_on := true; Server.end_throws := fun _ => false |}
                false ([] ++ Server.Finish :: [Server.TimerFires; Server.Close])) =
  Server.calls
    (Server.run {| Server.has_on := true; Server.end_throws := fun _ => false |}
                false []).
Proof.
  split; [reflexivity|].
  apply (server_silent_after_finish
           {| Server.has_on := true; Server.end_throws := fun _ => false |}
           [] [Server.TimerFires; Server.Close] Server.Finish);
    [reflexivity | now left].
Defined.

(** Without [res.on] the listeners are missing, and a timer left running
    answers 504 even after the response has finished. *)
Example server_late_timeout_without_listeners :
  Server.calls
    (Server.run {| Server.has_on := false; Server.end_throws := fun _ => false |}
                false [Server.Finish; Server.TimerFires]) =
  [Server.SetStatus 504; Server.End (Some "Gateway Timeout")].
Proof. reflexivity. Qed.
